(** * The i18n namespace pipeline: classifier, splitter, synchronizer, type generator

    A shallow embedding of the maintenance scripts: the shared configuration
    [i18n-config.mjs], the namespace splitting script with its prefix
    classifier, [sync-i18n-keys.mjs] and [generate-i18n-types.mjs], together
    with the part of the JavaScript object semantics these scripts rely on.

    Conventions.  A JavaScript string is a [string], one character per code
    unit, so that the default order of [sort()] is the lexicographic order
    of [String.compare].  A translation file is known by what [JSON.parse]
    makes of it: a flat object with string members, or a syntax error.  The
    console is the list of the lines printed, the file system the state the
    scripts read and write below the locales directory. *)

From Stdlib Require Import List String Ascii NArith Bool Arith Lia.
From Stdlib Require Import Sorting.Sorted Sorting.Permutation.
From Stdlib Require Import ZArith DecimalString DecimalZ DecimalPos.
Import ListNotations.
Local Open Scope string_scope.
Local Open Scope list_scope.

(** ** Plain JavaScript objects used as string-keyed maps *)

Module JS.

(** The values the scripts can observe when they index a plain object whose
    own properties come from a flat JSON table: a string, [undefined], one of
    the functions every object inherits from [Object.prototype], or an object
    without own enumerable properties ([Object.prototype] itself, which is
    what the inherited accessor [__proto__] returns, or the [{}] it would
    serialise to). *)
Inductive value : Type :=
| VUndefined
| VString (s : string)
| VFunction (name : string)
| VEmptyObject.

(** [v !== undefined] *)
Definition defined (v : value) : bool :=
  match v with VUndefined => false | _ => true end.

(** ToBoolean, as used by [a || b]. *)
Definition truthy (v : value) : bool :=
  match v with
  | VUndefined => false
  | VString s => negb (String.eqb s "")
  | VFunction _ => true
  | VEmptyObject => true
  end.

(** An object is the list of its own enumerable properties, in the order
    [Object.keys] reports them.  Its prototype is [Object.prototype]. *)
Definition object : Type := list (string * value).

Definition empty : object := [].

(** The property names of [Object.prototype]. *)
Definition prototype_names : list string :=
  [ "constructor"; "__defineGetter__"; "__defineSetter__"; "hasOwnProperty";
    "__lookupGetter__"; "__lookupSetter__"; "isPrototypeOf";
    "propertyIsEnumerable"; "toString"; "valueOf"; "__proto__";
    "toLocaleString" ].

Definition mem (k : string) (l : list string) : bool :=
  existsb (String.eqb k) l.

(** What a lookup finds on [Object.prototype]. *)
Definition inherited (k : string) : value :=
  if String.eqb k "__proto__" then VEmptyObject
  else if mem k prototype_names then VFunction k
  else VUndefined.

Fixpoint own (o : object) (k : string) : option value :=
  match o with
  | [] => None
  | (k', v) :: o' => if String.eqb k k' then Some v else own o' k
  end.

Definition hasOwn (o : object) (k : string) : bool :=
  match own o k with Some _ => true | None => false end.

(** [o[k]] *)
Definition get (o : object) (k : string) : value :=
  match own o k with
  | Some v => v
  | None => inherited k
  end.

(** [Object.keys(o)] *)
Definition keys (o : object) : list string := map fst o.

(** *** Property order: array indices first, ascending *)

Definition digit_of (c : ascii) : option N :=
  let n := N_of_ascii c in
  if (48 <=? n)%N && (n <=? 57)%N then Some (n - 48)%N else None.

Fixpoint digits_value (acc : N) (s : string) : option N :=
  match s with
  | EmptyString => Some acc
  | String c s' =>
      match digit_of c with
      | Some d => digits_value (10 * acc + d)%N s'
      | None => None
      end
  end.

(** A canonical numeric string denoting an integer in [0, 2^32 - 2]. *)
Definition array_index (k : string) : option N :=
  match k with
  | EmptyString => None
  | String c rest =>
      if Ascii.eqb c "0"%char
      then match rest with EmptyString => Some 0%N | _ => None end
      else match digits_value 0 k with
           | Some n => if (n <=? 4294967294)%N then Some n else None
           | None => None
           end
  end.

(** Does a new property [k] come before an existing property [k']? *)
Definition precedes (k k' : string) : bool :=
  match array_index k, array_index k' with
  | Some n, Some n' => (n <? n')%N
  | Some _, None => true
  | None, _ => false
  end.

(** Create the own property [k], absent so far. *)
Fixpoint add_own (o : object) (k : string) (v : value) : object :=
  match o with
  | [] => [(k, v)]
  | (k', v') :: o' =>
      if precedes k k' then (k, v) :: o
      else (k', v') :: add_own o' k v
  end.

Fixpoint replace_own (o : object) (k : string) (v : value) : object :=
  match o with
  | [] => []
  | (k', v') :: o' =>
      if String.eqb k k' then (k', v) :: o'
      else (k', v') :: replace_own o' k v
  end.

(** [o[k] = v].  An own property is overwritten in place.  Otherwise the
    assignment creates the property, except for [__proto__]: that one reaches
    the setter on [Object.prototype], which creates nothing (it ignores a
    string, and the only object the scripts pass it is the prototype the
    receiver already has). *)
Definition set (o : object) (k : string) (v : value) : object :=
  if hasOwn o k then replace_own o k v
  else if String.eqb k "__proto__" then o
  else add_own o k v.

(** [delete o[k]] *)
Definition delete (o : object) (k : string) : object :=
  filter (fun p => negb (String.eqb k (fst p))) o.

(** ToPropertyKey on a value used as a property name. *)
Definition to_property_key (v : value) : string :=
  match v with
  | VUndefined => "undefined"
  | VString s => s
  | VFunction name => "function " ++ name ++ "() { [native code] }"
  | VEmptyObject => "[object Object]"
  end.

(** [JSON.parse(JSON.stringify(o))]: properties holding [undefined] or a
    function are not serialised. *)
Definition json_roundtrip (o : object) : object :=
  filter (fun p => match snd p with
                   | VUndefined | VFunction _ => false
                   | VString _ | VEmptyObject => true
                   end) o.

(** [s.split('.')[0]] *)
Fixpoint first_segment (s : string) : string :=
  match s with
  | EmptyString => EmptyString
  | String c s' =>
      if Ascii.eqb c "."%char then EmptyString else String c (first_segment s')
  end.

(** [a.sort()] with the default comparison (code units, ascending). *)
Fixpoint insert_sorted (k : string) (l : list string) : list string :=
  match l with
  | [] => [k]
  | x :: l' => if String.leb k x then k :: l else x :: insert_sorted k l'
  end.

Definition sort (l : list string) : list string :=
  fold_right insert_sorted [] l.

(** [new Set(a)], read back with [[...s]]: first occurrences, in order. *)
Fixpoint set_of (l : list string) : list string :=
  match l with
  | [] => []
  | x :: l' => x :: filter (fun y => negb (String.eqb x y)) (set_of l')
  end.

(** CreateDataProperty, the way [JSON.parse] defines a member: always an own
    property, also for [__proto__]. *)
Definition define_own (o : object) (k : string) (v : value) : object :=
  if hasOwn o k then replace_own o k v else add_own o k v.

(** [JSON.parse] of the text of a flat object with string members. *)
Definition parse_members (t : list (string * string)) : object :=
  fold_left (fun o p => define_own o (fst p) (VString (snd p))) t empty.

End JS.

(** ** [i18n-config.mjs] *)

Module Config.

Definition NAMESPACES : list string :=
  [ "common"; "analytics"; "session"; "settings"; "tools"; "error";
    "message"; "renderers"; "update"; "feedback"; "recentEdits" ].

Definition LANGUAGES : list string := [ "en"; "ko"; "ja"; "zh-CN"; "zh-TW" ].

Definition BASE_LANG : string := "en".

End Config.

(** ** The translation tree on disk, console output, exceptions *)

Module World.

(** Files below the locales directory: the legacy flat file
    [locales/<lang>.json] and the namespace file [locales/<lang>/<ns>.json]. *)
Inductive path : Type :=
| Legacy (lang : string)
| NsFile (lang ns : string).

Definition path_eqb (p q : path) : bool :=
  match p, q with
  | Legacy a, Legacy b => String.eqb a b
  | NsFile a n, NsFile b m => String.eqb a b && String.eqb n m
  | _, _ => false
  end.

(** What a file holds: text that [JSON.parse] turns into the given flat
    object, or text it rejects. *)
Inductive content : Type :=
| Json (o : JS.object)
| Malformed.

Record fs : Type := {
  dirs : string -> bool;            (* does [locales/<lang>/] exist *)
  files : path -> option content
}.

(** Lines printed by the synchronizer. *)
Inductive event : Type :=
| Started
| WarnNoBase (ns : string)
| NamespaceHeader (ns : string) (size : nat)
| Added (lang : string) (n : nat)
| Removed (lang : string) (n : nat)
| InSync (lang : string)
| Finished
| TotalsHeader
| Total (lang : string) (n : nat)
(* lines printed by the splitter *)
| SplitStarted
| LangHeader (lang : string)
| NsCount (ns : string) (n : nat)
| CheckHeader
| CountMismatch (lang ns : string) (langCount enCount : nat)
| AllConsistent
| SummaryHeader
| SummaryLine (ns : string) (n : nat)
| SummaryTotal (total namespaces : nat)
(* line printed by the type generator *)
| WarnNoFile (ns : string).

Inductive exn : Type :=
| ENOENT (p : path)        (* readFileSync on a missing file *)
| SyntaxError (p : path)   (* JSON.parse on malformed text *)
| TypeError.               (* property assignment on undefined *)

Record world : Type := {
  disk : fs;
  console : list event
}.

Inductive result (A : Type) : Type :=
| Ok (a : A)
| Throw (e : exn).
Arguments Ok {A} a.
Arguments Throw {A} e.

(** A script step: it changes the world and returns or throws. *)
Definition M (A : Type) : Type := world -> result A * world.

Definition ret {A} (a : A) : M A := fun w => (Ok a, w).

Definition bind {A B} (m : M A) (f : A -> M B) : M B :=
  fun w => match m w with
           | (Ok a, w') => f a w'
           | (Throw e, w') => (Throw e, w')
           end.

Definition throw {A} (e : exn) : M A := fun w => (Throw e, w).

Notation "x <- m ;; k" := (bind m (fun x => k))
  (at level 61, m at next level, right associativity).
Notation "m ;;; k" := (bind m (fun _ => k))
  (at level 61, right associativity).

(** [for (const x of l) body(x)] *)
Fixpoint for_each {A} (l : list A) (body : A -> M unit) : M unit :=
  match l with
  | [] => ret tt
  | x :: l' => body x ;;; for_each l' body
  end.

Definition when (b : bool) (m : M unit) : M unit :=
  if b then m else ret tt.

Definition log (e : event) : M unit :=
  fun w => (Ok tt, {| disk := disk w; console := console w ++ [e] |}).

Definition existsFile (p : path) : M bool :=
  fun w => (Ok (match files (disk w) p with Some _ => true | None => false end), w).

Definition existsDir (lang : string) : M bool :=
  fun w => (Ok (dirs (disk w) lang), w).

(** [fs.mkdirSync(dir, { recursive: true })] *)
Definition mkdir (lang : string) : M unit :=
  fun w => (Ok tt,
    {| disk := {| dirs := fun d => if String.eqb lang d then true else dirs (disk w) d;
                  files := files (disk w) |};
       console := console w |}).

(** [JSON.parse(fs.readFileSync(p, 'utf-8'))] *)
Definition readJson (p : path) : M JS.object :=
  fun w => match files (disk w) p with
           | None => (Throw (ENOENT p), w)
           | Some Malformed => (Throw (SyntaxError p), w)
           | Some (Json o) => (Ok o, w)
           end.

(** [fs.writeFileSync(p, JSON.stringify(o, null, 2) + '\n', 'utf-8')] *)
Definition writeJson (p : path) (o : JS.object) : M unit :=
  fun w => (Ok tt,
    {| disk := {| dirs := dirs (disk w);
                  files := fun q => if path_eqb p q
                                    then Some (Json (JS.json_roundtrip o))
                                    else files (disk w) q |};
       console := console w |}).

End World.

(** ** [sync-i18n-keys.mjs]: the key synchronizer *)

Module Sync.
Import World.

(** [LANGUAGES.filter(lang => lang !== 'en')] *)
Definition TARGET_LANGUAGES : list string :=
  filter (fun lang => negb (String.eqb lang "en")) Config.LANGUAGES.

(** [[...enKeys].filter(k => !langKeys.has(k))] *)
Definition missingKeys (enKeys langKeys : list string) : list string :=
  filter (fun k => negb (JS.mem k langKeys)) enKeys.

(** [[...langKeys].filter(k => !enKeys.has(k))] *)
Definition extraKeys (enKeys langKeys : list string) : list string :=
  filter (fun k => negb (JS.mem k enKeys)) langKeys.

(** [for (const key of missingKeys) langData[key] = en[key]] *)
Definition addMissing (en langData : JS.object) (missing : list string) : JS.object :=
  fold_left (fun data key => JS.set data key (JS.get en key)) missing langData.

(** [for (const key of extraKeys) delete langData[key]] *)
Definition removeExtra (langData : JS.object) (extra : list string) : JS.object :=
  fold_left (fun data key => JS.delete data key) extra langData.

(** The rebuild in the base table's key order:
    [for (const key of Object.keys(en))
       if (langData[key] !== undefined) sorted[key] = langData[key]] *)
Definition rebuild (en langData : JS.object) : JS.object :=
  fold_left (fun sorted key =>
               if JS.defined (JS.get langData key)
               then JS.set sorted key (JS.get langData key)
               else sorted)
            (JS.keys en) JS.empty.

(** The table computed for one target locale from the base table [en] and
    the table [langData] read from the target's file. *)
Definition reconcile (en langData : JS.object) : JS.object :=
  let enKeys := JS.set_of (JS.keys en) in
  let langKeys := JS.set_of (JS.keys langData) in
  let missing := missingKeys enKeys langKeys in
  let extra := extraKeys enKeys langKeys in
  let langData1 := if Nat.ltb 0 (List.length missing)
                   then addMissing en langData missing else langData in
  let langData2 := if Nat.ltb 0 (List.length extra)
                   then removeExtra langData1 extra else langData1 in
  rebuild en langData2.

(** The body of the loop over [TARGET_LANGUAGES]. *)
Definition syncLanguage (ns : string) (en : JS.object) (lang : string) : M unit :=
  let enKeys := JS.set_of (JS.keys en) in
  let langPath := NsFile lang ns in
  d <- existsDir lang ;;
  when (negb d) (mkdir lang) ;;;
  e <- existsFile langPath ;;
  langData <- (if e then readJson langPath else ret JS.empty) ;;
  let langKeys := JS.set_of (JS.keys langData) in
  let missing := missingKeys enKeys langKeys in
  let extra := extraKeys enKeys langKeys in
  when (Nat.ltb 0 (List.length missing)) (log (Added lang (List.length missing))) ;;;
  when (Nat.ltb 0 (List.length extra)) (log (Removed lang (List.length extra))) ;;;
  when (Nat.eqb (List.length missing) 0 && Nat.eqb (List.length extra) 0) (log (InSync lang)) ;;;
  writeJson langPath (reconcile en langData).

(** The body of the loop over [NAMESPACES]. *)
Definition syncNamespace (ns : string) : M unit :=
  let enPath := NsFile "en" ns in
  e <- existsFile enPath ;;
  if negb e then log (WarnNoBase ns)
  else
    en <- readJson enPath ;;
    log (NamespaceHeader ns (List.length (JS.set_of (JS.keys en)))) ;;;
    for_each TARGET_LANGUAGES (syncLanguage ns en).

(** The key count of one namespace file in the final report. *)
Definition countNamespace (lang : string) (total : nat) (ns : string) : M nat :=
  let nsPath := NsFile lang ns in
  e <- existsFile nsPath ;;
  if e then
    data <- readJson nsPath ;;
    ret (total + List.length (JS.keys data))
  else ret total.

Fixpoint sumNamespaces (lang : string) (total : nat) (nss : list string) : M nat :=
  match nss with
  | [] => ret total
  | ns :: nss' =>
      total' <- countNamespace lang total ns ;;
      sumNamespaces lang total' nss'
  end.

(** The final report: one total per locale. *)
Definition report : M unit :=
  log TotalsHeader ;;;
  for_each ("en" :: TARGET_LANGUAGES)
    (fun lang =>
       total <- sumNamespaces lang 0 Config.NAMESPACES ;;
       log (Total lang total)).

Definition main : M unit :=
  log Started ;;;
  for_each Config.NAMESPACES syncNamespace ;;;
  log Finished ;;;
  report.

(** One run of the script on a translation tree. *)
Definition run (tree : fs) : result unit * world :=
  main {| disk := tree; console := [] |}.

End Sync.

(** ** The namespace splitter: prefix classifier and one-time split *)

Module Split.
Import World.

Definition entry (prefix ns : string) : string * JS.value := (prefix, JS.VString ns).

(** The prefix table, an object literal. *)
Definition PREFIX_TO_NAMESPACE : JS.object :=
  [ entry "common" "common"; entry "status" "common"; entry "time" "common";
    entry "copyButton" "common";
    entry "analytics" "analytics";
    entry "session" "session"; entry "project" "session";
    entry "settingsManager" "settings"; entry "settings" "settings";
    entry "folderPicker" "settings";
    entry "tools" "tools"; entry "toolResult" "tools";
    entry "toolUseRenderer" "tools"; entry "collapsibleToolResult" "tools";
    entry "error" "error";
    entry "message" "message"; entry "messages" "message";
    entry "messageViewer" "message"; entry "messageContentDisplay" "message";
    entry "advancedTextDiff" "renderers"; entry "agentProgressGroup" "renderers";
    entry "agentTaskGroup" "renderers"; entry "assistantMessageDetails" "renderers";
    entry "bashCodeExecutionToolResultRenderer" "renderers";
    entry "captureMode" "renderers"; entry "citationRenderer" "renderers";
    entry "claudeContentArrayRenderer" "renderers";
    entry "claudeSessionHistoryRenderer" "renderers";
    entry "claudeToolUseDisplay" "renderers";
    entry "codebaseContextRenderer" "renderers";
    entry "codeExecutionToolResultRenderer" "renderers";
    entry "commandOutputDisplay" "renderers"; entry "commandRenderer" "renderers";
    entry "contentArray" "renderers"; entry "diffViewer" "renderers";
    entry "fileContent" "renderers"; entry "fileEditRenderer" "renderers";
    entry "fileHistorySnapshotRenderer" "renderers";
    entry "fileListRenderer" "renderers"; entry "gitWorkflowRenderer" "renderers";
    entry "globalSearch" "renderers"; entry "imageRenderer" "renderers";
    entry "mcpRenderer" "renderers"; entry "progressRenderer" "renderers";
    entry "queueOperationRenderer" "renderers"; entry "structuredPatch" "renderers";
    entry "summaryMessageRenderer" "renderers";
    entry "systemMessageRenderer" "renderers"; entry "taskNotification" "renderers";
    entry "taskOperation" "renderers"; entry "terminalStreamRenderer" "renderers";
    entry "textEditorCodeExecutionToolResultRenderer" "renderers";
    entry "thinkingRenderer" "renderers";
    entry "toolSearchToolResultRenderer" "renderers";
    entry "webFetchToolResultRenderer" "renderers";
    entry "webSearchRenderer" "renderers";
    entry "updateModal" "update"; entry "updateSettingsModal" "update";
    entry "updateIntroModal" "update"; entry "simpleUpdateModal" "update";
    entry "upToDateNotification" "update";
    entry "feedback" "feedback";
    entry "recentEdits" "recentEdits" ].

(** [PREFIX_TO_NAMESPACE[prefix] || 'misc'] *)
Definition getNamespace (key : string) : JS.value :=
  let prefix := JS.first_segment key in
  let found := JS.get PREFIX_TO_NAMESPACE prefix in
  if JS.truthy found then found else JS.VString "misc".

Definition getKeyWithinNamespace (key : string) : string := key.

(** [namespaceData]: an object whose properties are the per-namespace
    tables.  Its property names are the fixed namespace names, none of them
    an array index. *)
Definition tables : Type := list (string * JS.object).

Fixpoint table_own (nd : tables) (k : string) : option JS.object :=
  match nd with
  | [] => None
  | (k', o) :: nd' => if String.eqb k k' then Some o else table_own nd' k
  end.

Fixpoint table_set (nd : tables) (k : string) (o : JS.object) : tables :=
  match nd with
  | [] => [(k, o)]
  | (k', o') :: nd' =>
      if String.eqb k k' then (k', o) :: nd' else (k', o') :: table_set nd' k o
  end.

(** [for (const ns of [...NAMESPACES, 'misc']) namespaceData[ns] = {}] *)
Definition emptyTables : tables :=
  fold_left (fun nd ns => table_set nd ns JS.empty)
            (Config.NAMESPACES ++ ["misc"]) [].

(** [namespaceData[ns][nsKey] = value] for one entry of the flat table.  When
    [namespaceData[ns]] is [undefined] the assignment throws; when it is a
    member of [Object.prototype] the assignment lands there and
    [namespaceData] keeps its tables. *)
Definition classifyEntry (nd : tables) (kv : string * JS.value) : result tables :=
  let ns := JS.to_property_key (getNamespace (fst kv)) in
  let nsKey := getKeyWithinNamespace (fst kv) in
  match table_own nd ns with
  | Some o => Ok (table_set nd ns (JS.set o nsKey (snd kv)))
  | None => if JS.defined (JS.inherited ns) then Ok nd else Throw TypeError
  end.

Fixpoint classifyAll (nd : tables) (entries : list (string * JS.value)) : result tables :=
  match entries with
  | [] => Ok nd
  | kv :: rest =>
      match classifyEntry nd kv with
      | Ok nd' => classifyAll nd' rest
      | Throw e => Throw e
      end
  end.

(** [for (const key of Object.keys(nsData).sort()) sorted[key] = nsData[key]] *)
Definition sortTable (nsData : JS.object) : JS.object :=
  fold_left (fun sorted key => JS.set sorted key (JS.get nsData key))
            (JS.sort (JS.keys nsData)) JS.empty.

Definition stats : Type := list (string * nat).

Fixpoint stats_set (st : stats) (k : string) (n : nat) : stats :=
  match st with
  | [] => [(k, n)]
  | (k', n') :: st' =>
      if String.eqb k k' then (k', n) :: st' else (k', n') :: stats_set st' k n
  end.

(** [st[k] || 0] *)
Fixpoint stats_get (st : stats) (k : string) : nat :=
  match st with
  | [] => 0
  | (k', n) :: st' => if String.eqb k k' then n else stats_get st' k
  end.

(** The loop that writes one file per non-empty namespace table. *)
Fixpoint saveTables (lang : string) (nd : tables) (st : stats) : M stats :=
  match nd with
  | [] => ret st
  | (ns, nsData) :: nd' =>
      let keyCount := List.length (JS.keys nsData) in
      if Nat.eqb keyCount 0 then saveTables lang nd' st
      else
        writeJson (NsFile lang ns) (sortTable nsData) ;;;
        saveTables lang nd' (stats_set st ns keyCount)
  end.

Definition splitLanguage (lang : string) : M stats :=
  data <- readJson (Legacy lang) ;;
  d <- existsDir lang ;;
  when (negb d) (mkdir lang) ;;;
  match classifyAll emptyTables data with
  | Throw e => throw e
  | Ok namespaceData => saveTables lang namespaceData []
  end.

Fixpoint all_stats_get (all : list (string * stats)) (lang : string) : stats :=
  match all with
  | [] => []
  | (l, st) :: all' => if String.eqb lang l then st else all_stats_get all' lang
  end.

(** The loop over [LANGUAGES] that splits each locale. *)
Fixpoint splitAll (langs : list string) (all : list (string * stats))
  : M (list (string * stats)) :=
  match langs with
  | [] => ret all
  | lang :: langs' =>
      log (LangHeader lang) ;;;
      st <- splitLanguage lang ;;
      for_each st (fun p => log (NsCount (fst p) (snd p))) ;;;
      splitAll langs' (all ++ [(lang, st)])
  end.

(** The count comparison against [en] printed after the split. *)
Definition mismatches (all : list (string * stats)) : list event :=
  let baseStats := all_stats_get all "en" in
  flat_map (fun lang =>
    if String.eqb lang "en" then []
    else flat_map (fun ns =>
           let enCount := stats_get baseStats ns in
           let langCount := stats_get (all_stats_get all lang) ns in
           if Nat.eqb enCount langCount then []
           else [CountMismatch lang ns langCount enCount])
         (map fst baseStats))
    Config.LANGUAGES.

Definition main : M unit :=
  log SplitStarted ;;;
  allStats <- splitAll Config.LANGUAGES [] ;;
  log CheckHeader ;;;
  let found := mismatches allStats in
  for_each found log ;;;
  when (Nat.eqb (List.length found) 0) (log AllConsistent) ;;;
  log SummaryHeader ;;;
  let baseStats := all_stats_get allStats "en" in
  for_each baseStats (fun p => log (SummaryLine (fst p) (snd p))) ;;;
  log (SummaryTotal (fold_left (fun total p => total + snd p) baseStats 0)
                    (List.length baseStats)).

Definition run (tree : fs) : result unit * world :=
  main {| disk := tree; console := [] |}.

End Split.

(** ** [generate-i18n-types.mjs]: the type generator *)

Module TypeGen.
Import World.

(** [c.toUpperCase()] on one ASCII code unit: the letters [a] to [z] map to
    [A] to [Z], every other ASCII code unit to itself.  Beyond ASCII
    [toUpperCase] follows the Unicode case mappings, which can leave the
    code units below 256 and change the length; the generator applies it to
    the declared namespace names only, and statements about it here are
    limited to ASCII names ([ascii_only]). *)
Definition upper (c : ascii) : ascii :=
  let n := N_of_ascii c in
  if (97 <=? n)%N && (n <=? 122)%N then ascii_of_N (n - 32) else c.

(** The name is written in ASCII: every code unit is below 128. *)
Fixpoint ascii_only (s : string) : bool :=
  match s with
  | EmptyString => true
  | String c s' => (N_of_ascii c <? 128)%N && ascii_only s'
  end.

(** [str.split(/[-_]/).map(w => w.charAt(0).toUpperCase() + w.slice(1)).join('')],
    on names written in ASCII. *)
Fixpoint pascal (start : bool) (s : string) : string :=
  match s with
  | EmptyString => EmptyString
  | String c s' =>
      if Ascii.eqb c "-"%char || Ascii.eqb c "_"%char then pascal true s'
      else String (if start then upper c else c) (pascal false s')
  end.

Definition toPascalCase (s : string) : string := pascal true s.

(** A [Map] from strings, in insertion order. *)
Fixpoint map_has {A} (m : list (string * A)) (k : string) : bool :=
  match m with
  | [] => false
  | (k', _) :: m' => String.eqb k k' || map_has m' k
  end.

Fixpoint map_set {A} (m : list (string * A)) (k : string) (a : A) : list (string * A) :=
  match m with
  | [] => [(k, a)]
  | (k', a') :: m' =>
      if String.eqb k k' then (k', a) :: m' else (k', a') :: map_set m' k a
  end.

(** [groups.get(prefix).push(key)] *)
Fixpoint map_push (m : list (string * list string)) (k x : string)
  : list (string * list string) :=
  match m with
  | [] => []
  | (k', l) :: m' =>
      if String.eqb k k' then (k', l ++ [x]) :: m' else (k', l) :: map_push m' k x
  end.

Definition groupKeysByPrefix (keys : list string) : list (string * list string) :=
  fold_left (fun groups key =>
               let prefix := JS.first_segment key in
               let groups' := if negb (map_has groups prefix)
                              then map_set groups prefix [] else groups in
               map_push groups' prefix key)
            keys [].

(** The key collection: [namespaceKeys] and [allKeys]. *)
Fixpoint collect (nss : list string)
    (namespaceKeys : list (string * list string)) (allKeys : list string)
  : M (list (string * list string) * list string) :=
  match nss with
  | [] => ret (namespaceKeys, allKeys)
  | ns :: nss' =>
      let nsPath := NsFile "en" ns in
      e <- existsFile nsPath ;;
      if negb e then log (WarnNoFile ns) ;;; collect nss' namespaceKeys allKeys
      else
        nsData <- readJson nsPath ;;
        let keys := JS.keys nsData in
        collect nss' (map_set namespaceKeys ns keys) (allKeys ++ keys)
  end.

(** The content of the generated file, section by section.  The statistics
    printed once the file is written repeat the numbers below. *)
Record artifact : Type := {
  totalKeys : nat;                                  (* header comment *)
  namespaceCount : nat;                             (* header comment *)
  I18nNamespace : list string;
  namespaceTypes : list (string * (string * list string));
                                     (* namespace, type name, its members *)
  TranslationKey : list string;
  TranslationPrefix : list string
}.

Definition generateTypes : M artifact :=
  collected <- collect Config.NAMESPACES [] [] ;;
  let namespaceKeys := fst collected in
  let allKeys := snd collected in
  let prefixGroups := groupKeysByPrefix allKeys in
  ret {| totalKeys := List.length allKeys;
         namespaceCount := List.length Config.NAMESPACES;
         I18nNamespace := Config.NAMESPACES;
         namespaceTypes :=
           map (fun p => (fst p, ((toPascalCase (fst p) ++ "Keys")%string,
                                  JS.sort (snd p))))
               namespaceKeys;
         TranslationKey := JS.sort allKeys;
         TranslationPrefix := JS.sort (map fst prefixGroups) |}.

Definition run (tree : fs) : result artifact * world :=
  generateTypes {| disk := tree; console := [] |}.

End TypeGen.

(** ** Vocabulary of the statements *)

Module Spec.
Import World.

(** The key order [Object.keys] can report: array indices first, ascending. *)
Fixpoint key_order (l : list string) : Prop :=
  match l with
  | [] => True
  | k :: l' => (forall k', In k' l' -> JS.precedes k' k = false) /\ key_order l'
  end.

Definition is_string (v : JS.value) : Prop := exists s, v = JS.VString s.

(** A translation table as [JSON.parse] returns it from a flat file of
    string members. *)
Record table (o : JS.object) : Prop := {
  table_nodup : NoDup (JS.keys o);
  table_order : key_order (JS.keys o);
  table_strings : forall k v, In (k, v) o -> is_string v
}.

(** The table the claims describe for a target locale: the base table's keys
    in the base table's order, each with the target's value when the target
    has the key and with the base value otherwise. *)
Definition converged (en lang : JS.object) : JS.object :=
  map (fun k => (k, match JS.own lang k with
                    | Some v => v
                    | None => JS.get en k
                    end))
      (JS.keys en).

(** The same as a check. *)
Fixpoint key_orderb (l : list string) : bool :=
  match l with
  | [] => true
  | k :: l' => forallb (fun k' => negb (JS.precedes k' k)) l' && key_orderb l'
  end.

Fixpoint distinctb (l : list string) : bool :=
  match l with
  | [] => true
  | k :: l' => negb (JS.mem k l') && distinctb l'
  end.

Definition is_table (o : JS.object) : bool :=
  distinctb (JS.keys o) && key_orderb (JS.keys o)
  && forallb (fun p => match snd p with JS.VString _ => true | _ => false end) o.

(** The number of keys persisted for a locale and a namespace. *)
Definition keyCount (tree : fs) (lang ns : string) : nat :=
  match files tree (NsFile lang ns) with
  | Some (Json o) => List.length (JS.keys o)
  | _ => 0
  end.

Definition totalKeys (tree : fs) (lang : string) : nat :=
  fold_left (fun total ns => total + keyCount tree lang ns) Config.NAMESPACES 0.

(** No file of the tree holds malformed text. *)
Definition parses (tree : fs) : Prop :=
  forall p, files tree p <> Some Malformed.

(** The step [m] leaves every file selected by [kept] as it is. *)
Definition preserves {A} (kept : path -> bool) (m : M A) : Prop :=
  forall w p, kept p = true -> files (disk (snd (m w))) p = files (disk w) p.

(** Two worlds that differ at most in the files selected by [hidden]. *)
Definition alike (hidden : path -> bool) (w1 w2 : world) : Prop :=
  console w1 = console w2 /\
  (forall d, dirs (disk w1) d = dirs (disk w2) d) /\
  (forall p, hidden p = false -> files (disk w1) p = files (disk w2) p).

(** The step [m] cannot tell such worlds apart. *)
Definition blind {A} (hidden : path -> bool) (m : M A) : Prop :=
  forall w1 w2, alike hidden w1 w2 ->
    fst (m w1) = fst (m w2) /\ alike hidden (snd (m w1)) (snd (m w2)).

(** The files in the synchronizer's domain: the declared namespaces of the
    target locales. *)
Definition sync_target (p : path) : bool :=
  match p with
  | NsFile lang ns => JS.mem lang Sync.TARGET_LANGUAGES && JS.mem ns Config.NAMESPACES
  | Legacy _ => false
  end.

(** The catch-all files the splitter may leave behind. *)
Definition is_misc (p : path) : bool :=
  match p with
  | NsFile _ ns => String.eqb ns "misc"
  | Legacy _ => false
  end.

(** The tree with one file replaced ([None]: removed). *)
Definition with_file (tree : fs) (p : path) (c : option content) : fs :=
  {| dirs := dirs tree;
     files := fun q => if path_eqb p q then c else files tree q |}.

(** A tree given by the list of its files; every locale directory exists. *)
Definition tree_of (l : list (path * content)) : fs :=
  {| dirs := fun _ => true;
     files := fun p => match find (fun e => path_eqb p (fst e)) l with
                       | Some e => Some (snd e)
                       | None => None
                       end |}.

Definition str (k s : string) : string * JS.value := (k, JS.VString s).

(** [lang'] is [lang] or comes after it in the list of locales. *)
Definition from_on (langs : list string) (lang lang' : string) : Prop :=
  exists before after, langs = before ++ lang :: after /\ In lang' (lang :: after).

(** The table a target locale starts from: its file, or [{}] without one. *)
Definition table_at (tree : fs) (lang ns : string) : JS.object :=
  match files tree (NsFile lang ns) with
  | Some (Json o) => o
  | _ => JS.empty
  end.

(** The lines the synchronizer prints for one target locale. *)
Definition sync_events (en langData : JS.object) (lang : string) : list event :=
  let missing := Sync.missingKeys (JS.set_of (JS.keys en)) (JS.set_of (JS.keys langData)) in
  let extra := Sync.extraKeys (JS.set_of (JS.keys en)) (JS.set_of (JS.keys langData)) in
  (if Nat.ltb 0 (List.length missing) then [Added lang (List.length missing)] else [])
  ++ (if Nat.ltb 0 (List.length extra) then [Removed lang (List.length extra)] else [])
  ++ (if Nat.eqb (List.length missing) 0 && Nat.eqb (List.length extra) 0
      then [InSync lang] else []).

(** What a file holds once the namespaces [nss] have been synchronized for
    the locales [langs], in terms of the tree before the run. *)
Definition synced (langs nss : list string) (tree : fs) (p : path) : option content :=
  match p with
  | NsFile lang ns =>
      if JS.mem lang langs && JS.mem ns nss then
        match files tree (NsFile "en" ns) with
        | Some (Json en) =>
            Some (Json (JS.json_roundtrip (Sync.reconcile en (table_at tree lang ns))))
        | _ => files tree p
        end
      else files tree p
  | Legacy _ => files tree p
  end.

(** The lines printed while the namespaces [nss] are synchronized. *)
Definition namespace_events (tree : fs) (ns : string) : list event :=
  match files tree (NsFile "en" ns) with
  | Some (Json en) =>
      NamespaceHeader ns (List.length (JS.set_of (JS.keys en)))
      :: flat_map (fun lang => sync_events en (table_at tree lang ns) lang)
                  Sync.TARGET_LANGUAGES
  | _ => [WarnNoBase ns]
  end.

(** The final report on a tree. *)
Definition report_events (tree : fs) : list event :=
  TotalsHeader
  :: map (fun lang => Total lang (totalKeys tree lang)) ("en" :: Sync.TARGET_LANGUAGES).

(** The lines printed before the completion line. *)
Definition progress_line (e : event) : Prop :=
  match e with
  | Started | WarnNoBase _ | NamespaceHeader _ _
  | Added _ _ | Removed _ _ | InSync _ => True
  | _ => False
  end.

(** The lines that report an insertion or a deletion. *)
Definition edit_line (e : event) : Prop :=
  match e with
  | Added _ _ | Removed _ _ => True
  | _ => False
  end.

(** Every target locale has the base locale's key set, namespace by
    namespace. *)
Definition consistent (tree : fs) : Prop :=
  forall lang ns, In lang Sync.TARGET_LANGUAGES -> In ns Config.NAMESPACES ->
    forall k, In k (JS.keys (table_at tree lang ns))
              <-> In k (JS.keys (table_at tree "en" ns)).

(** Every target locale has the base locale's keys in the base locale's
    order, wherever a base file exists; the tables are translation tables
    and no base table has the key [__proto__]. *)
Definition aligned (tree : fs) : Prop :=
  forall ns en, In ns Config.NAMESPACES ->
    files tree (NsFile "en" ns) = Some (Json en) ->
    table en /\ ~ In "__proto__" (JS.keys en) /\
    forall lang, In lang Sync.TARGET_LANGUAGES ->
      exists o, files tree (NsFile lang ns) = Some (Json o) /\
                table o /\ JS.keys o = JS.keys en.

(** The keys of a base namespace file; none without the file. *)
Definition base_keys (tree : fs) (ns : string) : list string :=
  match files tree (NsFile "en" ns) with
  | Some (Json o) => JS.keys o
  | _ => []
  end.

Definition has_base (tree : fs) (ns : string) : bool :=
  match files tree (NsFile "en" ns) with
  | Some _ => true
  | None => false
  end.

(** Ascending in the order of [sort()]. *)
Definition ascending (l : list string) : Prop :=
  Sorted (fun a b => String.leb a b = true) l.

(** Every member is a string. *)
Definition all_strings (o : JS.object) : Prop :=
  forall k v, In (k, v) o -> is_string v.

(** The names of the splitter's tables. *)
Definition partition_names : list string := Config.NAMESPACES ++ ["misc"].

(** No key of the flat table has a first segment that names a member of
    [Object.prototype]. *)
Definition plain_prefixes (data : JS.object) : Prop :=
  forall k, In k (JS.keys data) ->
    JS.mem (JS.first_segment k) JS.prototype_names = false.

(** The tables hold exactly the keys [done], each in the table of its
    namespace. *)
Definition partitioned (nd : Split.tables) (done : list string) : Prop :=
  map fst nd = partition_names /\
  forall ns o, Split.table_own nd ns = Some o ->
    forall k, In k (JS.keys o) <-> In k done /\ Split.getNamespace k = JS.VString ns.

(** The files of the declared namespaces hold translation tables, and no
    base table has the key [__proto__]. *)
Definition well_formed (tree : fs) : Prop :=
  forall ns en, In ns Config.NAMESPACES ->
    files tree (NsFile "en" ns) = Some (Json en) ->
    table en /\ ~ In "__proto__" (JS.keys en) /\
    forall lang, In lang Sync.TARGET_LANGUAGES -> table (table_at tree lang ns).

(** A file [readFileSync] or [JSON.parse] fails on. *)
Definition unreadable (c : option content) : Prop :=
  c = None \/ c = Some Malformed.

(** The files the splitter writes for the given locales. *)
Definition split_target (langs : list string) (p : path) : bool :=
  match p with
  | NsFile lang _ => JS.mem lang langs
  | Legacy _ => false
  end.

(** A legacy file whose key [toString.label] has a prefix that names a
    member of [Object.prototype]. *)
Definition inherited_prefix_tree : fs :=
  tree_of [ (Legacy "en", Json [ str "common.ok" "OK"; str "toString.label" "x" ]) ].

(** Two trees without base files: [ko] keeps one key, in [common] in the
    first tree and in [error] in the second. *)
Definition orphan_common_tree : fs :=
  tree_of [ (NsFile "ko" "common", Json [ str "common.ok" "OK" ]) ].

Definition orphan_error_tree : fs :=
  tree_of [ (NsFile "ko" "error", Json [ str "error.fatal" "Fatal" ]) ].

(** A base table with the key [__proto__]; no target has a file yet. *)
Definition proto_base : JS.object := [ str "__proto__" "x"; str "common.ok" "OK" ].

Definition proto_tree : fs := tree_of [ (NsFile "en" "common", Json proto_base) ].

(** The same keys in every locale, [__proto__] among them, the targets in
    another order than the base. *)
Definition proto_shuffled_base : JS.object :=
  [ str "common.ok" "OK"; str "__proto__" "x"; str "common.no" "No" ].

Definition proto_shuffled_target : JS.object :=
  [ str "common.no" "Nein"; str "__proto__" "y"; str "common.ok" "Gut" ].

Definition proto_shuffled_tree : fs :=
  tree_of ((NsFile "en" "common", Json proto_shuffled_base)
           :: map (fun lang => (NsFile lang "common", Json proto_shuffled_target))
                  Sync.TARGET_LANGUAGES).

(** A consistent tree: every locale has the two [common] keys, the targets
    in the opposite order. *)
Definition reordered_base : JS.object := [ str "common.ok" "OK"; str "common.no" "No" ].

Definition reordered_target : JS.object := [ str "common.no" "Nein"; str "common.ok" "Gut" ].

Definition reordered_tree : fs :=
  tree_of ((NsFile "en" "common", Json reordered_base)
           :: map (fun lang => (NsFile lang "common", Json reordered_target))
                  Sync.TARGET_LANGUAGES).

(** The same tree after a run: the targets follow the base order. *)
Definition settled_target : JS.object := [ str "common.ok" "Gut"; str "common.no" "Nein" ].

Definition settled_tree : fs :=
  tree_of ((NsFile "en" "common", Json reordered_base)
           :: map (fun lang => (NsFile lang "common", Json settled_target))
                  Sync.TARGET_LANGUAGES).

(** The example of the convergence claim: base keys a, b, c; target keys
    a, d. *)
Definition abc_base : JS.object := [ str "a" "A"; str "b" "B"; str "c" "C" ].

Definition ad_target : JS.object := [ str "a" "old"; str "d" "D" ].

(** Two base namespace files that share a key. *)
Definition shared_key_tree : fs :=
  tree_of [ (NsFile "en" "common", Json [ str "status.ok" "OK" ]);
            (NsFile "en" "error", Json [ str "error.fatal" "Fatal"; str "status.ok" "Fine" ]) ].

(** Legacy files for two locales only; the one of [en] is missing. *)
Definition missing_en_tree : fs :=
  tree_of [ (Legacy "ko", Json [ str "common.ok" "OK" ]);
            (Legacy "ja", Json [ str "common.ok" "OK" ]) ].

(** The locales that come before [lang] in the list (all of them when
    [lang] is not in the list). *)
Fixpoint before (langs : list string) (lang : string) : list string :=
  match langs with
  | [] => []
  | l :: langs' => if String.eqb l lang then [] else l :: before langs' lang
  end.

(** The exception [JSON.parse(fs.readFileSync(p))] ends with on a file that
    is missing or malformed. *)
Definition read_failure (tree : fs) (p : path) : exn :=
  match files tree p with
  | Some Malformed => SyntaxError p
  | _ => ENOENT p
  end.

(** The world a script starts in. *)
Definition initial (tree : fs) : world := {| disk := tree; console := [] |}.

(** Legacy files for [en] and [ko], each with keys of several namespaces;
    the one of [ja] is missing. *)
Definition missing_ja_tree : fs :=
  tree_of [ (Legacy "en", Json [ str "tools.run" "Run"; str "common.ok" "OK";
                                 str "status.ready" "Ready"; str "common.cancel" "Cancel" ]);
            (Legacy "ko", Json [ str "common.ok" "Ja"; str "error.fatal" "Schlimm" ]);
            (Legacy "zh-CN", Json [ str "common.ok" "Hao" ]) ].

End Spec.

(** ** Further vocabulary *)

Module Cover.
Import World.

(** The keys the synchronizer adds to and removes from a target table. *)
Definition added (en lang : JS.object) : list string :=
  Sync.missingKeys (JS.set_of (JS.keys en)) (JS.set_of (JS.keys lang)).

Definition removed (en lang : JS.object) : list string :=
  Sync.extraKeys (JS.set_of (JS.keys en)) (JS.set_of (JS.keys lang)).

(** No target locale has a file for a declared namespace that lacks a base
    file. *)
Definition no_orphans (tree : fs) : Prop :=
  forall ns, In ns Config.NAMESPACES -> files tree (NsFile "en" ns) = None ->
    forall lang, In lang Sync.TARGET_LANGUAGES -> files tree (NsFile lang ns) = None.

(** The files of one namespace, whatever the locale. *)
Definition in_namespace (ns : string) (p : path) : bool :=
  match p with
  | NsFile _ n => String.eqb n ns
  | Legacy _ => false
  end.

(** The files of the given namespaces, whatever the locale. *)
Definition in_namespaces (nss : list string) (p : path) : bool :=
  match p with
  | NsFile _ n => JS.mem n nss
  | Legacy _ => false
  end.

(** A tree whose base file for [error] is malformed. *)
Definition malformed_base_tree : fs :=
  Spec.tree_of [ (NsFile "en" "common", Json Spec.reordered_base);
                 (NsFile "en" "error", Malformed);
                 (NsFile "ko" "message", Json [ Spec.str "message.hi" "Hi" ]) ].

(** Is the value the namespace name [ns]? *)
Definition names (v : JS.value) (ns : string) : bool :=
  match v with
  | JS.VString s => String.eqb s ns
  | _ => false
  end.

(** The number of keys in all tables. *)
Definition sizes (nd : Split.tables) : nat :=
  list_sum (map (fun p => List.length (JS.keys (snd p))) nd).

(** The tables hold the entries of [data] with the keys [done], each in the
    table of its namespace and with its value. *)
Definition faithful (data : JS.object) (nd : Split.tables) (done : list string) : Prop :=
  map fst nd = Spec.partition_names /\
  sizes nd = List.length done /\
  forall ns o, Split.table_own nd ns = Some o ->
    NoDup (JS.keys o) /\
    forall k, JS.own o k = if JS.mem k done && names (Split.getNamespace k) ns
                           then JS.own data k else None.

(** The statistics the splitter returns for its tables: the non-empty ones
    with their key counts. *)
Definition table_stats (nd : Split.tables) : Split.stats :=
  map (fun p => (fst p, List.length (JS.keys (snd p))))
      (filter (fun p => negb (Nat.eqb (List.length (JS.keys (snd p))) 0)) nd).

(** Does the name contain one of the separators [-] and [_]? *)
Fixpoint has_separator (s : string) : bool :=
  match s with
  | EmptyString => false
  | String c s' =>
      Ascii.eqb c "-"%char || Ascii.eqb c "_"%char || has_separator s'
  end.

(** The keys of [done] with the first segment [p]. *)
Definition with_prefix (p : string) (done : list string) : list string :=
  filter (fun k => String.eqb (JS.first_segment k) p) done.

(** The groups are those of the keys [done]: one group per first segment,
    holding the keys with that segment in their order. *)
Definition grouped (groups : list (string * list string)) (done : list string) : Prop :=
  NoDup (map fst groups) /\
  (forall p, In p (map fst groups) <-> exists k, In k done /\ JS.first_segment k = p) /\
  (forall p g, In (p, g) groups -> g = with_prefix p done).

(** The files the splitter may write. *)
Definition split_domain (p : path) : bool :=
  match p with
  | NsFile lang ns => JS.mem lang Config.LANGUAGES && JS.mem ns Spec.partition_names
  | Legacy _ => false
  end.

(** A flat table with keys of four namespaces, three of them in [common]
    and out of order, one with a prefix that is not in the prefix table. *)
Definition legacy_table : JS.object :=
  [ Spec.str "tools.run" "Run"; Spec.str "status.ready" "Ready";
    Spec.str "common.ok" "OK"; Spec.str "error.fatal" "Fatal";
    Spec.str "common.cancel" "Cancel"; Spec.str "halfBaked.note" "Note" ].

(** The world in which [ko] has this table as its legacy file. *)
Definition legacy_world : world :=
  {| disk := Spec.tree_of [ (Legacy "ko", Json legacy_table) ]; console := [] |}.

End Cover.

(** ** [build-auto.cjs]: the platform switch *)

Module BuildAuto.

Inductive line : Type :=
| Detected (platform : string)
| Building (target : string)
| Unsupported (platform : string)
| Completed
| Failed.

Record outcome : Type := {
  printed : list line;
  executed : list string;     (* the commands handed to [execSync] *)
  exit_code : nat
}.

(** The [switch] over [os.platform()]: the line printed and the command
    chosen, or nothing for a platform without a case. *)
Definition buildCommand (platform : string) : option (line * string) :=
  if String.eqb platform "darwin"
  then Some (Building "macOS (universal binary)", "pnpm tauri:build")
  else if String.eqb platform "linux"
  then Some (Building "Linux", "pnpm tauri:build:linux")
  else if String.eqb platform "win32"
  then Some (Building "Windows", "pnpm run sync-version && tauri build")
  else None.

(** The script, given the platform and whether [execSync] returns for a
    command ([true]) or throws ([false]). *)
Definition run (execSync : string -> bool) (platform : string) : outcome :=
  match buildCommand platform with
  | None =>
      {| printed := [Detected platform; Unsupported platform];
         executed := [];
         exit_code := 1 |}
  | Some (building, command) =>
      if execSync command
      then {| printed := [Detected platform; building; Completed];
              executed := [command];
              exit_code := 0 |}
      else {| printed := [Detected platform; building; Failed];
              executed := [command];
              exit_code := 1 |}
  end.

End BuildAuto.

(** ** The settings editor: permission lists and the export filter *)

Module Settings.

(** White space and line terminators, as [trim()] knows them, among the
    code units a [string] holds. *)
Definition is_space (c : ascii) : bool :=
  let n := N_of_ascii c in
  ((9 <=? n)%N && (n <=? 13)%N) || (n =? 32)%N || (n =? 160)%N.

Fixpoint trimStart (s : string) : string :=
  match s with
  | EmptyString => EmptyString
  | String c s' => if is_space c then trimStart s' else s
  end.

Fixpoint trimEnd (s : string) : string :=
  match s with
  | EmptyString => EmptyString
  | String c s' =>
      match trimEnd s' with
      | EmptyString => if is_space c then EmptyString else String c EmptyString
      | rest => String c rest
      end
  end.

(** [s.trim()] *)
Definition trim (s : string) : string := trimEnd (trimStart s).

(** The state of one permission list editor: the list and the input field. *)
Record editor : Type := { items : list string; newItem : string }.

(** [if (newItem.trim()) { onItemsChange([...items, newItem.trim()]); setNewItem("") }] *)
Definition addItem (e : editor) : editor :=
  if negb (String.eqb (trim (newItem e)) "")
  then {| items := items e ++ [trim (newItem e)]; newItem := "" |}
  else e.

(** [items.filter((_, i) => i !== index)] *)
Fixpoint removeAt (l : list string) (i index : nat) : list string :=
  match l with
  | [] => []
  | x :: l' =>
      if Nat.eqb i index then removeAt l' (S i) index
      else x :: removeAt l' (S i) index
  end.

Definition removeItem (e : editor) (index : nat) : editor :=
  {| items := removeAt (items e) 0 index; newItem := newItem e |}.

(** [s.includes(sub)] *)
Fixpoint includes (s sub : string) : bool :=
  String.prefix sub s
  || match s with
     | EmptyString => false
     | String _ s' => includes s' sub
     end.

Section Sanitize.

(** [toLowerCase] and [toUpperCase] are the runtime's. *)
Variables toLowerCase toUpperCase : string -> string.

(** The test for names that look like credentials. *)
Definition sensitive (key : string) : bool :=
  includes (toLowerCase key) "key"
  || includes (toLowerCase key) "token"
  || includes (toLowerCase key) "secret".

(** The function mapped over [Object.entries(config.env)]. *)
Definition maskEntry (kv : string * JS.value) : string * JS.value :=
  if sensitive (fst kv)
  then (fst kv, JS.VString ("YOUR_" ++ toUpperCase (fst kv) ++ "_HERE"))
  else kv.

(** [Object.fromEntries(entries)] *)
Definition fromEntries (entries : list (string * JS.value)) : JS.object :=
  fold_left (fun o kv => JS.define_own o (fst kv) (snd kv)) entries JS.empty.

Definition sanitizeEnv (env : JS.object) : JS.object :=
  fromEntries (map maskEntry env).

End Sanitize.

(** Every item is trimmed and not empty. *)
Definition clean (l : list string) : Prop :=
  Forall (fun x => trim x = x /\ x <> "") l.

(** Case mappings on the ASCII letters, for use in examples. *)
Definition lower_ascii (c : ascii) : ascii :=
  let n := N_of_ascii c in
  if (65 <=? n)%N && (n <=? 90)%N then ascii_of_N (n + 32) else c.

Fixpoint map_string (f : ascii -> ascii) (s : string) : string :=
  match s with
  | EmptyString => EmptyString
  | String c s' => String (f c) (map_string f s')
  end.

Definition example_env : JS.object :=
  [ Spec.str "API_KEY" "sk-123"; Spec.str "HOME" "/root"; Spec.str "GH_TOKEN" "ghp_1" ].

Definition example_editor : editor :=
  {| items := [ "Bash(rg:*)"; "Read(/path/**)" ]; newItem := "  Write(/tmp/**) " |}.

Definition example_env' : JS.object :=
  [ Spec.str "API_KEY" "sk-999"; Spec.str "HOME" "/root"; Spec.str "GH_TOKEN" "" ].

End Settings.

(** ** The activity timeline's date filter *)

Module Timeline.

(** What the getters of a [Date] give in local time: [getFullYear()],
    [getMonth()] and [getDate()], or [NaN] from each on an invalid date. *)
Inductive date : Type :=
| Valid (fullYear : Z) (month : nat) (day : nat)
| InvalidDate.

(** [String(n)] on an integer. *)
Definition String_of_Z (z : Z) : string := NilZero.string_of_int (Z.to_int z).

Definition String_of_nat (n : nat) : string := NilZero.string_of_uint (Nat.to_uint n).

Fixpoint repeat_char (c : ascii) (n : nat) : string :=
  match n with
  | 0 => EmptyString
  | S n' => String c (repeat_char c n')
  end.

(** [s.padStart(targetLength, c)] for a filler of one character. *)
Definition padStart (targetLength : nat) (c : ascii) (s : string) : string :=
  repeat_char c (targetLength - String.length s) ++ s.

Definition toLocalDateString (d : date) : string :=
  match d with
  | Valid y m day =>
      String_of_Z y ++ "-" ++ padStart 2 "0" (String_of_nat (m + 1))
                    ++ "-" ++ padStart 2 "0" (String_of_nat day)
  | InvalidDate =>
      "NaN" ++ "-" ++ padStart 2 "0" "NaN" ++ "-" ++ padStart 2 "0" "NaN"
  end.

(** A date filter; [None] stands for a bound that is [null], and a filter
    that is itself missing has both bounds [None]. *)
Record DateFilter : Type := { start : option date; end_ : option date }.

Definition selectedDate (dateFilter : DateFilter) : option string :=
  match start dateFilter, end_ dateFilter with
  | Some s, Some e =>
      let startStr := toLocalDateString s in
      let endStr := toLocalDateString e in
      if String.eqb startStr endStr then Some startStr else None
  | _, _ => None
  end.

(** The ranges of the getters: months count from 0, days from 1. *)
Definition calendar (d : date) : Prop :=
  match d with
  | Valid _ m day => m < 12 /\ 1 <= day <= 31
  | InvalidDate => True
  end.

(** The two-character field of a number below 32. *)
Definition field (n : nat) : string := padStart 2 "0" (String_of_nat n).

Definition fields_distinct : bool :=
  forallb (fun a =>
    forallb (fun b => implb (String.eqb (field a) (field b)) (Nat.eqb a b))
            (seq 0 32))
    (seq 0 32).

Definition fields_short : bool :=
  forallb (fun a => Nat.eqb (String.length (field a)) 2) (seq 0 32).

Definition single_day : DateFilter :=
  {| start := Some (Valid 2025 0 5); end_ := Some (Valid 2025 0 5) |}.

End Timeline.

(** * Properties *)

(** ** Facts about objects *)

Section ObjectFacts.

Lemma mem_In (k : string) (l : list string) : JS.mem k l = true <-> In k l.
Proof.
  unfold JS.mem. rewrite existsb_exists. split.
  - intros [x [Hx He]]. apply String.eqb_eq in He. now subst.
  - intros H. exists k. split; [assumption | apply String.eqb_refl].
Qed.

Lemma mem_not_In (k : string) (l : list string) : JS.mem k l = false <-> ~ In k l.
Proof.
  rewrite <- mem_In. destruct (JS.mem k l); split; congruence.
Qed.

Lemma own_None (o : JS.object) (k : string) :
  JS.own o k = None <-> ~ In k (JS.keys o).
Proof.
  induction o as [|[k' v] o IH]; simpl.
  - tauto.
  - destruct (String.eqb_spec k k') as [->|Hne].
    + split; [discriminate | intros H; exfalso; apply H; now left].
    + rewrite IH. split; intros H.
      * intros [E|E]; [congruence | tauto].
      * intros E. apply H. now right.
Qed.

Lemma own_Some_In (o : JS.object) (k : string) (v : JS.value) :
  JS.own o k = Some v -> In (k, v) o.
Proof.
  induction o as [|[k' v'] o IH]; simpl; [discriminate|].
  destruct (String.eqb_spec k k') as [->|Hne].
  - intros [= ->]. now left.
  - intros H. right. auto.
Qed.

Lemma In_own (o : JS.object) (k : string) (v : JS.value) :
  NoDup (JS.keys o) -> In (k, v) o -> JS.own o k = Some v.
Proof.
  induction o as [|[k' v'] o IH]; simpl; [tauto|].
  intros Hnd [E|E].
  - injection E as -> ->. now rewrite String.eqb_refl.
  - inversion Hnd as [|? ? Hni Hnd']; subst.
    destruct (String.eqb_spec k k') as [->|Hne].
    + exfalso. apply Hni. change k' with (fst (k', v)). now apply in_map.
    + auto.
Qed.

Lemma hasOwn_In (o : JS.object) (k : string) :
  JS.hasOwn o k = true <-> In k (JS.keys o).
Proof.
  unfold JS.hasOwn. destruct (JS.own o k) eqn:E.
  - split; [|reflexivity]. intros _.
    apply own_Some_In in E. change k with (fst (k, v)). now apply in_map.
  - apply own_None in E. split; [discriminate | tauto].
Qed.

Lemma hasOwn_not_In (o : JS.object) (k : string) :
  JS.hasOwn o k = false <-> ~ In k (JS.keys o).
Proof.
  rewrite <- hasOwn_In. destruct (JS.hasOwn o k); split; congruence.
Qed.

Lemma set_of_NoDup (l : list string) : NoDup l -> JS.set_of l = l.
Proof.
  induction l as [|x l IH]; simpl; [reflexivity|].
  intros H. inversion H as [|? ? Hni Hnd]; subst. rewrite (IH Hnd). f_equal.
  apply forallb_filter_id. apply forallb_forall. intros y Hy.
  destruct (String.eqb_spec x y); [subst; tauto | reflexivity].
Qed.

End ObjectFacts.

(** ** Assignment, deletion and property order *)

Section Assignment.

Lemma own_replace_own (o : JS.object) (k k' : string) (v : JS.value) :
  JS.own (JS.replace_own o k v) k' =
  if String.eqb k' k then (if JS.hasOwn o k then Some v else None) else JS.own o k'.
Proof.
  induction o as [|[k0 v0] o IH]; simpl.
  - now destruct (String.eqb k' k).
  - unfold JS.hasOwn in *. simpl.
    destruct (String.eqb_spec k k0) as [->|Hk]; simpl.
    + destruct (String.eqb_spec k' k0); reflexivity.
    + rewrite IH. destruct (String.eqb_spec k' k0) as [->|Hk'].
      * destruct (String.eqb_spec k0 k); [congruence | reflexivity].
      * reflexivity.
Qed.

Lemma own_add_own (o : JS.object) (k k' : string) (v : JS.value) :
  ~ In k (JS.keys o) ->
  JS.own (JS.add_own o k v) k' = if String.eqb k' k then Some v else JS.own o k'.
Proof.
  induction o as [|[k0 v0] o IH]; simpl; intros Hni.
  - reflexivity.
  - destruct (JS.precedes k k0); simpl.
    + reflexivity.
    + rewrite IH by tauto.
      destruct (String.eqb_spec k' k0) as [->|]; [|reflexivity].
      destruct (String.eqb_spec k0 k); [subst; tauto | reflexivity].
Qed.

Lemma own_set (o : JS.object) (k k' : string) (v : JS.value) :
  k <> "__proto__" ->
  JS.own (JS.set o k v) k' = if String.eqb k' k then Some v else JS.own o k'.
Proof.
  intros Hk. unfold JS.set. destruct (JS.hasOwn o k) eqn:E.
  - rewrite own_replace_own, E. reflexivity.
  - apply String.eqb_neq in Hk. rewrite Hk.
    apply own_add_own. now apply hasOwn_not_In.
Qed.

Lemma own_delete (o : JS.object) (k k' : string) :
  JS.own (JS.delete o k) k' = if String.eqb k' k then None else JS.own o k'.
Proof.
  induction o as [|[k0 v0] o IH]; simpl.
  - now destruct (String.eqb k' k).
  - destruct (String.eqb_spec k k0) as [->|Hk]; simpl.
    + rewrite IH. destruct (String.eqb_spec k' k0); reflexivity.
    + rewrite IH. destruct (String.eqb_spec k' k0) as [->|]; [|reflexivity].
      destruct (String.eqb_spec k0 k); [congruence | reflexivity].
Qed.

Lemma key_order_prefix (l1 l2 : list string) :
  Spec.key_order (l1 ++ l2) -> Spec.key_order l1.
Proof.
  induction l1 as [|k l1 IH]; simpl; [tauto|].
  intros [H1 H2]. split; [|auto].
  intros k' Hk'. apply H1. apply in_or_app. now left.
Qed.

Lemma add_own_last (o : JS.object) (k : string) (v : JS.value) :
  Spec.key_order (JS.keys o ++ [k]) -> JS.add_own o k v = o ++ [(k, v)].
Proof.
  induction o as [|[k0 v0] o IH]; simpl; [reflexivity|].
  intros [H1 H2]. rewrite (H1 k) by (apply in_or_app; right; now left).
  now rewrite IH.
Qed.

Lemma set_last (o : JS.object) (k : string) (v : JS.value) :
  k <> "__proto__" -> ~ In k (JS.keys o) -> Spec.key_order (JS.keys o ++ [k]) ->
  JS.set o k v = o ++ [(k, v)].
Proof.
  intros Hk Hni Ho. unfold JS.set.
  apply hasOwn_not_In in Hni. rewrite Hni.
  apply String.eqb_neq in Hk. rewrite Hk. now apply add_own_last.
Qed.

Lemma keys_replace_own (o : JS.object) (k : string) (v : JS.value) :
  JS.keys (JS.replace_own o k v) = JS.keys o.
Proof.
  induction o as [|[k0 v0] o IH]; cbn [JS.replace_own]; [reflexivity|].
  destruct (String.eqb k k0); cbn [JS.keys map fst]; [reflexivity|].
  unfold JS.keys in IH. now rewrite IH.
Qed.

Lemma In_keys_add_own (o : JS.object) (k k' : string) (v : JS.value) :
  In k' (JS.keys (JS.add_own o k v)) <-> k' = k \/ In k' (JS.keys o).
Proof.
  induction o as [|[k0 v0] o IH]; cbn [JS.add_own JS.keys map fst In].
  - intuition.
  - destruct (JS.precedes k k0); cbn [JS.keys map fst In].
    + intuition.
    + unfold JS.keys in IH. rewrite IH. intuition.
Qed.

Lemma add_own_NoDup (o : JS.object) (k : string) (v : JS.value) :
  ~ In k (JS.keys o) -> NoDup (JS.keys o) -> NoDup (JS.keys (JS.add_own o k v)).
Proof.
  induction o as [|[k0 v0] o IH]; cbn [JS.add_own JS.keys map fst In]; intros Hni Hnd.
  - constructor; [tauto | constructor].
  - destruct (JS.precedes k k0); cbn [JS.keys map fst].
    + constructor; [cbn; tauto | exact Hnd].
    + inversion Hnd as [|? ? Hni0 Hnd0]; subst. constructor.
      * fold (JS.keys (JS.add_own o k v)). rewrite In_keys_add_own.
        intros [->|H]; tauto.
      * apply IH; tauto.
Qed.

(** A key that precedes another is an array index below it, or an array
    index against a name. *)
Lemma precedes_trans (a b c : string) :
  JS.precedes a b = true -> JS.precedes c b = false -> JS.precedes c a = false.
Proof.
  unfold JS.precedes.
  destruct (JS.array_index a) as [na|], (JS.array_index b) as [nb|],
           (JS.array_index c) as [nc|]; try congruence; intros H1 H2;
    try reflexivity.
  apply N.ltb_lt in H1. apply N.ltb_ge in H2. apply N.ltb_ge. lia.
Qed.

Lemma precedes_asym (a b : string) :
  JS.precedes a b = true -> JS.precedes b a = false.
Proof.
  unfold JS.precedes.
  destruct (JS.array_index a) as [na|], (JS.array_index b) as [nb|];
    try congruence; intros H; try reflexivity.
  apply N.ltb_lt in H. apply N.ltb_ge. lia.
Qed.

Lemma add_own_order (o : JS.object) (k : string) (v : JS.value) :
  Spec.key_order (JS.keys o) -> Spec.key_order (JS.keys (JS.add_own o k v)).
Proof.
  induction o as [|[k0 v0] o IH]; cbn [JS.add_own JS.keys map fst]; intros Ho.
  - cbn. tauto.
  - destruct (JS.precedes k k0) eqn:E; cbn [JS.keys map fst Spec.key_order].
    + split; [|exact Ho]. intros k' [<-|Hk'].
      * now apply precedes_asym.
      * apply (precedes_trans k k0 k' E). cbn in Ho. now apply (proj1 Ho).
    + cbn in Ho. destruct Ho as [H1 H2]. split; [|now apply IH].
      intros k' Hk'. fold (JS.keys (JS.add_own o k v)) in Hk'.
      apply In_keys_add_own in Hk'. destruct Hk' as [->|Hk']; [exact E | now apply H1].
Qed.

(** What [JSON.parse] returns for a flat object of string members is a
    translation table. *)
Lemma parse_members_table (t : list (string * string)) :
  Spec.table (JS.parse_members t).
Proof.
  unfold JS.parse_members.
  assert (Hgen : forall o, Spec.table o ->
            Spec.table (fold_left (fun o p => JS.define_own o (fst p) (JS.VString (snd p))) t o)).
  { induction t as [|[k s] t IH]; intros o Ho; cbn [fold_left]; [exact Ho|].
    apply IH. cbn [fst snd]. unfold JS.define_own.
    destruct (JS.hasOwn o k) eqn:E; constructor.
    - rewrite keys_replace_own. exact (Spec.table_nodup o Ho).
    - rewrite keys_replace_own. exact (Spec.table_order o Ho).
    - intros k' v' Hin. revert Hin. clear E.
      induction o as [|[k0 v0] o IHo]; cbn [JS.replace_own]; [intros []|].
      assert (Ho' : Spec.table o).
      { destruct Ho as [H1 H2 H3]. constructor.
        - now inversion H1.
        - exact (proj2 H2).
        - intros a b Hab. apply (H3 a b). now right. }
      destruct (String.eqb k k0).
      + intros [Heq|Hin]; [injection Heq as <- <-; now eexists|].
        apply (Spec.table_strings _ Ho k' v'). now right.
      + intros [Heq|Hin]; [apply (Spec.table_strings _ Ho k' v'); now left|].
        now apply IHo.
    - apply add_own_NoDup; [now apply hasOwn_not_In | exact (Spec.table_nodup o Ho)].
    - apply add_own_order. exact (Spec.table_order o Ho).
    - intros k' v' Hin.
      assert (Hcases : (k', v') = (k, JS.VString s) \/ In (k', v') o).
      { clear - Hin. induction o as [|[k0 v0] o IHo]; cbn [JS.add_own] in Hin.
        - destruct Hin as [Heq|[]]. now left.
        - destruct (JS.precedes k k0).
          + destruct Hin as [Heq|Hin]; [now left | now right].
          + destruct Hin as [Heq|Hin]; [right; now left|].
            destruct (IHo Hin) as [Heq|Hin']; [now left | right; now right]. }
      destruct Hcases as [Heq|Hin'].
      + injection Heq as -> ->. now eexists.
      + exact (Spec.table_strings o Ho k' v' Hin'). }
  apply Hgen. constructor; [constructor | exact I | intros k v []].
Qed.

End Assignment.

(** ** The reconciliation of one target table *)

Section Reconcile.

Lemma own_addMissing (en : JS.object) (missing : list string) :
  ~ In "__proto__" missing ->
  forall (data : JS.object) (k : string),
    JS.own (Sync.addMissing en data missing) k =
    if JS.mem k missing then Some (JS.get en k) else JS.own data k.
Proof.
  unfold Sync.addMissing.
  induction missing as [|m missing IH]; intros Hp data k; simpl.
  - reflexivity.
  - rewrite IH by (simpl in Hp; tauto).
    rewrite own_set by (intros ->; apply Hp; now left).
    destruct (String.eqb_spec k m) as [->|Hne]; simpl.
    + now destruct (JS.mem m missing).
    + reflexivity.
Qed.

Lemma own_removeExtra (extra : list string) :
  forall (data : JS.object) (k : string),
    JS.own (Sync.removeExtra data extra) k =
    if JS.mem k extra then None else JS.own data k.
Proof.
  unfold Sync.removeExtra.
  induction extra as [|x extra IH]; intros data k; simpl.
  - reflexivity.
  - rewrite IH, own_delete.
    destruct (String.eqb_spec k x); simpl; now destruct (JS.mem k extra).
Qed.

Lemma guarded_addMissing (en data : JS.object) (missing : list string) :
  (if Nat.ltb 0 (List.length missing)
   then Sync.addMissing en data missing else data)
  = Sync.addMissing en data missing.
Proof. now destruct missing. Qed.

Lemma guarded_removeExtra (data : JS.object) (extra : list string) :
  (if Nat.ltb 0 (List.length extra)
   then Sync.removeExtra data extra else data)
  = Sync.removeExtra data extra.
Proof. now destruct extra. Qed.

Lemma rebuild_steps (data : JS.object) (suffix : list string) :
  forall done : list string,
    NoDup (done ++ suffix) ->
    Spec.key_order (done ++ suffix) ->
    ~ In "__proto__" suffix ->
    (forall k, In k suffix -> exists s, JS.own data k = Some (JS.VString s)) ->
    fold_left (fun sorted key =>
                 if JS.defined (JS.get data key)
                 then JS.set sorted key (JS.get data key)
                 else sorted)
              suffix (map (fun k => (k, JS.get data k)) done)
    = map (fun k => (k, JS.get data k)) (done ++ suffix).
Proof.
  induction suffix as [|k suffix IH]; intros done Hnd Hord Hp Hown; simpl.
  - now rewrite app_nil_r.
  - assert (Hassoc : done ++ k :: suffix = (done ++ [k]) ++ suffix)
      by (rewrite <- app_assoc; reflexivity).
    destruct (Hown k (or_introl eq_refl)) as [s Hs].
    assert (Hget : JS.get data k = JS.VString s) by (unfold JS.get; now rewrite Hs).
    rewrite Hget at 1. simpl.
    rewrite set_last.
    + rewrite Hassoc, <- IH.
      * now rewrite map_app.
      * now rewrite <- Hassoc.
      * now rewrite <- Hassoc.
      * simpl in Hp. tauto.
      * intros k' Hk'. apply Hown. now right.
    + intros ->. apply Hp. now left.
    + unfold JS.keys. rewrite map_map. simpl. rewrite map_id.
      apply NoDup_remove_2 in Hnd. intros Hin. apply Hnd.
      apply in_or_app. now left.
    + unfold JS.keys. rewrite map_map. simpl. rewrite map_id.
      apply key_order_prefix with (l2 := suffix). now rewrite <- Hassoc.
Qed.

Lemma rebuild_all_own (en data : JS.object) :
  NoDup (JS.keys en) -> Spec.key_order (JS.keys en) ->
  ~ In "__proto__" (JS.keys en) ->
  (forall k, In k (JS.keys en) -> exists s, JS.own data k = Some (JS.VString s)) ->
  Sync.rebuild en data = map (fun k => (k, JS.get data k)) (JS.keys en).
Proof.
  intros Hnd Hord Hp Hown. unfold Sync.rebuild.
  exact (rebuild_steps data (JS.keys en) [] Hnd Hord Hp Hown).
Qed.

Lemma table_get (o : JS.object) (k : string) :
  Spec.table o -> In k (JS.keys o) -> exists s, JS.own o k = Some (JS.VString s).
Proof.
  intros Ht Hin. destruct (JS.own o k) as [v|] eqn:E.
  - destruct (Spec.table_strings o Ht k v (own_Some_In o k v E)) as [s ->].
    now exists s.
  - apply own_None in E. tauto.
Qed.

(** What the target table holds for a base key once the missing keys are
    added and the extra keys are deleted. *)
Lemma own_after_edit (en lang : JS.object) (k : string) :
  ~ In "__proto__" (JS.keys en) -> In k (JS.keys en) ->
  JS.own (Sync.removeExtra
            (Sync.addMissing en lang
               (Sync.missingKeys (JS.keys en) (JS.keys lang)))
            (Sync.extraKeys (JS.keys en) (JS.keys lang))) k
  = Some (match JS.own lang k with Some v => v | None => JS.get en k end).
Proof.
  intros Hp Hk.
  rewrite own_removeExtra.
  assert (Hx : JS.mem k (Sync.extraKeys (JS.keys en) (JS.keys lang)) = false).
  { apply mem_not_In. unfold Sync.extraKeys. rewrite filter_In.
    intros [_ H]. apply negb_true_iff, mem_not_In in H. tauto. }
  rewrite Hx, own_addMissing.
  - destruct (JS.mem k (Sync.missingKeys (JS.keys en) (JS.keys lang))) eqn:Em.
    + apply mem_In in Em. unfold Sync.missingKeys in Em.
      apply filter_In in Em. destruct Em as [_ Em].
      apply negb_true_iff, mem_not_In, own_None in Em. now rewrite Em.
    + apply mem_not_In in Em. unfold Sync.missingKeys in Em.
      rewrite filter_In in Em.
      destruct (JS.own lang k) as [v|] eqn:E; [reflexivity|].
      exfalso. apply Em. split; [assumption|].
      apply negb_true_iff, mem_not_In. now apply own_None.
  - unfold Sync.missingKeys. rewrite filter_In. tauto.
Qed.

(** Away from the key [__proto__], reconciling a target table against the
    base table yields the converged table. *)
Lemma reconcile_converged (en lang : JS.object) :
  Spec.table en -> Spec.table lang -> ~ In "__proto__" (JS.keys en) ->
  Sync.reconcile en lang = Spec.converged en lang.
Proof.
  intros Hen Hlang Hp. unfold Sync.reconcile.
  rewrite (set_of_NoDup _ (Spec.table_nodup en Hen)).
  rewrite (set_of_NoDup _ (Spec.table_nodup lang Hlang)).
  rewrite guarded_addMissing, guarded_removeExtra.
  rewrite rebuild_all_own.
  - unfold Spec.converged. apply map_ext_in. intros k Hk.
    unfold JS.get at 1. now rewrite own_after_edit.
  - exact (Spec.table_nodup en Hen).
  - exact (Spec.table_order en Hen).
  - exact Hp.
  - intros k Hk. rewrite own_after_edit by assumption.
    destruct (JS.own lang k) as [v|] eqn:E.
    + destruct (Spec.table_strings lang Hlang k v (own_Some_In _ _ _ E)) as [s ->].
      now exists s.
    + destruct (table_get en k Hen Hk) as [s Hs].
      exists s. unfold JS.get. now rewrite Hs.
Qed.

End Reconcile.

(** ** Frame rules for script steps *)

Section Frame.
Import World.

Variable kept : path -> bool.

Lemma preserves_ret {A} (a : A) : Spec.preserves kept (ret a).
Proof. intros w p _. reflexivity. Qed.

Lemma preserves_throw {A} (e : exn) : Spec.preserves kept (@throw A e).
Proof. intros w p _. reflexivity. Qed.

Lemma preserves_bind {A B} (m : M A) (f : A -> M B) :
  Spec.preserves kept m -> (forall a, Spec.preserves kept (f a)) ->
  Spec.preserves kept (bind m f).
Proof.
  intros Hm Hf w p Hp. unfold bind.
  specialize (Hm w p Hp). destruct (m w) as [[a|e] w']; simpl in *.
  - rewrite (Hf a w' p Hp). exact Hm.
  - exact Hm.
Qed.

Lemma preserves_for_each {A} (l : list A) (body : A -> M unit) :
  (forall x, In x l -> Spec.preserves kept (body x)) ->
  Spec.preserves kept (for_each l body).
Proof.
  induction l as [|x l IH]; intros H; simpl.
  - apply preserves_ret.
  - apply preserves_bind.
    + apply H. now left.
    + intros _. apply IH. intros y Hy. apply H. now right.
Qed.

Lemma preserves_when (b : bool) (m : M unit) :
  Spec.preserves kept m -> Spec.preserves kept (when b m).
Proof. destruct b; simpl; [tauto | intros _; apply preserves_ret]. Qed.

Lemma preserves_log (e : event) : Spec.preserves kept (log e).
Proof. intros w p _. reflexivity. Qed.

Lemma preserves_existsFile (q : path) : Spec.preserves kept (existsFile q).
Proof. intros w p _. reflexivity. Qed.

Lemma preserves_existsDir (d : string) : Spec.preserves kept (existsDir d).
Proof. intros w p _. reflexivity. Qed.

Lemma preserves_mkdir (d : string) : Spec.preserves kept (mkdir d).
Proof. intros w p _. reflexivity. Qed.

Lemma preserves_readJson (q : path) : Spec.preserves kept (readJson q).
Proof.
  intros w p _. unfold readJson.
  destruct (files (disk w) q) as [[o|]|]; reflexivity.
Qed.

Lemma preserves_writeJson (q : path) (o : JS.object) :
  kept q = false -> Spec.preserves kept (writeJson q o).
Proof.
  intros Hq w p Hp. simpl.
  destruct (path_eqb q p) eqn:E; [|reflexivity].
  assert (q = p).
  { destruct q, p; simpl in E; try discriminate.
    - apply String.eqb_eq in E. now subst.
    - apply andb_true_iff in E. destruct E as [E1 E2].
      apply String.eqb_eq in E1, E2. now subst. }
  congruence.
Qed.

End Frame.

Section Blindness.
Import World.

Variable hidden : path -> bool.

Lemma blind_ret {A} (a : A) : Spec.blind hidden (ret a).
Proof. intros w1 w2 H. split; [reflexivity | exact H]. Qed.

Lemma blind_throw {A} (e : exn) : Spec.blind hidden (@throw A e).
Proof. intros w1 w2 H. split; [reflexivity | exact H]. Qed.

Lemma blind_bind {A B} (m : M A) (f : A -> M B) :
  Spec.blind hidden m -> (forall a, Spec.blind hidden (f a)) ->
  Spec.blind hidden (bind m f).
Proof.
  intros Hm Hf w1 w2 H. unfold bind.
  destruct (Hm w1 w2 H) as [Hr Hw].
  destruct (m w1) as [r1 w1'], (m w2) as [r2 w2']. simpl in Hr, Hw. subst r2.
  destruct r1 as [a|e].
  - exact (Hf a w1' w2' Hw).
  - split; [reflexivity | exact Hw].
Qed.

Lemma blind_for_each {A} (l : list A) (body : A -> M unit) :
  (forall x, In x l -> Spec.blind hidden (body x)) ->
  Spec.blind hidden (for_each l body).
Proof.
  induction l as [|x l IH]; intros H; simpl.
  - apply blind_ret.
  - apply blind_bind.
    + apply H. now left.
    + intros _. apply IH. intros y Hy. apply H. now right.
Qed.

Lemma blind_when (b : bool) (m : M unit) :
  Spec.blind hidden m -> Spec.blind hidden (when b m).
Proof. destruct b; simpl; [tauto | intros _; apply blind_ret]. Qed.

Lemma blind_log (e : event) : Spec.blind hidden (log e).
Proof.
  intros w1 w2 (Hc & Hd & Hf). split; [reflexivity|].
  split; [simpl; now rewrite Hc | split; assumption].
Qed.

Lemma blind_existsFile (q : path) :
  hidden q = false -> Spec.blind hidden (existsFile q).
Proof.
  intros Hq w1 w2 H. split; [|exact H].
  destruct H as (_ & _ & Hf). simpl. now rewrite (Hf q Hq).
Qed.

Lemma blind_existsDir (d : string) : Spec.blind hidden (existsDir d).
Proof.
  intros w1 w2 H. split; [|exact H].
  destruct H as (_ & Hd & _). simpl. now rewrite Hd.
Qed.

Lemma blind_mkdir (d : string) : Spec.blind hidden (mkdir d).
Proof.
  intros w1 w2 (Hc & Hd & Hf). split; [reflexivity|].
  split; [exact Hc | split; [|exact Hf]].
  intros d'. simpl. now rewrite Hd.
Qed.

Lemma blind_readJson (q : path) :
  hidden q = false -> Spec.blind hidden (readJson q).
Proof.
  intros Hq w1 w2 H. unfold readJson.
  destruct H as (Hc & Hd & Hf). rewrite (Hf q Hq).
  destruct (files (disk w2) q) as [[o|]|]; simpl; repeat split; assumption.
Qed.

Lemma blind_writeJson (q : path) (o : JS.object) :
  Spec.blind hidden (writeJson q o).
Proof.
  intros w1 w2 (Hc & Hd & Hf). split; [reflexivity|].
  split; [exact Hc | split; [exact Hd|]].
  intros p Hp. simpl. destruct (path_eqb q p); [reflexivity | auto].
Qed.

End Blindness.

(** ** The synchronizer's footprint *)

Ltac frame_step :=
  lazymatch goal with
  | |- forall _, Spec.preserves _ _ => intro
  | |- Spec.preserves _ (if ?b then _ else _) => destruct b
  | |- Spec.preserves _ (World.bind _ _) => apply preserves_bind
  | |- Spec.preserves _ (World.when _ _) => apply preserves_when
  | |- Spec.preserves _ (World.ret _) => apply preserves_ret
  | |- Spec.preserves _ (World.throw _) => apply preserves_throw
  | |- Spec.preserves _ (World.log _) => apply preserves_log
  | |- Spec.preserves _ (World.existsFile _) => apply preserves_existsFile
  | |- Spec.preserves _ (World.existsDir _) => apply preserves_existsDir
  | |- Spec.preserves _ (World.mkdir _) => apply preserves_mkdir
  | |- Spec.preserves _ (World.readJson _) => apply preserves_readJson
  end.


Section SyncFootprint.
Import World.

Lemma preserves_syncLanguage (kept : path -> bool) (ns lang : string) (en : JS.object) :
  kept (NsFile lang ns) = false ->
  Spec.preserves kept (Sync.syncLanguage ns en lang).
Proof.
  intros Hk. unfold Sync.syncLanguage.
  repeat frame_step. now apply preserves_writeJson.
Qed.

Lemma preserves_syncNamespace (kept : path -> bool) (ns : string) :
  (forall lang, In lang Sync.TARGET_LANGUAGES -> kept (NsFile lang ns) = false) ->
  Spec.preserves kept (Sync.syncNamespace ns).
Proof.
  intros Hk. unfold Sync.syncNamespace.
  apply preserves_bind; [apply preserves_existsFile|].
  intros e. repeat frame_step.
  apply preserves_for_each. intros lang Hl.
  apply preserves_syncLanguage. auto.
Qed.

Lemma preserves_sumNamespaces (kept : path -> bool) (lang : string) (nss : list string) :
  forall total, Spec.preserves kept (Sync.sumNamespaces lang total nss).
Proof.
  induction nss as [|ns nss IH]; intros total; simpl.
  - apply preserves_ret.
  - apply preserves_bind; [|intros; apply IH].
    unfold Sync.countNamespace.
    repeat frame_step.
Qed.

Lemma preserves_report (kept : path -> bool) : Spec.preserves kept Sync.report.
Proof.
  unfold Sync.report. repeat frame_step.
  apply preserves_for_each. intros lang _.
  apply preserves_bind; [apply preserves_sumNamespaces | intros; apply preserves_log].
Qed.

(** The run writes inside the synchronizer's domain only. *)
Lemma preserves_main (kept : path -> bool) :
  (forall p, Spec.sync_target p = true -> kept p = false) ->
  Spec.preserves kept Sync.main.
Proof.
  intros Hk. unfold Sync.main.
  repeat frame_step; try apply preserves_report.
  apply preserves_for_each. intros ns Hns.
  apply preserves_syncNamespace. intros lang Hl.
  apply Hk. unfold Spec.sync_target.
  apply andb_true_iff. split; apply mem_In; assumption.
Qed.

End SyncFootprint.

Section SyncBlindness.
Import World.

Ltac blind_step :=
  lazymatch goal with
  | |- forall _, Spec.blind _ _ => intro
  | |- Spec.blind _ (if ?b then _ else _) => destruct b
  | |- Spec.blind _ (bind _ _) => apply blind_bind
  | |- Spec.blind _ (when _ _) => apply blind_when
  | |- Spec.blind _ (ret _) => apply blind_ret
  | |- Spec.blind _ (throw _) => apply blind_throw
  | |- Spec.blind _ (log _) => apply blind_log
  | |- Spec.blind _ (existsDir _) => apply blind_existsDir
  | |- Spec.blind _ (mkdir _) => apply blind_mkdir
  | |- Spec.blind _ (writeJson _ _) => apply blind_writeJson
  | |- Spec.blind _ (existsFile _) => apply blind_existsFile; try assumption
  | |- Spec.blind _ (readJson _) => apply blind_readJson; try assumption
  end.

Variable hidden : path -> bool.

Lemma blind_syncLanguage (ns lang : string) (en : JS.object) :
  hidden (NsFile lang ns) = false ->
  Spec.blind hidden (Sync.syncLanguage ns en lang).
Proof.
  intros Hk. unfold Sync.syncLanguage. repeat blind_step.
Qed.

Lemma blind_syncNamespace (ns : string) :
  (forall lang, hidden (NsFile lang ns) = false) ->
  Spec.blind hidden (Sync.syncNamespace ns).
Proof.
  intros Hk. unfold Sync.syncNamespace.
  pose proof (Hk "en") as Hen.
  repeat blind_step.
  apply blind_for_each. intros lang _. now apply blind_syncLanguage.
Qed.

Lemma blind_sumNamespaces (lang : string) (nss : list string) :
  (forall ns, In ns nss -> hidden (NsFile lang ns) = false) ->
  forall total, Spec.blind hidden (Sync.sumNamespaces lang total nss).
Proof.
  induction nss as [|ns nss IH]; intros Hk total; simpl.
  - apply blind_ret.
  - apply blind_bind; [|intros; apply IH; intros; apply Hk; now right].
    unfold Sync.countNamespace.
    pose proof (Hk ns (or_introl eq_refl)) as Hns.
    repeat blind_step.
Qed.

Lemma blind_main :
  (forall lang ns, In ns Config.NAMESPACES -> hidden (NsFile lang ns) = false) ->
  Spec.blind hidden Sync.main.
Proof.
  intros Hk. unfold Sync.main, Sync.report. repeat blind_step.
  - apply blind_for_each. intros ns Hns.
    apply blind_syncNamespace. intros lang. now apply Hk.
  - apply blind_for_each. intros lang _.
    apply blind_bind; [|intros; apply blind_log].
    apply blind_sumNamespaces. intros ns Hns. now apply Hk.
Qed.

End SyncBlindness.

Lemma path_eqb_eq (p q : World.path) : World.path_eqb p q = true <-> p = q.
Proof.
  destruct p, q; simpl; try (split; [discriminate | congruence]).
  - rewrite String.eqb_eq. split; congruence.
  - rewrite andb_true_iff, !String.eqb_eq.
    split; [intros [] | intros H; injection H; intros; split]; congruence.
Qed.

Lemma misc_not_declared (lang ns : string) :
  In ns Config.NAMESPACES -> Spec.is_misc (World.NsFile lang ns) = false.
Proof.
  intros H. simpl in H.
  repeat (destruct H as [<-|H]; [reflexivity|]). contradiction.
Qed.

Lemma target_not_base (lang : string) :
  In lang Sync.TARGET_LANGUAGES -> lang <> "en" /\ In lang Config.LANGUAGES.
Proof.
  unfold Sync.TARGET_LANGUAGES. rewrite filter_In. intros [H1 H2].
  split; [|assumption]. apply negb_true_iff in H2. now apply String.eqb_neq.
Qed.

Lemma sync_target_inv (p : World.path) :
  Spec.sync_target p = true ->
  exists lang ns, p = World.NsFile lang ns /\
                  In lang Sync.TARGET_LANGUAGES /\ In ns Config.NAMESPACES.
Proof.
  destruct p as [l|lang ns]; [discriminate|]. unfold Spec.sync_target.
  rewrite andb_true_iff, !mem_In. intros [H1 H2]. now exists lang, ns.
Qed.

(** C6. Base-locale frame: in every run of the synchronizer over any tree,
    each file of the base locale [en] holds after the run exactly what it
    held before (no key deleted, no key moved), and a file whose content
    changed is a declared namespace file of a non-base locale. *)
Theorem sync_base_locale_read_only :
  forall tree : World.fs,
    (forall ns, World.files (World.disk (snd (Sync.run tree))) (World.NsFile "en" ns)
                = World.files tree (World.NsFile "en" ns)) /\
    (forall p, World.files (World.disk (snd (Sync.run tree))) p <> World.files tree p ->
       exists lang ns, p = World.NsFile lang ns /\ lang <> "en" /\
                       In lang Config.LANGUAGES /\ In ns Config.NAMESPACES).
Proof.
  intros tree.
  assert (Hkeep : forall p, Spec.sync_target p = false ->
            World.files (World.disk (snd (Sync.run tree))) p = World.files tree p).
  { intros p Hp. unfold Sync.run.
    apply (preserves_main (fun q => negb (Spec.sync_target q))).
    - intros q Hq. now rewrite Hq.
    - now rewrite Hp. }
  split.
  - intros ns. apply Hkeep. reflexivity.
  - intros p Hp. destruct (Spec.sync_target p) eqn:E.
    + destruct (sync_target_inv p E) as (lang & ns & -> & Hl & Hn).
      destruct (target_not_base lang Hl). now exists lang, ns.
    + exfalso. apply Hp. now apply Hkeep.
Qed.

Lemma files_with_file (tree : World.fs) (p q : World.path) (c : option World.content) :
  World.files (Spec.with_file tree p c) q
  = if World.path_eqb p q then c else World.files tree q.
Proof. reflexivity. Qed.

Lemma path_eqb_refl (p : World.path) : World.path_eqb p p = true.
Proof. now apply path_eqb_eq. Qed.

(** C10. The catch-all namespace is outside the synchronizer's domain: there
    are eleven declared namespaces and [misc] is none of them; a run leaves
    every [misc.json] as it was; and replacing, creating or removing a
    locale's [misc.json] before the run changes neither the outcome, nor the
    console output (the per-locale totals included), nor any other file the
    run leaves behind. *)
Theorem sync_ignores_misc :
  forall (tree : World.fs) (lang : string) (c : option World.content),
    List.length Config.NAMESPACES = 11 /\ ~ In "misc" Config.NAMESPACES /\
    World.files (World.disk (snd (Sync.run tree))) (World.NsFile lang "misc")
      = World.files tree (World.NsFile lang "misc") /\
    let tree' := Spec.with_file tree (World.NsFile lang "misc") c in
    fst (Sync.run tree') = fst (Sync.run tree) /\
    World.console (snd (Sync.run tree')) = World.console (snd (Sync.run tree)) /\
    World.files (World.disk (snd (Sync.run tree'))) (World.NsFile lang "misc") = c /\
    forall p, p <> World.NsFile lang "misc" ->
      World.files (World.disk (snd (Sync.run tree'))) p
      = World.files (World.disk (snd (Sync.run tree))) p.
Proof.
  intros tree lang c.
  assert (Hkeep : forall t p, Spec.is_misc p = true ->
            World.files (World.disk (snd (Sync.run t))) p = World.files t p).
  { intros t p Hp. unfold Sync.run.
    apply (preserves_main Spec.is_misc); [|exact Hp].
    intros q Hq. destruct (sync_target_inv q Hq) as (l & ns & -> & _ & Hn).
    now apply misc_not_declared. }
  split; [reflexivity|].
  split; [simpl; intuition discriminate|].
  split; [now apply Hkeep|].
  intros tree'.
  destruct (blind_main Spec.is_misc (fun l ns H => misc_not_declared l ns H)
              {| World.disk := tree'; World.console := [] |}
              {| World.disk := tree; World.console := [] |}) as [Hr (Hc & Hd & Hf)].
  { split; [reflexivity|]. split; [reflexivity|].
    intros p Hp. cbn [World.disk]. subst tree'. rewrite files_with_file.
    destruct (World.path_eqb (World.NsFile lang "misc") p) eqn:E.
    - apply path_eqb_eq in E. subst p. discriminate.
    - reflexivity. }
  split; [exact Hr|]. split; [exact Hc|]. split.
  - rewrite Hkeep by reflexivity. subst tree'.
    now rewrite files_with_file, path_eqb_refl.
  - intros p Hp. destruct (Spec.is_misc p) eqn:E.
    + rewrite !Hkeep by assumption. subst tree'. rewrite files_with_file.
      destruct (World.path_eqb (World.NsFile lang "misc") p) eqn:E'.
      * apply path_eqb_eq in E'. congruence.
      * reflexivity.
    + now apply Hf.
Qed.

(** ** The prefix classifier *)

Section Classifier.

Lemma prefix_table_values :
  Forall (fun p => exists ns, snd p = JS.VString ns /\ In ns Config.NAMESPACES
                              /\ JS.truthy (snd p) = true /\ ns <> "misc")
         Split.PREFIX_TO_NAMESPACE.
Proof.
  unfold Split.PREFIX_TO_NAMESPACE, Split.entry.
  repeat (apply Forall_cons;
          [ eexists; split; [reflexivity|];
            split; [simpl; tauto | split; [reflexivity | discriminate]] | ]).
  apply Forall_nil.
Qed.

(** Away from the names every object inherits, the classifier returns one
    namespace name, and the catch-all exactly for prefixes the table lacks. *)
Lemma getNamespace_off_prototype (key : string) :
  JS.mem (JS.first_segment key) JS.prototype_names = false ->
  exists ns, Split.getNamespace key = JS.VString ns /\
             In ns (Config.NAMESPACES ++ ["misc"]) /\
             (ns = "misc" <->
              JS.hasOwn Split.PREFIX_TO_NAMESPACE (JS.first_segment key) = false).
Proof.
  intros Hp. unfold Split.getNamespace, JS.get, JS.hasOwn.
  destruct (JS.own Split.PREFIX_TO_NAMESPACE (JS.first_segment key)) as [v|] eqn:E.
  - apply own_Some_In in E.
    pose proof (proj1 (Forall_forall _ _) prefix_table_values _ E)
      as (ns & Hv & Hin & Ht & Hm).
    simpl in Hv, Ht. rewrite Ht. exists ns. split; [exact Hv|].
    split; [apply in_or_app; now left|]. split; [tauto | discriminate].
  - unfold JS.inherited. rewrite Hp.
    destruct (String.eqb_spec (JS.first_segment key) "__proto__") as [Heq|_].
    + rewrite Heq in Hp. discriminate.
    + exists "misc". split; [reflexivity|].
      split; [apply in_or_app; right; now left | tauto].
Qed.

(** C5, evaluated where the code departs from it: the first segment of
    [constructor.title] is not a key of the prefix table, yet the classifier
    returns neither [misc] nor any other namespace name but the function
    [Object.prototype.constructor], which the table object inherits. *)
Theorem getNamespace_inherited_prefix :
  JS.hasOwn Split.PREFIX_TO_NAMESPACE (JS.first_segment "constructor.title") = false /\
  Split.getNamespace "constructor.title" = JS.VFunction "constructor" /\
  (forall ns, Split.getNamespace "constructor.title" <> JS.VString ns).
Proof.
  split; [reflexivity|]. split; [reflexivity|]. intros ns. discriminate.
Qed.

End Classifier.

(** ** The splitter's run *)

Section SplitRun.
Import World.

(** C4, evaluated where the code departs from it: a flat table with the keys
    [common.ok] and [toString.label] is not partitioned at all.  The
    classifier hands back an inherited function for [toString.label], the
    assignment into the table of that name throws, and no namespace file is
    written, so the union of the partitions misses both keys. *)
Theorem splitLanguage_inherited_prefix :
  let r := Split.splitLanguage "en"
             {| disk := Spec.inherited_prefix_tree; console := [] |} in
  files Spec.inherited_prefix_tree (Legacy "en")
    = Some (Json [ Spec.str "common.ok" "OK"; Spec.str "toString.label" "x" ]) /\
  fst r = Throw TypeError /\
  (forall ns, files (disk (snd r)) (NsFile "en" ns) = None).
Proof.
  split; [reflexivity|]. split; [reflexivity|]. intros ns. reflexivity.
Qed.

Lemma preserves_saveTables (kept : path -> bool) (lang : string) (nd : Split.tables) :
  (forall ns, kept (NsFile lang ns) = false) ->
  forall st, Spec.preserves kept (Split.saveTables lang nd st).
Proof.
  intros Hk. induction nd as [|[ns nsData] nd IH]; intros st; simpl.
  - apply preserves_ret.
  - destruct (Nat.eqb (List.length (JS.keys nsData)) 0); [apply IH|].
    apply preserves_bind; [now apply preserves_writeJson | intros; apply IH].
Qed.

Lemma preserves_splitLanguage (kept : path -> bool) (lang : string) :
  (forall ns, kept (NsFile lang ns) = false) ->
  Spec.preserves kept (Split.splitLanguage lang).
Proof.
  intros Hk. unfold Split.splitLanguage. repeat frame_step.
  destruct (Split.classifyAll Split.emptyTables a).
  - now apply preserves_saveTables.
  - apply preserves_throw.
Qed.

Lemma preserves_splitAll (kept : path -> bool) (langs : list string) :
  (forall lang ns, In lang langs -> kept (NsFile lang ns) = false) ->
  forall all, Spec.preserves kept (Split.splitAll langs all).
Proof.
  induction langs as [|lang langs IH]; intros Hk all; simpl.
  - apply preserves_ret.
  - repeat frame_step.
    + apply preserves_splitLanguage. intros ns. apply Hk. now left.
    + apply preserves_for_each. intros. apply preserves_log.
    + apply IH. intros l ns Hl. apply Hk. now right.
Qed.

Lemma splitAll_app (before rest : list string) :
  forall all w,
    Split.splitAll (before ++ rest) all w =
    match Split.splitAll before all w with
    | (Ok all1, w1) => Split.splitAll rest all1 w1
    | (Throw e, w1) => (Throw e, w1)
    end.
Proof.
  induction before as [|lang before IH]; intros all w; simpl.
  - reflexivity.
  - cbv beta iota delta [bind log].
    destruct (Split.splitLanguage lang _) as [[st|e] w1]; [|reflexivity].
    destruct (for_each st _ w1) as [[[]|e] w2]; [|reflexivity].
    apply IH.
Qed.

Lemma splitAll_unreadable (lang : string) (rest : list string) :
  forall all w,
    Spec.unreadable (files (disk w) (Legacy lang)) ->
    exists e, fst (Split.splitAll (lang :: rest) all w) = Throw e /\
              forall p, files (disk (snd (Split.splitAll (lang :: rest) all w))) p
                        = files (disk w) p.
Proof.
  intros all w Hbad. cbn [Split.splitAll].
  cbv beta iota delta [bind log Split.splitLanguage readJson]. cbn [disk console].
  destruct Hbad as [-> | ->]; eexists; split; reflexivity.
Qed.

Lemma splitAll_abort (before after : list string) (lang : string) :
  NoDup (before ++ lang :: after) ->
  forall all w,
    Spec.unreadable (files (disk w) (Legacy lang)) ->
    (exists e, fst (Split.splitAll (before ++ lang :: after) all w) = Throw e) /\
    (forall lang' ns, In lang' (lang :: after) ->
       files (disk (snd (Split.splitAll (before ++ lang :: after) all w))) (NsFile lang' ns)
       = files (disk w) (NsFile lang' ns)).
Proof.
  intros Hnd all w Hbad. rewrite splitAll_app.
  pose proof (preserves_splitAll (fun p => negb (Spec.split_target before p)) before) as Hpre.
  assert (Hkept : forall p, Spec.split_target before p = false ->
            files (disk (snd (Split.splitAll before all w))) p = files (disk w) p).
  { intros p Hp. apply Hpre.
    - intros l ns Hl. simpl. apply negb_false_iff. now apply mem_In.
    - now rewrite Hp. }
  assert (Hlater : forall lang' ns, In lang' (lang :: after) ->
            Spec.split_target before (NsFile lang' ns) = false).
  { intros lang' ns Hl. simpl. apply mem_not_In. intros Hb.
    apply NoDup_app_remove_l in Hnd as Hnd'.
    clear - Hnd Hb Hl. induction before as [|b before IH]; [contradiction|].
    simpl in Hnd. inversion Hnd as [|? ? Hni Hnd']; subst.
    destruct Hb as [->|Hb]; [|auto].
    apply Hni. apply in_or_app. now right. }
  destruct (Split.splitAll before all w) as [[all1|e] w1] eqn:E; simpl in Hkept.
  - destruct (splitAll_unreadable lang after all1 w1) as (e & He & Hf).
    { now rewrite (Hkept (Legacy lang) eq_refl). }
    split; [now exists e|].
    intros lang' ns Hl. rewrite Hf. apply Hkept. now apply Hlater.
  - split; [now exists e|].
    intros lang' ns Hl. simpl. apply Hkept. now apply Hlater.
Qed.

Lemma LANGUAGES_NoDup : NoDup Config.LANGUAGES.
Proof.
  unfold Config.LANGUAGES.
  repeat (apply NoDup_cons; [simpl; intuition discriminate|]). apply NoDup_nil.
Qed.

Lemma split_run_abort (tree : fs) :
  forall e w, Split.splitAll Config.LANGUAGES [] {| disk := tree; console := [SplitStarted] |}
              = (Throw e, w) ->
              Split.run tree = (Throw e, w).
Proof.
  intros e w H. unfold Split.run, Split.main.
  unfold bind at 1. unfold log at 1. cbn [disk console app].
  unfold bind at 1. now rewrite H.
Qed.

End SplitRun.

(** ** The synchronizer's run on a tree that parses *)

Section SyncRun.
Import World.

Lemma path_eqb_neq (p q : path) : path_eqb p q = false <-> p <> q.
Proof.
  rewrite <- path_eqb_eq. destruct (path_eqb p q); split; congruence.
Qed.

(** One target locale: the file read, the lines printed, the file written. *)
Lemma syncLanguage_run (ns lang : string) (en : JS.object) (w : world) :
  files (disk w) (NsFile lang ns) <> Some Malformed ->
  exists w',
    Sync.syncLanguage ns en lang w = (Ok tt, w') /\
    console w' = console w ++ Spec.sync_events en (Spec.table_at (disk w) lang ns) lang /\
    (forall p, files (disk w') p =
               if path_eqb (NsFile lang ns) p
               then Some (Json (JS.json_roundtrip
                                  (Sync.reconcile en (Spec.table_at (disk w) lang ns))))
               else files (disk w) p).
Proof.
  intros Hok. unfold Spec.sync_events, Spec.table_at.
  destruct w as [[ds fl] con]. cbn [disk files dirs console] in *.
  unfold Sync.syncLanguage.
  cbv beta iota zeta delta [bind existsDir existsFile readJson when mkdir ret
                            disk files dirs console negb].
  destruct (ds lang);
    cbv beta iota zeta delta [bind existsDir existsFile readJson when mkdir ret
                              disk files dirs console negb];
    destruct (fl (NsFile lang ns)) as [[o|]|] eqn:Ef; try congruence;
    cbv beta iota; rewrite ?Ef; cbv beta iota;
    match goal with
    | |- context [Sync.missingKeys ?a ?b] =>
        destruct (Nat.ltb 0 (List.length (Sync.missingKeys a b)));
        destruct (Nat.ltb 0 (List.length (Sync.extraKeys a b)));
        destruct (Nat.eqb (List.length (Sync.missingKeys a b)) 0
                  && Nat.eqb (List.length (Sync.extraKeys a b)) 0)
    end;
    cbv beta iota delta [log writeJson disk files dirs console];
    eexists; (split; [reflexivity|]); cbn [disk files console dirs];
    (split; [rewrite <- ?app_assoc; cbn [app]; rewrite ?app_nil_r; reflexivity
            | reflexivity]).
Qed.

Lemma bind_ok {A B} (m : M A) (f : A -> M B) (w w' : world) (a : A) :
  m w = (Ok a, w') -> bind m f w = f a w'.
Proof. intros H. unfold bind. now rewrite H. Qed.

Lemma bind_throw {A B} (m : M A) (f : A -> M B) (w w' : world) (e : exn) :
  m w = (Throw e, w') -> bind m f w = (Throw e, w').
Proof. intros H. unfold bind. now rewrite H. Qed.

Lemma table_at_eq (t1 t2 : fs) (lang ns : string) :
  files t1 (NsFile lang ns) = files t2 (NsFile lang ns) ->
  Spec.table_at t1 lang ns = Spec.table_at t2 lang ns.
Proof. unfold Spec.table_at. now intros ->. Qed.

(** The loop over the target locales for one namespace. *)
Lemma syncLanguages_run (ns : string) (en : JS.object) (langs : list string) :
  NoDup langs ->
  forall w,
    (forall lang, In lang langs -> files (disk w) (NsFile lang ns) <> Some Malformed) ->
    exists w',
      for_each langs (Sync.syncLanguage ns en) w = (Ok tt, w') /\
      console w' = console w
                   ++ flat_map (fun lang => Spec.sync_events en (Spec.table_at (disk w) lang ns) lang)
                               langs /\
      (forall lang, In lang langs ->
         files (disk w') (NsFile lang ns)
         = Some (Json (JS.json_roundtrip
                         (Sync.reconcile en (Spec.table_at (disk w) lang ns))))) /\
      (forall p, (forall lang, In lang langs -> p <> NsFile lang ns) ->
         files (disk w') p = files (disk w) p).
Proof.
  induction langs as [|l langs IH]; intros Hnd w Hok.
  - exists w. simpl. rewrite app_nil_r. repeat split; tauto.
  - inversion Hnd as [|? ? Hni Hnd']; subst.
    destruct (syncLanguage_run ns l en w (Hok l (or_introl eq_refl)))
      as (w1 & Hrun & Hcon & Hfiles).
    assert (Hsame : forall lang, In lang langs ->
              files (disk w1) (NsFile lang ns) = files (disk w) (NsFile lang ns)).
    { intros lang Hl. rewrite Hfiles.
      destruct (path_eqb (NsFile l ns) (NsFile lang ns)) eqn:E; [|reflexivity].
      apply path_eqb_eq in E. injection E as ->. contradiction. }
    destruct (IH Hnd' w1) as (w' & Hrun' & Hcon' & Hin' & Hout').
    { intros lang Hl. rewrite (Hsame lang Hl). apply Hok. now right. }
    exists w'. split; [|split; [|split]].
    + cbn [for_each]. now rewrite (bind_ok _ _ _ _ _ Hrun).
    + rewrite Hcon', Hcon. cbn [flat_map]. rewrite <- app_assoc. do 2 f_equal.
      rewrite !flat_map_concat_map. f_equal. apply map_ext_in.
      intros lang Hl. now rewrite (table_at_eq _ _ _ _ (Hsame lang Hl)).
    + intros lang [<-|Hl].
      * rewrite Hout'.
        -- now rewrite Hfiles, path_eqb_refl.
        -- intros lang Hl E. injection E as ->. contradiction.
      * rewrite (Hin' lang Hl). now rewrite (table_at_eq _ _ _ _ (Hsame lang Hl)).
    + intros p Hp. rewrite Hout'.
      * rewrite Hfiles.
        destruct (path_eqb (NsFile l ns) p) eqn:E; [|reflexivity].
        apply path_eqb_eq in E. exfalso. apply (Hp l); [now left | now symmetry].
      * intros lang Hl. apply Hp. now right.
Qed.

Lemma TARGET_LANGUAGES_NoDup : NoDup Sync.TARGET_LANGUAGES.
Proof.
  apply NoDup_filter. unfold Config.LANGUAGES.
  repeat (apply NoDup_cons; [simpl; intuition discriminate|]). apply NoDup_nil.
Qed.

Lemma NAMESPACES_NoDup : NoDup Config.NAMESPACES.
Proof.
  unfold Config.NAMESPACES.
  repeat (apply NoDup_cons; [simpl; intuition discriminate|]). apply NoDup_nil.
Qed.

Lemma mem_singleton (k k' : string) : JS.mem k [k'] = true <-> k = k'.
Proof. rewrite mem_In. simpl. intuition. Qed.

(** One namespace: skipped without a base file, synchronized otherwise. *)
Lemma syncNamespace_run (ns : string) (w : world) :
  files (disk w) (NsFile "en" ns) <> Some Malformed ->
  (forall lang, In lang Sync.TARGET_LANGUAGES ->
     files (disk w) (NsFile lang ns) <> Some Malformed) ->
  exists w',
    Sync.syncNamespace ns w = (Ok tt, w') /\
    console w' = console w ++ Spec.namespace_events (disk w) ns /\
    (forall p, files (disk w') p = Spec.synced Sync.TARGET_LANGUAGES [ns] (disk w) p).
Proof.
  intros Hen Hlangs. unfold Sync.syncNamespace, Spec.namespace_events.
  cbv beta iota zeta delta [bind existsFile readJson].
  destruct (files (disk w) (NsFile "en" ns)) as [[en|]|] eqn:E; try congruence;
    cbv beta iota zeta delta [negb bind log]; rewrite ?E; cbv beta iota.
  - set (w0 := {| disk := disk w;
                  console := console w
                             ++ [NamespaceHeader ns (List.length (JS.set_of (JS.keys en)))] |}).
    destruct (syncLanguages_run ns en _ TARGET_LANGUAGES_NoDup w0 Hlangs)
      as (w' & Hrun & Hcon & Hin & Hout).
    exists w'. split; [|split].
    + exact Hrun.
    + rewrite Hcon. unfold w0. cbn [console disk]. now rewrite <- app_assoc.
    + intros p. unfold Spec.synced. destruct p as [l|lang ns']; [now apply Hout|].
      destruct (JS.mem lang Sync.TARGET_LANGUAGES && JS.mem ns' [ns]) eqn:Em.
      * apply andb_true_iff in Em. destruct Em as [Hl Hn].
        apply mem_In in Hl. apply mem_singleton in Hn. subst ns'.
        rewrite E. now apply Hin.
      * apply Hout. intros l Hl Heq. injection Heq as -> ->.
        apply andb_false_iff in Em. destruct Em as [Em|Em].
        -- apply mem_not_In in Em. contradiction.
        -- apply mem_not_In in Em. apply Em. now left.
  - eexists. split; [reflexivity|]. split; [reflexivity|].
    intros p. unfold Spec.synced. cbn [disk files].
    destruct p as [l|lang ns']; [reflexivity|].
    destruct (JS.mem lang Sync.TARGET_LANGUAGES && JS.mem ns' [ns]) eqn:Em; [|reflexivity].
    apply andb_true_iff in Em. destruct Em as [_ Hn].
    apply mem_singleton in Hn. subst ns'. now rewrite E.
Qed.

Lemma synced_parses (langs nss : list string) (tree : fs) :
  Spec.parses tree -> forall p, Spec.synced langs nss tree p <> Some Malformed.
Proof.
  intros Hp p. unfold Spec.synced. destruct p as [l|lang ns]; [apply Hp|].
  destruct (JS.mem lang langs && JS.mem ns nss); [|apply Hp].
  destruct (files tree (NsFile "en" ns)) as [[en|]|] eqn:E; try apply Hp.
  discriminate.
Qed.

Lemma synced_other_namespace (tree : fs) (lang ns ns' : string) :
  ns' <> ns ->
  Spec.synced Sync.TARGET_LANGUAGES [ns] tree (NsFile lang ns') = files tree (NsFile lang ns').
Proof.
  intros Hne. unfold Spec.synced.
  replace (JS.mem ns' [ns]) with false; [now rewrite andb_false_r|].
  symmetry. apply mem_not_In. simpl. intuition.
Qed.

Lemma synced_base (tree : fs) (nss : list string) (ns : string) :
  Spec.synced Sync.TARGET_LANGUAGES nss tree (NsFile "en" ns) = files tree (NsFile "en" ns).
Proof. reflexivity. Qed.

Lemma synced_step (tree t1 : fs) (ns : string) (nss : list string) :
  ~ In ns nss ->
  (forall p, files t1 p = Spec.synced Sync.TARGET_LANGUAGES [ns] tree p) ->
  forall p, Spec.synced Sync.TARGET_LANGUAGES nss t1 p
            = Spec.synced Sync.TARGET_LANGUAGES (ns :: nss) tree p.
Proof.
  intros Hni H1 p. destruct p as [l|lang ns'].
  - unfold Spec.synced. now rewrite H1.
  - unfold Spec.synced at 1 2.
    destruct (JS.mem ns' nss) eqn:En.
    + assert (Hne : ns' <> ns) by (apply mem_In in En; congruence).
      replace (JS.mem ns' (ns :: nss)) with true
        by (symmetry; apply mem_In; right; now apply mem_In).
      destruct (JS.mem lang Sync.TARGET_LANGUAGES) eqn:El; cbn [andb].
      * rewrite (H1 (NsFile "en" ns')), synced_base.
        rewrite (table_at_eq t1 tree lang ns')
          by (rewrite H1; now apply synced_other_namespace).
        rewrite (H1 (NsFile lang ns')), synced_other_namespace by assumption.
        reflexivity.
      * rewrite H1. unfold Spec.synced. now rewrite El.
    + rewrite andb_false_r, H1. unfold Spec.synced.
      replace (JS.mem ns' (ns :: nss)) with (JS.mem ns' [ns]); [reflexivity|].
      unfold JS.mem in *. simpl. now rewrite En.
Qed.

Lemma namespace_events_eq (t1 t2 : fs) (ns : string) :
  (forall lang, files t1 (NsFile lang ns) = files t2 (NsFile lang ns)) ->
  Spec.namespace_events t1 ns = Spec.namespace_events t2 ns.
Proof.
  intros H. unfold Spec.namespace_events. rewrite (H "en").
  destruct (files t2 (NsFile "en" ns)) as [[en|]|]; try reflexivity.
  f_equal. rewrite !flat_map_concat_map. f_equal. apply map_ext.
  intros lang. now rewrite (table_at_eq t1 t2 lang ns (H lang)).
Qed.

(** The loop over the namespaces: on a tree that parses it runs to its end,
    and the tree it leaves is the synchronized one. *)
Lemma syncNamespaces_run (nss : list string) :
  NoDup nss ->
  forall w, Spec.parses (disk w) ->
    exists w',
      for_each nss Sync.syncNamespace w = (Ok tt, w') /\
      console w' = console w ++ flat_map (Spec.namespace_events (disk w)) nss /\
      (forall p, files (disk w') p = Spec.synced Sync.TARGET_LANGUAGES nss (disk w) p).
Proof.
  induction nss as [|ns nss IH]; intros Hnd w Hp.
  - exists w. simpl. rewrite app_nil_r. repeat split; try reflexivity.
    intros p. unfold Spec.synced. destruct p; [reflexivity|].
    now rewrite andb_false_r.
  - inversion Hnd as [|? ? Hni Hnd']; subst.
    destruct (syncNamespace_run ns w (Hp _) (fun lang _ => Hp _))
      as (w1 & Hrun & Hcon & Hfiles).
    destruct (IH Hnd' w1) as (w' & Hrun' & Hcon' & Hfiles').
    { intros p. rewrite Hfiles. now apply synced_parses. }
    exists w'. split; [|split].
    + cbn [for_each]. now rewrite (bind_ok _ _ _ _ _ Hrun).
    + rewrite Hcon', Hcon. cbn [flat_map]. rewrite <- app_assoc. do 2 f_equal.
      rewrite !flat_map_concat_map. f_equal. apply map_ext_in.
      intros ns' Hn. apply namespace_events_eq. intros lang.
      rewrite Hfiles. apply synced_other_namespace. congruence.
    + intros p. rewrite Hfiles'. now apply synced_step.
Qed.

Lemma sumNamespaces_run (lang : string) (nss : list string) :
  forall total w, Spec.parses (disk w) ->
    Sync.sumNamespaces lang total nss w
    = (Ok (fold_left (fun t ns => t + Spec.keyCount (disk w) lang ns) nss total), w).
Proof.
  induction nss as [|ns nss IH]; intros total w Hp; cbn [Sync.sumNamespaces fold_left].
  - reflexivity.
  - unfold Sync.countNamespace, Spec.keyCount at 2.
    cbv beta iota zeta delta [bind existsFile readJson ret].
    pose proof (Hp (NsFile lang ns)) as Hns.
    destruct (files (disk w) (NsFile lang ns)) as [[o|]|] eqn:E; try congruence;
      cbv beta iota; rewrite ?E; cbv beta iota.
    + now apply IH.
    + rewrite Nat.add_0_r. now apply IH.
Qed.

Lemma totals_run (langs : list string) :
  forall w, Spec.parses (disk w) ->
    for_each langs (fun lang =>
                      total <- Sync.sumNamespaces lang 0 Config.NAMESPACES ;;
                      log (Total lang total)) w
    = (Ok tt, {| disk := disk w;
                 console := console w
                            ++ map (fun lang => Total lang (Spec.totalKeys (disk w) lang)) langs |}).
Proof.
  induction langs as [|lang langs IH]; intros w Hp; cbn [for_each map].
  - rewrite app_nil_r. now destruct w.
  - erewrite bind_ok.
    2:{ erewrite bind_ok by (now apply sumNamespaces_run). reflexivity. }
    rewrite IH by exact Hp. cbn [disk console]. now rewrite <- app_assoc.
Qed.

Lemma report_run (w : world) :
  Spec.parses (disk w) ->
  Sync.report w = (Ok tt, {| disk := disk w;
                             console := console w ++ Spec.report_events (disk w) |}).
Proof.
  intros Hp. unfold Sync.report, Spec.report_events.
  erewrite bind_ok by reflexivity.
  rewrite totals_run by exact Hp. cbn [disk console]. now rewrite <- app_assoc.
Qed.

(** A run on a tree that parses: it runs to its end, leaves the synchronized
    tree, and prints the per-namespace lines followed by the totals. *)
Lemma sync_run_spec (tree : fs) :
  Spec.parses tree ->
  exists w,
    Sync.run tree = (Ok tt, w) /\
    (forall p, files (disk w) p
               = Spec.synced Sync.TARGET_LANGUAGES Config.NAMESPACES tree p) /\
    console w = Started :: flat_map (Spec.namespace_events tree) Config.NAMESPACES
                ++ Finished :: Spec.report_events (disk w).
Proof.
  intros Hp. unfold Sync.run, Sync.main.
  set (w0 := {| disk := tree; console := [Started] |}).
  destruct (syncNamespaces_run Config.NAMESPACES NAMESPACES_NoDup w0 Hp)
    as (w1 & Hrun & Hcon & Hfiles).
  assert (Hp1 : Spec.parses (disk w1)).
  { intros p. rewrite Hfiles. now apply synced_parses. }
  eexists. split; [|split].
  - erewrite bind_ok by reflexivity. fold w0.
    erewrite bind_ok by exact Hrun.
    erewrite bind_ok by reflexivity.
    apply report_run. exact Hp1.
  - intros p. cbn [disk]. apply Hfiles.
  - cbn [disk console]. rewrite Hcon. unfold w0. cbn [console disk].
    rewrite <- app_assoc. reflexivity.
Qed.

Lemma parses_tree_of (l : list (path * content)) :
  Forall (fun e => snd e <> Malformed) l -> Spec.parses (Spec.tree_of l).
Proof.
  intros H p. unfold Spec.tree_of. cbn [files].
  destruct (find (fun e => path_eqb p (fst e)) l) as [e|] eqn:E; [|discriminate].
  apply find_some in E. destruct E as [E _].
  pose proof (proj1 (Forall_forall _ _) H e E). congruence.
Qed.

Lemma sync_events_progress (en langData : JS.object) (lang : string) :
  Forall Spec.progress_line (Spec.sync_events en langData lang).
Proof.
  unfold Spec.sync_events.
  repeat (apply Forall_app; split);
    match goal with |- Forall _ (if ?b then _ else _) => destruct b end;
    repeat constructor.
Qed.

Lemma namespace_events_progress (tree : fs) (ns : string) :
  Forall Spec.progress_line (Spec.namespace_events tree ns).
Proof.
  unfold Spec.namespace_events.
  destruct (files tree (NsFile "en" ns)) as [[en|]|]; try (repeat constructor).
  apply Forall_flat_map. apply Forall_forall. intros lang _.
  apply sync_events_progress.
Qed.

(** C8, as the code has it: on a tree that parses the run completes, and
    what it prints after the completion line is the header of the report and
    one total per locale ([en], then the target locales), each the number of
    keys summed over the declared namespaces in the files as persisted after
    the run.  Everything printed before is a progress line; no line compares
    a target's count with the base count of a namespace. *)
Theorem sync_report_totals :
  forall tree : fs,
    Spec.parses tree ->
    exists w progress,
      Sync.run tree = (Ok tt, w) /\
      Forall Spec.progress_line progress /\
      console w = progress ++ Finished :: TotalsHeader
                  :: map (fun lang => Total lang (Spec.totalKeys (disk w) lang))
                         ("en" :: Sync.TARGET_LANGUAGES).
Proof.
  intros tree Hp.
  destruct (sync_run_spec tree Hp) as (w & Hrun & _ & Hcon).
  exists w, (Started :: flat_map (Spec.namespace_events tree) Config.NAMESPACES).
  split; [exact Hrun|]. split.
  - constructor; [exact I|].
    apply Forall_flat_map. apply Forall_forall. intros ns _.
    apply namespace_events_progress.
  - exact Hcon.
Qed.

Lemma sync_report_totals_witness :
  exists w progress,
    Sync.run Spec.orphan_common_tree = (Ok tt, w) /\
    Forall Spec.progress_line progress /\
    console w = progress ++ Finished :: TotalsHeader
                :: map (fun lang => Total lang (Spec.totalKeys (disk w) lang))
                       ("en" :: Sync.TARGET_LANGUAGES).
Proof.
  apply (sync_report_totals Spec.orphan_common_tree).
  apply parses_tree_of. repeat constructor. discriminate.
Defined.

(** C8 fails as stated: in the first tree [ko] persists one [common] key
    against none for [en], in the second tree both persist none, and the two
    runs print the very same lines; the mismatch of the first tree is not
    reported. *)
Lemma sync_report_hides_mismatch :
  let a := Sync.run Spec.orphan_common_tree in
  let b := Sync.run Spec.orphan_error_tree in
  fst a = Ok tt /\ fst b = Ok tt /\
  Spec.keyCount (disk (snd a)) "ko" "common" = 1 /\
  Spec.keyCount (disk (snd a)) "en" "common" = 0 /\
  Spec.keyCount (disk (snd b)) "ko" "common" = 0 /\
  Spec.keyCount (disk (snd b)) "en" "common" = 0 /\
  console (snd a) = console (snd b) /\
  console (snd a) =
    Started :: map WarnNoBase Config.NAMESPACES
    ++ [ Finished; TotalsHeader; Total "en" 0; Total "ko" 1; Total "ja" 0;
         Total "zh-CN" 0; Total "zh-TW" 0 ].
Proof. vm_compute. repeat split. Qed.

End SyncRun.

(** ** Convergence and order of the synchronized tables *)

Section Convergence.
Import World.

Lemma keys_converged (en lang : JS.object) :
  JS.keys (Spec.converged en lang) = JS.keys en.
Proof.
  unfold Spec.converged, JS.keys. rewrite map_map. cbn [fst]. apply map_id.
Qed.

Lemma own_tabulate (g : string -> JS.value) (ks : list string) (k : string) :
  JS.own (map (fun k' => (k', g k')) ks) k
  = if JS.mem k ks then Some (g k) else None.
Proof.
  induction ks as [|k0 ks IH]; [reflexivity|].
  cbn [map JS.own]. unfold JS.mem in *. cbn [existsb].
  destruct (String.eqb_spec k k0) as [->|Hne]; [reflexivity | exact IH].
Qed.

Lemma own_converged (en lang : JS.object) (k : string) :
  JS.own (Spec.converged en lang) k =
  if JS.mem k (JS.keys en)
  then Some (match JS.own lang k with Some v => v | None => JS.get en k end)
  else None.
Proof. unfold Spec.converged. apply own_tabulate. Qed.

Lemma roundtrip_strings (o : JS.object) :
  (forall k v, In (k, v) o -> Spec.is_string v) -> JS.json_roundtrip o = o.
Proof.
  intros H. unfold JS.json_roundtrip. apply forallb_filter_id.
  apply forallb_forall. intros [k v] Hin. destruct (H k v Hin) as [s ->]. reflexivity.
Qed.

Lemma converged_strings (en lang : JS.object) :
  Spec.table en -> Spec.table lang ->
  forall k v, In (k, v) (Spec.converged en lang) -> Spec.is_string v.
Proof.
  intros Hen Hlang k v Hin. unfold Spec.converged in Hin.
  apply in_map_iff in Hin. destruct Hin as (k' & Heq & Hk'). injection Heq as -> <-.
  destruct (JS.own lang k) as [v'|] eqn:E.
  - exact (Spec.table_strings lang Hlang k v' (own_Some_In _ _ _ E)).
  - destruct (table_get en k Hen Hk') as [s Hs]. exists s.
    unfold JS.get. now rewrite Hs.
Qed.

(** X1. Away from the key [__proto__] the synchronizer converges: the target
    gets exactly the base keys, in the base order; a key it lacked carries
    the base value, a key it had keeps its value, any other key is gone. *)
Lemma reconcile_converges (en lang : JS.object) :
  Spec.table en -> Spec.table lang -> ~ In "__proto__" (JS.keys en) ->
  JS.keys (Sync.reconcile en lang) = JS.keys en /\
  (forall k, In k (JS.keys en) -> ~ In k (JS.keys lang) ->
     JS.own (Sync.reconcile en lang) k = JS.own en k) /\
  (forall k, In k (JS.keys en) -> In k (JS.keys lang) ->
     JS.own (Sync.reconcile en lang) k = JS.own lang k) /\
  (forall k, ~ In k (JS.keys en) -> JS.own (Sync.reconcile en lang) k = None).
Proof.
  intros Hen Hlang Hp. rewrite (reconcile_converged en lang Hen Hlang Hp).
  split; [apply keys_converged|]. split; [|split]; intros k Hk.
  - intros Hl. rewrite own_converged.
    apply mem_In in Hk. rewrite Hk. apply own_None in Hl. rewrite Hl.
    apply mem_In in Hk. destruct (table_get en k Hen Hk) as [s Hs].
    unfold JS.get. now rewrite Hs.
  - intros Hl. rewrite own_converged.
    apply mem_In in Hk. rewrite Hk.
    destruct (table_get lang k Hlang Hl) as [s Hs]. now rewrite Hs.
  - rewrite own_converged. apply mem_not_In in Hk. now rewrite Hk.
Qed.

(** The example of the convergence claim. *)
Example reconcile_abc :
  Sync.reconcile Spec.abc_base Spec.ad_target
  = [ Spec.str "a" "old"; Spec.str "b" "B"; Spec.str "c" "C" ].
Proof. reflexivity. Qed.

(** C2, evaluated where the code departs from it: the base table has the
    keys [__proto__] and [common.ok], the target table is empty.  Both keys
    count as missing, but the assignment [langData["__proto__"] = ...]
    reaches the inherited setter and creates nothing, and so does the one
    into the rebuilt table: after the pass the target has the key
    [common.ok] only, not the base key set; the file written for [ko] by a
    run shows the same. *)
Theorem reconcile_loses_proto_key :
  Sync.missingKeys (JS.keys Spec.proto_base) (JS.keys JS.empty)
    = [ "__proto__"; "common.ok" ] /\
  Sync.reconcile Spec.proto_base JS.empty = [ Spec.str "common.ok" "OK" ] /\
  In "__proto__" (JS.keys Spec.proto_base) /\
  ~ In "__proto__" (JS.keys (Sync.reconcile Spec.proto_base JS.empty)) /\
  files (disk (snd (Sync.run Spec.proto_tree))) (NsFile "ko" "common")
    = Some (Json [ Spec.str "common.ok" "OK" ]).
Proof.
  split; [reflexivity|]. split; [reflexivity|]. split; [simpl; tauto|].
  split; [|reflexivity]. simpl. intuition discriminate.
Qed.

(** C3, evaluated where the code departs from it: every locale has the keys
    [common.ok], [__proto__], [common.no], the targets in another order.
    The run changes nothing it would report, yet the file it persists for
    each target has the keys [common.ok], [common.no]: not the base table's
    key sequence, because the rebuild cannot create [__proto__]. *)
Theorem sync_order_loses_proto_key :
  let w := snd (Sync.run Spec.proto_shuffled_tree) in
  files Spec.proto_shuffled_tree (NsFile "en" "common") = Some (Json Spec.proto_shuffled_base) /\
  files Spec.proto_shuffled_tree (NsFile "ko" "common") = Some (Json Spec.proto_shuffled_target) /\
  fst (Sync.run Spec.proto_shuffled_tree) = Ok tt /\
  files (disk w) (NsFile "ko" "common")
    = Some (Json [ Spec.str "common.ok" "Gut"; Spec.str "common.no" "Nein" ]) /\
  JS.keys Spec.proto_shuffled_base = [ "common.ok"; "__proto__"; "common.no" ] /\
  Spec.keyCount (disk w) "ko" "common" = 2 /\
  Spec.keyCount (disk w) "en" "common" = 3.
Proof. vm_compute. repeat split. Qed.

Lemma distinctb_NoDup (l : list string) : Spec.distinctb l = true -> NoDup l.
Proof.
  induction l as [|k l IH]; cbn [Spec.distinctb]; intros H; constructor.
  - apply andb_true_iff in H. destruct H as [H _].
    apply negb_true_iff in H. now apply mem_not_In.
  - apply IH. apply andb_true_iff in H. tauto.
Qed.

Lemma key_orderb_sound (l : list string) : Spec.key_orderb l = true -> Spec.key_order l.
Proof.
  induction l as [|k l IH]; cbn [Spec.key_orderb Spec.key_order]; intros H; [exact I|].
  apply andb_true_iff in H. destruct H as [H1 H2]. split; [|auto].
  intros k' Hk'. rewrite forallb_forall in H1.
  now apply negb_true_iff, H1.
Qed.

Lemma is_table_sound (o : JS.object) : Spec.is_table o = true -> Spec.table o.
Proof.
  unfold Spec.is_table. rewrite !andb_true_iff. intros [[H1 H2] H3]. constructor.
  - now apply distinctb_NoDup.
  - now apply key_orderb_sound.
  - intros k v Hin. rewrite forallb_forall in H3. specialize (H3 _ Hin).
    cbn [snd] in H3. destruct v; try discriminate. now eexists.
Qed.

Lemma filter_none {A} (f : A -> bool) (l : list A) :
  (forall x, In x l -> f x = false) -> filter f l = [].
Proof.
  induction l as [|x l IH]; intros H; cbn [filter]; [reflexivity|].
  rewrite (H x (or_introl eq_refl)). apply IH. intros y Hy. apply H. now right.
Qed.

Lemma sync_events_same_keys (en o : JS.object) (lang : string) :
  Spec.table en -> Spec.table o -> JS.keys o = JS.keys en ->
  Spec.sync_events en o lang = [InSync lang].
Proof.
  intros Hen Ho Hk. unfold Spec.sync_events.
  rewrite (set_of_NoDup _ (Spec.table_nodup en Hen)).
  rewrite (set_of_NoDup _ (Spec.table_nodup o Ho)), Hk.
  unfold Sync.missingKeys, Sync.extraKeys.
  rewrite filter_none; [reflexivity|].
  intros k Hin. apply negb_false_iff. now apply mem_In.
Qed.

Lemma converged_same_keys (en o : JS.object) :
  Spec.table o -> JS.keys o = JS.keys en -> Spec.converged en o = o.
Proof.
  intros Ho Hk. unfold Spec.converged. rewrite <- Hk. unfold JS.keys.
  rewrite map_map. rewrite <- (map_id o) at 2. apply map_ext_in.
  intros [k v] Hin. cbn [fst].
  now rewrite (In_own o k v (Spec.table_nodup o Ho) Hin).
Qed.

(** X8. On a tree that parses, every target file with a base table free of
    [__proto__] ends up as the converged table: the base keys in the base
    order. *)
Lemma sync_run_converged (tree : fs) :
  Spec.parses tree ->
  exists w,
    Sync.run tree = (Ok tt, w) /\
    forall lang ns en,
      In lang Sync.TARGET_LANGUAGES -> In ns Config.NAMESPACES ->
      files tree (NsFile "en" ns) = Some (Json en) ->
      Spec.table en -> ~ In "__proto__" (JS.keys en) ->
      Spec.table (Spec.table_at tree lang ns) ->
      files (disk w) (NsFile lang ns)
        = Some (Json (Spec.converged en (Spec.table_at tree lang ns))) /\
      JS.keys (Spec.converged en (Spec.table_at tree lang ns)) = JS.keys en.
Proof.
  intros Hp. destruct (sync_run_spec tree Hp) as (w & Hrun & Hfiles & _).
  exists w. split; [exact Hrun|].
  intros lang ns en Hl Hn Hbase Hen Hproto Hlang.
  split; [|apply keys_converged].
  rewrite Hfiles. unfold Spec.synced.
  apply mem_In in Hl, Hn. rewrite Hl, Hn, Hbase. cbn [andb].
  rewrite (reconcile_converged en _ Hen Hlang Hproto).
  rewrite roundtrip_strings; [reflexivity|].
  now apply converged_strings.
Qed.

End Convergence.

(** ** Idempotence *)

Section Idempotence.
Import World.

Lemma namespace_events_aligned (tree : fs) (ns : string) :
  Spec.aligned tree -> In ns Config.NAMESPACES ->
  Forall (fun e => ~ Spec.edit_line e) (Spec.namespace_events tree ns).
Proof.
  intros Ha Hn. unfold Spec.namespace_events.
  destruct (files tree (NsFile "en" ns)) as [[en|]|] eqn:E;
    try (constructor; [intros [] | constructor]).
  destruct (Ha ns en Hn E) as (Hen & _ & Hlangs).
  constructor; [intros []|].
  apply Forall_flat_map. apply Forall_forall. intros lang Hl.
  destruct (Hlangs lang Hl) as (o & Ho & Hto & Hk).
  unfold Spec.table_at. rewrite Ho.
  rewrite (sync_events_same_keys en o lang Hen Hto Hk).
  constructor; [intros [] | constructor].
Qed.

Lemma synced_aligned (tree : fs) :
  Spec.aligned tree ->
  forall p, Spec.synced Sync.TARGET_LANGUAGES Config.NAMESPACES tree p = files tree p.
Proof.
  intros Ha p. unfold Spec.synced. destruct p as [l|lang ns]; [reflexivity|].
  destruct (JS.mem lang Sync.TARGET_LANGUAGES && JS.mem ns Config.NAMESPACES) eqn:Em;
    [|reflexivity].
  apply andb_true_iff in Em. destruct Em as [Hl Hn]. apply mem_In in Hl, Hn.
  destruct (files tree (NsFile "en" ns)) as [[en|]|] eqn:E; try reflexivity.
  destruct (Ha ns en Hn E) as (Hen & Hproto & Hlangs).
  destruct (Hlangs lang Hl) as (o & Ho & Hto & Hk).
  unfold Spec.table_at. rewrite Ho.
  rewrite (reconcile_converged en o Hen Hto Hproto).
  rewrite (converged_same_keys en o Hto Hk).
  rewrite roundtrip_strings; [reflexivity|].
  exact (Spec.table_strings o Hto).
Qed.

Lemma In_set_of (l : list string) (k : string) : In k (JS.set_of l) <-> In k l.
Proof.
  induction l as [|x l IH]; cbn [JS.set_of]; [tauto|].
  cbn [In]. rewrite filter_In, IH, negb_true_iff, String.eqb_neq.
  destruct (string_dec x k); intuition.
Qed.

Lemma sync_events_consistent (en o : JS.object) (lang : string) :
  (forall k, In k (JS.keys o) <-> In k (JS.keys en)) ->
  Spec.sync_events en o lang = [InSync lang].
Proof.
  intros Hk. unfold Spec.sync_events, Sync.missingKeys, Sync.extraKeys. cbv zeta.
  rewrite !filter_none; [reflexivity| |];
    intros k Hin; apply negb_false_iff; apply mem_In;
    apply (proj2 (In_set_of _ _)); apply (proj1 (In_set_of _ _)) in Hin;
    now apply Hk.
Qed.

Lemma namespace_events_consistent (tree : fs) (ns : string) :
  Spec.consistent tree -> In ns Config.NAMESPACES ->
  Forall (fun e => ~ Spec.edit_line e) (Spec.namespace_events tree ns).
Proof.
  intros Hc Hn. unfold Spec.namespace_events.
  destruct (files tree (NsFile "en" ns)) as [[en|]|] eqn:E;
    try (constructor; [intros [] | constructor]).
  constructor; [intros []|].
  apply Forall_flat_map. apply Forall_forall. intros lang Hl.
  rewrite (sync_events_consistent en (Spec.table_at tree lang ns) lang).
  - constructor; [intros [] | constructor].
  - intros k. rewrite (Hc lang ns Hl Hn k). unfold Spec.table_at. now rewrite E.
Qed.

(** C1, as the code has it: on a tree that parses and in which every target
    locale has the base locale's key set in each declared namespace, a run
    completes and reports no insertion and no deletion.  It leaves every
    file with the content it had (same keys, same order, same values) when,
    in addition, every target table has its keys in the base table's order
    (the tables being tables of strings, and no base table having the key
    [__proto__]). *)
Theorem sync_idempotent_on_consistent :
  forall tree : fs,
    Spec.parses tree -> Spec.consistent tree ->
    exists w,
      Sync.run tree = (Ok tt, w) /\
      Forall (fun e => ~ Spec.edit_line e) (console w) /\
      (Spec.aligned tree -> forall p, files (disk w) p = files tree p).
Proof.
  intros tree Hp Hc.
  destruct (sync_run_spec tree Hp) as (w & Hrun & Hfiles & Hcon).
  exists w. split; [exact Hrun|]. split.
  - rewrite Hcon. constructor; [intros []|].
    apply Forall_app. split.
    + apply Forall_flat_map. apply Forall_forall. intros ns Hn.
      now apply namespace_events_consistent.
    + constructor; [intros []|]. unfold Spec.report_events.
      constructor; [intros []|].
      apply Forall_forall. intros e He. apply in_map_iff in He.
      destruct He as (lang & <- & _). intros [].
  - intros Ha p. rewrite Hfiles. now apply synced_aligned.
Qed.

Lemma settled_tree_parses : Spec.parses Spec.settled_tree.
Proof.
  apply parses_tree_of. unfold Sync.TARGET_LANGUAGES. cbn [filter map].
  repeat (apply Forall_cons; [discriminate|]). apply Forall_nil.
Qed.

Lemma settled_tree_aligned : Spec.aligned Spec.settled_tree.
Proof.
  intros ns en Hn Hbase. cbn in Hn.
  repeat (destruct Hn as [<-|Hn]; [try discriminate Hbase|]); [|contradiction].
  injection Hbase as <-.
  split; [now apply is_table_sound|]. split; [cbn; intuition discriminate|].
  intros lang Hl. cbn in Hl.
  repeat (destruct Hl as [<-|Hl];
          [exists Spec.settled_target;
           split; [reflexivity | split; [now apply is_table_sound | reflexivity]]|]).
  contradiction.
Qed.

Lemma settled_tree_consistent : Spec.consistent Spec.settled_tree.
Proof.
  intros lang ns Hl Hn k. cbn in Hl, Hn.
  repeat (destruct Hl as [<-|Hl]; [|]); try contradiction;
    repeat (destruct Hn as [<-|Hn]; [cbn; tauto|]); contradiction.
Qed.

Lemma reordered_tree_consistent : Spec.consistent Spec.reordered_tree.
Proof.
  intros lang ns Hl Hn k. cbn in Hl, Hn.
  repeat (destruct Hl as [<-|Hl]; [|]); try contradiction;
    repeat (destruct Hn as [<-|Hn]; [cbn; tauto|]); contradiction.
Qed.

Lemma reordered_tree_parses : Spec.parses Spec.reordered_tree.
Proof.
  apply parses_tree_of. unfold Sync.TARGET_LANGUAGES. cbn [filter map].
  repeat (apply Forall_cons; [discriminate|]). apply Forall_nil.
Qed.

Lemma sync_idempotent_on_consistent_witness :
  (exists w,
     Sync.run Spec.settled_tree = (Ok tt, w) /\
     Forall (fun e => ~ Spec.edit_line e) (console w) /\
     forall p, files (disk w) p = files Spec.settled_tree p) /\
  (exists w,
     Sync.run Spec.reordered_tree = (Ok tt, w) /\
     Forall (fun e => ~ Spec.edit_line e) (console w)).
Proof.
  split.
  - destruct (sync_idempotent_on_consistent Spec.settled_tree
                settled_tree_parses settled_tree_consistent) as (w & Hrun & Hcon & Hsame).
    exists w. split; [exact Hrun|]. split; [exact Hcon|].
    exact (Hsame settled_tree_aligned).
  - destruct (sync_idempotent_on_consistent Spec.reordered_tree
                reordered_tree_parses reordered_tree_consistent) as (w & Hrun & Hcon & _).
    exists w. split; [exact Hrun | exact Hcon].
Defined.

(** C1 fails as stated: in this tree every target locale has exactly the
    base locale's keys in every declared namespace; the run inserts and
    deletes nothing, yet it rewrites the target files in the base order, so
    the file of [ko] no longer has the content it had. *)
Lemma sync_reorders_consistent_tree :
  let w := snd (Sync.run Spec.reordered_tree) in
  Spec.consistent Spec.reordered_tree /\
  fst (Sync.run Spec.reordered_tree) = Ok tt /\
  Forall (fun e => ~ Spec.edit_line e) (console w) /\
  files Spec.reordered_tree (NsFile "ko" "common")
    = Some (Json [ Spec.str "common.no" "Nein"; Spec.str "common.ok" "Gut" ]) /\
  files (disk w) (NsFile "ko" "common")
    = Some (Json [ Spec.str "common.ok" "Gut"; Spec.str "common.no" "Nein" ]) /\
  files (disk w) (NsFile "ko" "common") <> files Spec.reordered_tree (NsFile "ko" "common").
Proof.
  split.
  { intros lang ns Hl Hn k. cbn in Hl, Hn.
    repeat (destruct Hl as [<-|Hl]; [|]); try contradiction;
      repeat (destruct Hn as [<-|Hn]; [cbn; tauto|]); contradiction. }
  split; [reflexivity|]. split.
  { vm_compute. repeat (apply Forall_cons; [intros []|]). apply Forall_nil. }
  split; [reflexivity|]. split; [reflexivity|].
  vm_compute. discriminate.
Qed.

Lemma converged_table (en lang : JS.object) :
  Spec.table en -> Spec.table lang -> Spec.table (Spec.converged en lang).
Proof.
  intros Hen Hlang. constructor.
  - rewrite keys_converged. exact (Spec.table_nodup en Hen).
  - rewrite keys_converged. exact (Spec.table_order en Hen).
  - now apply converged_strings.
Qed.

(** A run on well-formed tables leaves an aligned tree. *)
Lemma sync_run_aligned (tree : fs) :
  Spec.parses tree -> Spec.well_formed tree ->
  exists w, Sync.run tree = (Ok tt, w) /\
            Spec.parses (disk w) /\ Spec.aligned (disk w).
Proof.
  intros Hp Hwf.
  destruct (sync_run_spec tree Hp) as (w & Hrun & Hfiles & _).
  exists w. split; [exact Hrun|]. split.
  - intros p. rewrite Hfiles. now apply synced_parses.
  - intros ns en Hn Hbase. rewrite Hfiles, synced_base in Hbase.
    destruct (Hwf ns en Hn Hbase) as (Hen & Hproto & Hlangs).
    split; [exact Hen|]. split; [exact Hproto|].
    intros lang Hl. exists (Spec.converged en (Spec.table_at tree lang ns)).
    split; [|split].
    + rewrite Hfiles. unfold Spec.synced.
      apply mem_In in Hl, Hn. rewrite Hl, Hn, Hbase. cbn [andb].
      apply mem_In in Hl.
      rewrite (reconcile_converged en _ Hen (Hlangs lang Hl) Hproto).
      rewrite roundtrip_strings; [reflexivity|].
      apply converged_strings; [exact Hen | now apply Hlangs].
    + apply converged_table; [exact Hen | now apply Hlangs].
    + apply keys_converged.
Qed.

(** X4. Running the synchronizer twice in succession: the second run inserts
    nothing, deletes nothing and leaves every file as the first run wrote
    it. *)
Lemma sync_twice (tree : fs) :
  Spec.parses tree -> Spec.well_formed tree ->
  exists w1 w2,
    Sync.run tree = (Ok tt, w1) /\
    Sync.run (disk w1) = (Ok tt, w2) /\
    (forall p, files (disk w2) p = files (disk w1) p) /\
    Forall (fun e => ~ Spec.edit_line e) (console w2).
Proof.
  intros Hp Hwf.
  destruct (sync_run_aligned tree Hp Hwf) as (w1 & Hrun1 & Hp1 & Ha1).
  destruct (sync_run_spec (disk w1) Hp1) as (w2 & Hrun2 & Hfiles & Hcon).
  exists w1, w2. split; [exact Hrun1|]. split; [exact Hrun2|]. split.
  - intros p. rewrite Hfiles. now apply synced_aligned.
  - rewrite Hcon. constructor; [intros []|].
    apply Forall_app. split.
    + apply Forall_flat_map. apply Forall_forall. intros ns Hn.
      now apply namespace_events_aligned.
    + constructor; [intros []|]. unfold Spec.report_events.
      constructor; [intros []|].
      apply Forall_forall. intros e He. apply in_map_iff in He.
      destruct He as (lang & <- & _). intros [].
Qed.

End Idempotence.

(** ** The type generator *)

Section TypeGenerator.
Import World.

Lemma insert_sorted_perm (k : string) (l : list string) :
  Permutation (JS.insert_sorted k l) (k :: l).
Proof.
  induction l as [|x l IH]; cbn [JS.insert_sorted]; [reflexivity|].
  destruct (String.leb k x); [reflexivity|].
  rewrite IH. apply perm_swap.
Qed.

Lemma sort_perm (l : list string) : Permutation (JS.sort l) l.
Proof.
  unfold JS.sort. induction l as [|k l IH]; cbn [fold_right]; [reflexivity|].
  rewrite insert_sorted_perm. now constructor.
Qed.

Lemma insert_sorted_ascending (k : string) (l : list string) :
  Spec.ascending l -> Spec.ascending (JS.insert_sorted k l).
Proof.
  unfold Spec.ascending. induction l as [|x l IH]; intros Hs; cbn [JS.insert_sorted].
  - repeat constructor.
  - destruct (String.leb k x) eqn:E.
    + constructor; [exact Hs | now constructor].
    + inversion Hs as [|? ? Hs' Hhd]; subst.
      constructor; [now apply IH|].
      assert (Hxk : String.leb x k = true).
      { destruct (String.leb_total k x); congruence. }
      destruct l as [|y l]; cbn [JS.insert_sorted].
      * now constructor.
      * destruct (String.leb k y); constructor; [exact Hxk|].
        now inversion Hhd.
Qed.

Lemma sort_ascending (l : list string) : Spec.ascending (JS.sort l).
Proof.
  unfold JS.sort. induction l as [|k l IH]; cbn [fold_right].
  - constructor.
  - now apply insert_sorted_ascending.
Qed.

Lemma map_set_fresh {A} (m : list (string * A)) (k : string) (a : A) :
  ~ In k (map fst m) -> TypeGen.map_set m k a = m ++ [(k, a)].
Proof.
  induction m as [|[k' a'] m IH]; cbn [TypeGen.map_set map fst app In]; intros H.
  - reflexivity.
  - destruct (String.eqb_spec k k') as [->|Hne]; [tauto|].
    rewrite IH by tauto. reflexivity.
Qed.

(** The key collection over a list of namespaces without repetition. *)
Lemma collect_run (nss : list string) :
  NoDup nss ->
  forall nk ak w,
    (forall ns, In ns nss -> files (disk w) (NsFile "en" ns) <> Some Malformed) ->
    (forall ns, In ns nss -> ~ In ns (map fst nk)) ->
    TypeGen.collect nss nk ak w
    = (Ok (nk ++ map (fun ns => (ns, Spec.base_keys (disk w) ns))
                     (filter (Spec.has_base (disk w)) nss),
           ak ++ flat_map (Spec.base_keys (disk w)) nss),
       {| disk := disk w;
          console := console w
                     ++ map WarnNoFile
                            (filter (fun ns => negb (Spec.has_base (disk w) ns)) nss) |}).
Proof.
  induction nss as [|ns nss IH]; intros Hnd nk ak w Hok Hfresh.
  - cbn. rewrite !app_nil_r. now destruct w.
  - inversion Hnd as [|? ? Hni Hnd']; subst.
    pose proof (Hok ns (or_introl eq_refl)) as Hns.
    cbn [TypeGen.collect filter flat_map].
    destruct (files (disk w) (NsFile "en" ns)) as [[o|]|] eqn:E; try congruence.
    + assert (Hb : Spec.has_base (disk w) ns = true)
        by (unfold Spec.has_base; now rewrite E).
      assert (Hk : Spec.base_keys (disk w) ns = JS.keys o)
        by (unfold Spec.base_keys; now rewrite E).
      rewrite Hb, Hk. cbn [negb map].
      erewrite bind_ok by (unfold existsFile; rewrite E; reflexivity).
      cbn [negb].
      erewrite bind_ok by (unfold readJson; rewrite E; reflexivity).
      rewrite map_set_fresh by (apply Hfresh; now left).
      rewrite IH; try assumption.
      * rewrite ?Hk, <- !app_assoc. reflexivity.
      * intros ns' Hn'. apply Hok. now right.
      * intros ns' Hn'. rewrite map_app, in_app_iff. cbn. intros [H|[H|[]]].
        -- apply (Hfresh ns'); [now right | assumption].
        -- congruence.
    + assert (Hb : Spec.has_base (disk w) ns = false)
        by (unfold Spec.has_base; now rewrite E).
      assert (Hk : Spec.base_keys (disk w) ns = [])
        by (unfold Spec.base_keys; now rewrite E).
      rewrite Hb, Hk. cbn [negb map app].
      erewrite bind_ok by (unfold existsFile; rewrite E; reflexivity).
      cbn [negb].
      erewrite bind_ok by reflexivity.
      rewrite IH; cbn [disk console]; try assumption.
      * now rewrite <- app_assoc.
      * intros ns' Hn'. apply Hok. now right.
      * intros ns' Hn'. apply Hfresh. now right.
Qed.

Lemma count_occ_flat_map {A} (f : A -> list string) (l : list A) (k : string) :
  count_occ string_dec (flat_map f l) k
  = list_sum (map (fun a => count_occ string_dec (f a) k) l).
Proof.
  induction l as [|a l IH]; cbn [flat_map map list_sum]; [reflexivity|].
  now rewrite count_occ_app, IH.
Qed.

(** C9, as the code has it: when every base file of a declared namespace
    parses, the generator completes; the per-namespace enumerations are
    those of the declared namespaces that have a base file, one each, and
    each lists exactly the keys of that file in ascending order; a declared
    namespace without a base file yields a warning, gets no per-namespace
    enumeration and adds no key to the global union, but it stays in the
    enumeration of namespace names and in the number of namespaces, which
    are those of [NAMESPACES] whatever the files; the global union is in
    ascending order and lists a key once for every base namespace file that
    holds it, so exactly once only when no two files share it. *)
Theorem typegen_enumerations :
  forall tree : fs,
    (forall ns, In ns Config.NAMESPACES ->
                files tree (NsFile "en" ns) <> Some Malformed) ->
    exists art w,
      TypeGen.run tree = (Ok art, w) /\
      map fst (TypeGen.namespaceTypes art)
        = filter (Spec.has_base tree) Config.NAMESPACES /\
      (forall ns ty members,
         In (ns, (ty, members)) (TypeGen.namespaceTypes art) ->
         ty = (TypeGen.toPascalCase ns ++ "Keys")%string /\
         members = JS.sort (Spec.base_keys tree ns) /\
         Spec.ascending members /\
         Permutation members (Spec.base_keys tree ns)) /\
      console w = map WarnNoFile
                      (filter (fun ns => negb (Spec.has_base tree ns)) Config.NAMESPACES) /\
      Spec.ascending (TypeGen.TranslationKey art) /\
      (forall k, count_occ string_dec (TypeGen.TranslationKey art) k
                 = list_sum (map (fun ns => count_occ string_dec (Spec.base_keys tree ns) k)
                                 Config.NAMESPACES)) /\
      TypeGen.I18nNamespace art = Config.NAMESPACES /\
      TypeGen.namespaceCount art = List.length Config.NAMESPACES.
Proof.
  intros tree Hok. unfold TypeGen.run, TypeGen.generateTypes.
  erewrite bind_ok.
  2:{ apply (collect_run Config.NAMESPACES NAMESPACES_NoDup [] []); [exact Hok|].
      intros ns _ []. }
  cbn [disk console app fst snd]. unfold ret.
  eexists. eexists. split; [reflexivity|].
  cbn [TypeGen.namespaceTypes TypeGen.TranslationKey TypeGen.I18nNamespace
       TypeGen.namespaceCount console].
  split; [|split; [|split; [|split; [|split; [|split; reflexivity]]]]].
  - rewrite !map_map. cbn [fst]. apply map_id.
  - intros ns ty members Hin. rewrite map_map in Hin. cbn [fst snd] in Hin.
    apply in_map_iff in Hin. destruct Hin as (ns' & Heq & _).
    injection Heq as -> <- <-.
    split; [reflexivity|]. split; [reflexivity|].
    split; [apply sort_ascending | apply sort_perm].
  - reflexivity.
  - apply sort_ascending.
  - intros k. rewrite <- count_occ_flat_map.
    apply Permutation_count_occ. apply sort_perm.
Qed.

Lemma typegen_enumerations_witness :
  exists art w,
    TypeGen.run Spec.shared_key_tree = (Ok art, w) /\
    map fst (TypeGen.namespaceTypes art)
      = filter (Spec.has_base Spec.shared_key_tree) Config.NAMESPACES /\
    (forall ns ty members,
       In (ns, (ty, members)) (TypeGen.namespaceTypes art) ->
       ty = (TypeGen.toPascalCase ns ++ "Keys")%string /\
       members = JS.sort (Spec.base_keys Spec.shared_key_tree ns) /\
       Spec.ascending members /\
       Permutation members (Spec.base_keys Spec.shared_key_tree ns)) /\
    console w = map WarnNoFile
                    (filter (fun ns => negb (Spec.has_base Spec.shared_key_tree ns))
                            Config.NAMESPACES) /\
    Spec.ascending (TypeGen.TranslationKey art) /\
    (forall k, count_occ string_dec (TypeGen.TranslationKey art) k
               = list_sum (map (fun ns => count_occ string_dec
                                            (Spec.base_keys Spec.shared_key_tree ns) k)
                               Config.NAMESPACES)) /\
    TypeGen.I18nNamespace art = Config.NAMESPACES /\
    TypeGen.namespaceCount art = List.length Config.NAMESPACES.
Proof.
  apply (typegen_enumerations Spec.shared_key_tree).
  intros ns _. apply parses_tree_of.
  repeat (apply Forall_cons; [discriminate|]). apply Forall_nil.
Defined.

(** C9 fails as stated: with the key [status.ok] in the base files of both
    [common] and [error], the generated global union lists it twice; and
    the namespace [analytics], which has no base file and is warned about,
    is left out of the per-namespace enumerations but not of the
    enumeration of namespace names, nor of the number of namespaces. *)
Lemma typegen_repeats_shared_key :
  exists art w,
    TypeGen.run Spec.shared_key_tree = (Ok art, w) /\
    In "status.ok" (Spec.base_keys Spec.shared_key_tree "common") /\
    In "status.ok" (Spec.base_keys Spec.shared_key_tree "error") /\
    TypeGen.TranslationKey art = [ "error.fatal"; "status.ok"; "status.ok" ] /\
    count_occ string_dec (TypeGen.TranslationKey art) "status.ok" = 2 /\
    files Spec.shared_key_tree (NsFile "en" "analytics") = None /\
    In (WarnNoFile "analytics") (console w) /\
    map fst (TypeGen.namespaceTypes art) = [ "common"; "error" ] /\
    In "analytics" (TypeGen.I18nNamespace art) /\
    TypeGen.namespaceCount art = 11.
Proof.
  eexists. eexists. split; [reflexivity|].
  split; [cbn; tauto|]. split; [cbn; tauto|]. split; [reflexivity|].
  split; [reflexivity|]. split; [reflexivity|]. split; [cbn; tauto|].
  split; [reflexivity|]. split; [cbn; tauto | reflexivity].
Qed.

End TypeGenerator.

(** ** The split away from inherited names *)

Section Partition.
Import World.

Lemma table_own_set (nd : Split.tables) (n n' : string) (o : JS.object) :
  Split.table_own (Split.table_set nd n o) n'
  = if String.eqb n' n then Some o else Split.table_own nd n'.
Proof.
  induction nd as [|[n0 o0] nd IH]; cbn [Split.table_set Split.table_own].
  - destruct (String.eqb n' n); reflexivity.
  - destruct (String.eqb_spec n n0) as [->|Hne]; cbn [Split.table_own].
    + destruct (String.eqb n' n0); reflexivity.
    + rewrite IH. destruct (String.eqb_spec n' n0) as [->|]; [|reflexivity].
      destruct (String.eqb_spec n0 n); [congruence | reflexivity].
Qed.

Lemma table_set_names (nd : Split.tables) (n : string) (o o' : JS.object) :
  Split.table_own nd n = Some o' ->
  map fst (Split.table_set nd n o) = map fst nd.
Proof.
  induction nd as [|[n0 o0] nd IH]; cbn [Split.table_set Split.table_own map fst].
  - discriminate.
  - destruct (String.eqb_spec n n0) as [->|Hne]; cbn [map fst]; [reflexivity|].
    intros H. now rewrite IH.
Qed.

Lemma table_own_names (nd : Split.tables) (n : string) :
  In n (map fst nd) -> exists o, Split.table_own nd n = Some o.
Proof.
  induction nd as [|[n0 o0] nd IH]; cbn [map fst In Split.table_own]; [tauto|].
  destruct (String.eqb_spec n n0) as [->|Hne].
  - intros _. now exists o0.
  - intros [H|H]; [congruence | auto].
Qed.

Lemma In_keys_own (o : JS.object) (k : string) :
  In k (JS.keys o) <-> JS.own o k <> None.
Proof.
  pose proof (own_None o k) as H.
  destruct (in_dec string_dec k (JS.keys o)) as [Hin|Hni].
  - split; [|tauto]. intros _ E. apply H in E. contradiction.
  - split; [tauto|]. intros E. exfalso. apply E, H, Hni.
Qed.

Lemma In_keys_set (o : JS.object) (k k' : string) (v : JS.value) :
  k <> "__proto__" ->
  In k' (JS.keys (JS.set o k v)) <-> k' = k \/ In k' (JS.keys o).
Proof.
  intros Hk. rewrite !In_keys_own, own_set by assumption.
  destruct (String.eqb_spec k' k) as [->|Hne].
  - split; [tauto | discriminate].
  - tauto.
Qed.

Lemma plain_prefix_not_proto (k : string) :
  JS.mem (JS.first_segment k) JS.prototype_names = false -> k <> "__proto__".
Proof. intros H ->. discriminate H. Qed.

Lemma emptyTables_partitioned : Spec.partitioned Split.emptyTables [].
Proof.
  split; [reflexivity|].
  intros ns o Hown k. cbn in Hown.
  repeat (destruct (String.eqb ns _);
          [injection Hown as <-; cbn; tauto|]).
  discriminate.
Qed.

(** One entry with a plain prefix goes to the table of its namespace. *)
Lemma classifyEntry_partitioned (nd : Split.tables) (done : list string)
      (k : string) (v : JS.value) :
  Spec.partitioned nd done ->
  JS.mem (JS.first_segment k) JS.prototype_names = false ->
  exists nd', Split.classifyEntry nd (k, v) = Ok nd' /\
              Spec.partitioned nd' (k :: done).
Proof.
  intros [Hnames Hparts] Hplain.
  destruct (getNamespace_off_prototype k Hplain) as (ns & Hns & Hin & _).
  destruct (table_own_names nd ns) as [o Ho].
  { rewrite Hnames. exact Hin. }
  unfold Split.classifyEntry, Split.getKeyWithinNamespace. cbn [fst snd].
  rewrite Hns. cbn [JS.to_property_key]. rewrite Ho.
  eexists. split; [reflexivity|]. split.
  - now rewrite (table_set_names nd ns _ o Ho).
  - intros ns' o' Hown k'. rewrite table_own_set in Hown.
    destruct (String.eqb_spec ns' ns) as [->|Hne].
    + injection Hown as <-.
      rewrite In_keys_set by (now apply plain_prefix_not_proto).
      rewrite (Hparts ns o Ho k'). cbn [In]. split.
      * intros [->|[H1 H2]]; [split; [now left | exact Hns] | split; [now right | exact H2]].
      * intros [[<-|H1] H2]; [now left | right; tauto].
    + rewrite (Hparts ns' o' Hown k'). cbn [In]. split.
      * intros [H1 H2]. split; [now right | exact H2].
      * intros [[<-|H1] H2]; [|tauto]. congruence.
Qed.

(** Away from the names every object inherits, the classification loop
    completes and partitions the keys: every table holds exactly the keys of
    its namespace, so each key is in exactly one table. *)
Lemma classifyAll_partitioned (data : JS.object) :
  Spec.plain_prefixes data ->
  exists nd, Split.classifyAll Split.emptyTables data = Ok nd /\
             Spec.partitioned nd (rev (JS.keys data)).
Proof.
  intros Hplain.
  assert (Hgen : forall entries nd done,
            Spec.partitioned nd done ->
            (forall k, In k (JS.keys entries) ->
                       JS.mem (JS.first_segment k) JS.prototype_names = false) ->
            exists nd', Split.classifyAll nd entries = Ok nd' /\
                        Spec.partitioned nd' (rev (JS.keys entries) ++ done)).
  { induction entries as [|[k v] entries IH]; intros nd done Hp Hk.
    - exists nd. split; [reflexivity | exact Hp].
    - destruct (classifyEntry_partitioned nd done k v Hp) as (nd1 & H1 & Hp1).
      { apply Hk. now left. }
      destruct (IH nd1 (k :: done) Hp1) as (nd' & H' & Hp').
      { intros k' Hk'. apply Hk. now right. }
      exists nd'. cbn [Split.classifyAll]. rewrite H1. split; [exact H'|].
      cbn [JS.keys map fst rev]. rewrite <- app_assoc. exact Hp'. }
  destruct (Hgen data Split.emptyTables [] emptyTables_partitioned Hplain)
    as (nd & H & Hp).
  exists nd. split; [exact H|]. now rewrite app_nil_r in Hp.
Qed.

Lemma add_own_strings (o : JS.object) (k : string) (v : JS.value) :
  Spec.is_string v -> Spec.all_strings o -> Spec.all_strings (JS.add_own o k v).
Proof.
  intros Hv. induction o as [|[k0 v0] o IH]; intros Ho k' v'; cbn [JS.add_own].
  - intros [E|[]]. injection E as <- <-. exact Hv.
  - destruct (JS.precedes k k0).
    + intros [E|H]; [injection E as <- <-; exact Hv | exact (Ho _ _ H)].
    + intros [E|H]; [apply (Ho k' v'); now left|].
      apply (IH (fun a b Hab => Ho a b (or_intror Hab)) k' v' H).
Qed.

Lemma replace_own_strings (o : JS.object) (k : string) (v : JS.value) :
  Spec.is_string v -> Spec.all_strings o -> Spec.all_strings (JS.replace_own o k v).
Proof.
  intros Hv. induction o as [|[k0 v0] o IH]; intros Ho k' v'; cbn [JS.replace_own].
  - intros [].
  - destruct (String.eqb k k0).
    + intros [E|H]; [injection E as <- <-; exact Hv | apply (Ho k' v'); now right].
    + intros [E|H]; [apply (Ho k' v'); now left|].
      apply (IH (fun a b Hab => Ho a b (or_intror Hab)) k' v' H).
Qed.

Lemma set_strings (o : JS.object) (k : string) (v : JS.value) :
  Spec.is_string v -> Spec.all_strings o -> Spec.all_strings (JS.set o k v).
Proof.
  intros Hv Ho. unfold JS.set. destruct (JS.hasOwn o k).
  - now apply replace_own_strings.
  - destruct (String.eqb k "__proto__"); [exact Ho | now apply add_own_strings].
Qed.

Lemma get_own_string (o : JS.object) (k : string) :
  Spec.all_strings o -> In k (JS.keys o) -> Spec.is_string (JS.get o k).
Proof.
  intros Ho Hk. apply In_keys_own in Hk. unfold JS.get.
  destruct (JS.own o k) as [v|] eqn:E; [|congruence].
  exact (Ho k v (own_Some_In o k v E)).
Qed.

Lemma sort_In (l : list string) (k : string) : In k (JS.sort l) <-> In k l.
Proof.
  split; apply Permutation_in; [apply sort_perm | symmetry; apply sort_perm].
Qed.

(** The sorted copy of a table has the table's keys and string members. *)
Lemma sortTable_spec (o : JS.object) :
  Spec.all_strings o -> ~ In "__proto__" (JS.keys o) ->
  Spec.all_strings (Split.sortTable o) /\
  forall k, In k (JS.keys (Split.sortTable o)) <-> In k (JS.keys o).
Proof.
  intros Ho Hp. unfold Split.sortTable.
  assert (Hgen : forall l acc,
            (forall k, In k l -> In k (JS.keys o)) -> Spec.all_strings acc ->
            Spec.all_strings (fold_left (fun s key => JS.set s key (JS.get o key)) l acc) /\
            forall k, In k (JS.keys (fold_left (fun s key => JS.set s key (JS.get o key)) l acc))
                      <-> In k l \/ In k (JS.keys acc)).
  { induction l as [|x l IH]; intros acc Hl Hacc; cbn [fold_left].
    - split; [exact Hacc | intros k; cbn; tauto].
    - destruct (IH (JS.set acc x (JS.get o x))) as [IH1 IH2].
      + intros k Hk. apply Hl. now right.
      + apply set_strings; [|exact Hacc].
        apply get_own_string; [exact Ho | apply Hl; now left].
      + split; [exact IH1|]. intros k. rewrite IH2, In_keys_set.
        * cbn [In]. intuition.
        * intros ->. apply Hp, Hl. now left. }
  destruct (Hgen (JS.sort (JS.keys o)) JS.empty) as [H1 H2].
  - intros k Hk. now apply sort_In.
  - intros k v [].
  - split; [exact H1|]. intros k. rewrite H2, sort_In. cbn. tauto.
Qed.

(** Either a file is the one of a non-empty table or it is none of them. *)
Lemma classic_written (lang : string) (nd : Split.tables) (p : path) :
  (exists ns o, Split.table_own nd ns = Some o /\ JS.keys o <> [] /\ p = NsFile lang ns)
  \/ ~ (exists ns o, Split.table_own nd ns = Some o /\ JS.keys o <> [] /\ p = NsFile lang ns).
Proof.
  destruct p as [l|l ns]; [right; intros (ns & o & _ & _ & E); discriminate|].
  destruct (string_dec l lang) as [->|Hl];
    [|right; intros (ns' & o & _ & _ & E); congruence].
  destruct (Split.table_own nd ns) as [o|] eqn:Eo;
    [|right; intros (ns' & o & Ho & _ & E); congruence].
  destruct (JS.keys o) as [|k ks] eqn:Ek.
  - right. intros (ns' & o' & Ho & Hne & E). injection E as <-. congruence.
  - left. exists ns, o. repeat split; congruence.
Qed.

(** The saving loop: one file per non-empty table, nothing else. *)
Lemma saveTables_run (lang : string) (nd : Split.tables) :
  NoDup (map fst nd) ->
  forall st w,
    exists st' w',
      Split.saveTables lang nd st w = (Ok st', w') /\
      console w' = console w /\
      (forall ns o, Split.table_own nd ns = Some o -> JS.keys o <> [] ->
         files (disk w') (NsFile lang ns)
         = Some (Json (JS.json_roundtrip (Split.sortTable o)))) /\
      (forall p, (forall ns o, Split.table_own nd ns = Some o -> JS.keys o <> [] ->
                               p <> NsFile lang ns) ->
         files (disk w') p = files (disk w) p).
Proof.
  induction nd as [|[ns0 o0] nd IH]; intros Hnd st w.
  - exists st, w. cbn. repeat split; try reflexivity. discriminate.
  - cbn [map fst] in Hnd. inversion Hnd as [|? ? Hni Hnd']; subst.
    cbn [Split.saveTables].
    assert (Hother : forall ns, Split.table_own nd ns <> None -> ns <> ns0).
    { intros ns Hsome ->. apply Hni.
      clear - Hsome. induction nd as [|[n o] nd IH]; cbn in *; [congruence|].
      destruct (String.eqb_spec ns0 n) as [->|]; [now left | right; auto]. }
    destruct (JS.keys o0) as [|k0 ks] eqn:Ek; cbn [List.length Nat.eqb].
    + destruct (IH Hnd' st w) as (st' & w' & Hrun & Hcon & Hin & Hout).
      exists st', w'. split; [exact Hrun|]. split; [exact Hcon|]. split.
      * intros ns o Hown Hne. cbn [Split.table_own] in Hown.
        destruct (String.eqb_spec ns ns0) as [->|]; [|now apply (Hin ns o)].
        injection Hown as <-. congruence.
      * intros p Hp. apply Hout. intros ns o Hown Hne. apply (Hp ns o); [|exact Hne].
        cbn [Split.table_own].
        destruct (String.eqb_spec ns ns0) as [->|]; [|exact Hown].
        exfalso. apply (Hother ns0); congruence.
    + set (w1 := snd (writeJson (NsFile lang ns0) (Split.sortTable o0) w)).
      destruct (IH Hnd' (Split.stats_set st ns0 (S (List.length ks))) w1)
        as (st' & w' & Hrun & Hcon & Hin & Hout).
      exists st', w'. split; [|split; [|split]].
      * erewrite bind_ok by reflexivity. exact Hrun.
      * rewrite Hcon. reflexivity.
      * intros ns o Hown Hne. cbn [Split.table_own] in Hown.
        destruct (String.eqb_spec ns ns0) as [->|]; [|now apply (Hin ns o)].
        injection Hown as <-. rewrite Hout.
        -- unfold w1. cbn [writeJson snd disk files]. now rewrite path_eqb_refl.
        -- intros ns' o' Hown' _ E. injection E as <-.
           apply (Hother ns0); congruence.
      * intros p Hp. rewrite Hout.
        -- unfold w1. cbn [writeJson snd disk files].
           destruct (path_eqb (NsFile lang ns0) p) eqn:E; [|reflexivity].
           apply path_eqb_eq in E. exfalso.
           apply (Hp ns0 o0); [cbn; now rewrite String.eqb_refl | congruence | now symmetry].
        -- intros ns o Hown Hne. apply (Hp ns o); [|exact Hne].
           cbn [Split.table_own].
           destruct (String.eqb_spec ns ns0) as [->|]; [|exact Hown].
           exfalso. apply (Hother ns0); congruence.
Qed.

Lemma classifyAll_strings (entries : JS.object) :
  Spec.all_strings entries ->
  forall nd nd',
    (forall ns o, Split.table_own nd ns = Some o -> Spec.all_strings o) ->
    Split.classifyAll nd entries = Ok nd' ->
    forall ns o, Split.table_own nd' ns = Some o -> Spec.all_strings o.
Proof.
  induction entries as [|[k v] entries IH]; intros He nd nd' Hnd Hrun.
  - cbn in Hrun. injection Hrun as <-. exact Hnd.
  - cbn [Split.classifyAll] in Hrun.
    destruct (Split.classifyEntry nd (k, v)) as [nd1|e] eqn:E1; [|discriminate].
    apply (IH (fun a b H => He a b (or_intror H)) nd1 nd'); [|exact Hrun].
    unfold Split.classifyEntry in E1. cbn [fst snd] in E1.
    destruct (Split.table_own nd _) as [o1|] eqn:Eo.
    + injection E1 as <-. intros ns o. rewrite table_own_set.
      destruct (String.eqb ns _).
      * intros [= <-]. apply set_strings; [|exact (Hnd _ _ Eo)].
        apply (He k v). now left.
      * apply Hnd.
    + destruct (JS.defined _); [|discriminate]. injection E1 as <-. exact Hnd.
Qed.

Lemma partition_names_NoDup : NoDup Spec.partition_names.
Proof.
  unfold Spec.partition_names, Config.NAMESPACES. cbn [app].
  repeat (apply NoDup_cons; [simpl; intuition discriminate|]). apply NoDup_nil.
Qed.

(** X10. Away from the names every object inherits, splitting a locale completes
    and partitions its flat table: every key is in the file written for its
    namespace, every such file holds exactly the keys of its namespace, and
    no other file is touched. *)
Lemma splitLanguage_partitions (lang : string) (w : world) (data : JS.object) :
  files (disk w) (Legacy lang) = Some (Json data) ->
  Spec.all_strings data -> Spec.plain_prefixes data ->
  exists st w',
    Split.splitLanguage lang w = (Ok st, w') /\
    (forall k, In k (JS.keys data) ->
       exists ns o,
         Split.getNamespace k = JS.VString ns /\
         files (disk w') (NsFile lang ns) = Some (Json o) /\
         forall k', In k' (JS.keys o)
                    <-> In k' (JS.keys data) /\ Split.getNamespace k' = JS.VString ns) /\
    (forall p, files (disk w') p <> files (disk w) p ->
       exists ns k, p = NsFile lang ns /\ In k (JS.keys data) /\
                    Split.getNamespace k = JS.VString ns).
Proof.
  intros Hfile Hstr Hplain.
  destruct (classifyAll_partitioned data Hplain) as (nd & Hclass & Hnames & Hparts).
  assert (Hnds : forall ns o, Split.table_own nd ns = Some o -> Spec.all_strings o).
  { apply (classifyAll_strings data Hstr Split.emptyTables nd); [|exact Hclass].
    intros ns o Hown. cbn in Hown.
    repeat (destruct (String.eqb ns _); [injection Hown as <-; intros k v []|]).
    discriminate. }
  assert (Hkeys : forall ns o, Split.table_own nd ns = Some o ->
            forall k, In k (JS.keys o)
                      <-> In k (JS.keys data) /\ Split.getNamespace k = JS.VString ns).
  { intros ns o Hown k. rewrite (Hparts ns o Hown k), <- in_rev. reflexivity. }
  assert (Hfile_of : forall ns o, Split.table_own nd ns = Some o ->
            JS.json_roundtrip (Split.sortTable o) = Split.sortTable o /\
            forall k, In k (JS.keys (Split.sortTable o)) <-> In k (JS.keys o)).
  { intros ns o Hown.
    destruct (sortTable_spec o (Hnds ns o Hown)) as [H1 H2].
    - intros Hin. apply (Hkeys ns o Hown) in Hin. destruct Hin as [Hin _].
      exact (plain_prefix_not_proto _ (Hplain _ Hin) eq_refl).
    - split; [now apply roundtrip_strings | exact H2]. }
  unfold Split.splitLanguage.
  erewrite bind_ok by (unfold readJson; rewrite Hfile; reflexivity).
  erewrite bind_ok by reflexivity.
  set (w1 := snd (when (negb (dirs (disk w) lang)) (mkdir lang) w)).
  assert (Hw1 : when (negb (dirs (disk w) lang)) (mkdir lang) w = (Ok tt, w1))
    by (unfold w1; destruct (dirs (disk w) lang); reflexivity).
  assert (Hf1 : forall p, files (disk w1) p = files (disk w) p)
    by (intros p; unfold w1; destruct (dirs (disk w) lang); reflexivity).
  erewrite bind_ok by exact Hw1. rewrite Hclass.
  pose proof partition_names_NoDup as Hnd. rewrite <- Hnames in Hnd.
  destruct (saveTables_run lang nd Hnd [] w1) as (st & w' & Hrun & _ & Hin & Hout).
  exists st, w'. split; [exact Hrun|]. split.
  - intros k Hk.
    destruct (getNamespace_off_prototype k (Hplain k Hk)) as (ns & Hns & Hname & _).
    destruct (table_own_names nd ns) as [o Ho]; [now rewrite Hnames|].
    destruct (Hfile_of ns o Ho) as [Hrt Hsk].
    exists ns, (Split.sortTable o). split; [exact Hns|]. split.
    + rewrite (Hin ns o Ho), Hrt; [reflexivity|].
      intros Hnil. assert (Hko : In k (JS.keys o)) by (apply (Hkeys ns o Ho); tauto).
      rewrite Hnil in Hko. contradiction.
    + intros k'. rewrite Hsk. apply (Hkeys ns o Ho).
  - intros p Hp.
    destruct (classic_written lang nd p) as [(ns & o & Ho & Hne & ->)|Hno].
    + destruct (JS.keys o) as [|k ks] eqn:Ek; [congruence|].
      exists ns, k. split; [reflexivity|].
      apply (Hkeys ns o Ho). rewrite Ek. now left.
    + exfalso. apply Hp. rewrite Hout, Hf1; [reflexivity|].
      intros ns o Ho Hne ->. apply Hno. now exists ns, o.
Qed.

End Partition.

(** ** The splitter's run up to the first locale it cannot read *)

Section SplitAbort.
Import World.

Lemma for_each_log {A} (f : A -> event) (l : list A) :
  forall w, exists w',
    for_each l (fun x => log (f x)) w = (Ok tt, w') /\ disk w' = disk w.
Proof.
  induction l as [|x l IH]; intros w; cbn [for_each].
  - exists w. split; reflexivity.
  - erewrite bind_ok by reflexivity.
    destruct (IH {| disk := disk w; console := console w ++ [f x] |}) as (w' & H & Hd).
    exists w'. split; [exact H | exact Hd].
Qed.

(** The files written for a locale do not depend on the rest of the world. *)
Lemma saveTables_agree (lang : string) (nd : Split.tables) :
  forall st w w0,
    (forall ns, files (disk w) (NsFile lang ns) = files (disk w0) (NsFile lang ns)) ->
    fst (Split.saveTables lang nd st w) = fst (Split.saveTables lang nd st w0) /\
    forall ns, files (disk (snd (Split.saveTables lang nd st w))) (NsFile lang ns)
               = files (disk (snd (Split.saveTables lang nd st w0))) (NsFile lang ns).
Proof.
  induction nd as [|[ns nsData] nd IH]; intros st w w0 H; cbn [Split.saveTables].
  - split; [reflexivity | exact H].
  - destruct (Nat.eqb (List.length (JS.keys nsData)) 0); [now apply IH|].
    cbv beta iota delta [bind writeJson]. apply IH.
    intros ns0. cbn [disk files].
    destruct (path_eqb (NsFile lang ns) (NsFile lang ns0)); [reflexivity | apply H].
Qed.

Lemma splitLanguage_agree (lang : string) (w w0 : world) :
  files (disk w) (Legacy lang) = files (disk w0) (Legacy lang) ->
  (forall ns, files (disk w) (NsFile lang ns) = files (disk w0) (NsFile lang ns)) ->
  fst (Split.splitLanguage lang w) = fst (Split.splitLanguage lang w0) /\
  forall ns, files (disk (snd (Split.splitLanguage lang w))) (NsFile lang ns)
             = files (disk (snd (Split.splitLanguage lang w0))) (NsFile lang ns).
Proof.
  intros HL HN. unfold Split.splitLanguage, bind, readJson, existsDir.
  rewrite HL.
  destruct (files (disk w0) (Legacy lang)) as [[data|]|];
    [|split; [reflexivity | exact HN] ..].
  destruct (dirs (disk w) lang), (dirs (disk w0) lang);
    cbn [negb when mkdir ret];
    (destruct (Split.classifyAll Split.emptyTables data) as [nd|e];
     [apply saveTables_agree; exact HN | split; [reflexivity | exact HN]]).
Qed.

Lemma splitLanguage_unreadable (lang : string) (w : world) :
  Spec.unreadable (files (disk w) (Legacy lang)) ->
  Split.splitLanguage lang w = (Throw (Spec.read_failure (disk w) (Legacy lang)), w).
Proof.
  intros Hbad. unfold Split.splitLanguage, Spec.read_failure, bind, readJson.
  destruct Hbad as [H|H]; rewrite H; reflexivity.
Qed.

Lemma before_split (langs : list string) (lang : string) :
  In lang langs -> exists after, langs = Spec.before langs lang ++ lang :: after.
Proof.
  induction langs as [|l langs IH]; intros Hin; [contradiction|].
  cbn [Spec.before]. destruct (String.eqb_spec l lang) as [->|Hne].
  - now exists langs.
  - destruct Hin as [H|H]; [contradiction|].
    destruct (IH H) as [after Hafter]. exists after. cbn [app]. now f_equal.
Qed.

(** The locales of [before] split one after the other, each as it would be
    split alone. *)
Lemma splitAll_prefix (w0 : world) (before : list string) :
  NoDup before ->
  (forall l, In l before -> exists st, fst (Split.splitLanguage l w0) = Ok st) ->
  forall all w,
    (forall l, In l before ->
       files (disk w) (Legacy l) = files (disk w0) (Legacy l) /\
       forall ns, files (disk w) (NsFile l ns) = files (disk w0) (NsFile l ns)) ->
    exists all' w',
      Split.splitAll before all w = (Ok all', w') /\
      forall l ns, In l before ->
        files (disk w') (NsFile l ns)
        = files (disk (snd (Split.splitLanguage l w0))) (NsFile l ns).
Proof.
  induction before as [|l0 before IH]; intros Hnd Hok all w Hsame; cbn [Split.splitAll].
  - exists all, w. split; [reflexivity | intros l ns []].
  - inversion Hnd as [|? ? Hni Hnd']; subst.
    erewrite bind_ok by reflexivity.
    set (wl := {| disk := disk w; console := console w ++ [LangHeader l0] |}).
    destruct (Hsame l0 (or_introl eq_refl)) as [HL HN].
    destruct (splitLanguage_agree l0 wl w0 HL HN) as [Hfst Hfiles].
    destruct (Hok l0 (or_introl eq_refl)) as [st Hst]. rewrite Hst in Hfst.
    destruct (Split.splitLanguage l0 wl) as [r w1] eqn:E1.
    cbn [fst snd] in Hfst, Hfiles. subst r.
    erewrite bind_ok by exact E1.
    destruct (for_each_log (fun p => NsCount (fst p) (snd p)) st w1) as (w2 & Hfe & Hd2).
    erewrite bind_ok by exact Hfe.
    assert (Hkeep1 : forall p, Spec.split_target [l0] p = false ->
              files (disk w1) p = files (disk w) p).
    { intros q Hq.
      pose proof (preserves_splitLanguage
                    (fun p => negb (Spec.split_target [l0] p)) l0) as Hpre.
      specialize (Hpre (fun ns => proj2 (negb_false_iff _)
                                    (proj2 (mem_In l0 [l0]) (or_introl eq_refl))) wl q).
      rewrite E1 in Hpre. cbn [snd] in Hpre. apply Hpre. now rewrite Hq. }
    destruct (IH Hnd' (fun l Hl => Hok l (or_intror Hl)) (all ++ [(l0, st)]) w2)
      as (all' & w' & Hrun & Hdone).
    { intros l Hl. rewrite Hd2.
      assert (Hne : ~ In l [l0]) by (intros [->|[]]; contradiction).
      destruct (Hsame l (or_intror Hl)) as [HL' HN'].
      split; [now rewrite (Hkeep1 (Legacy l) eq_refl)|].
      intros ns. rewrite (Hkeep1 (NsFile l ns)); [apply HN'|].
      cbn [Spec.split_target]. now apply mem_not_In. }
    exists all', w'. split; [exact Hrun|].
    intros l ns [<-|Hl]; [|now apply Hdone].
    pose proof (preserves_splitAll
                  (fun p => negb (Spec.split_target before p)) before) as Hpre.
    specialize (Hpre (fun l ns Hl => proj2 (negb_false_iff _) (proj2 (mem_In l before) Hl))
                     (all ++ [(l0, st)]) w2 (NsFile l0 ns)).
    rewrite Hrun in Hpre. cbn [snd] in Hpre. rewrite Hpre.
    + rewrite Hd2. apply Hfiles.
    + cbn [Spec.split_target]. apply negb_true_iff. now apply mem_not_In.
Qed.

(** C7, as the code has it: when the legacy file of a declared locale is
    missing or malformed, the splitter's run ends with an exception, and no
    namespace file of that locale or of any locale after it in [LANGUAGES]
    is written: they hold what they held before the run.  When every locale
    before it splits without failure, the exception is the read failure of
    that locale's legacy file, and the locales before it have been
    processed: their namespace files are those that splitting each of them
    alone produces. *)
Theorem split_failure_aborts_run :
  forall (tree : fs) (lang : string),
    In lang Config.LANGUAGES ->
    files tree (Legacy lang) = None \/ files tree (Legacy lang) = Some Malformed ->
    (exists e, fst (Split.run tree) = Throw e) /\
    (forall lang' ns, Spec.from_on Config.LANGUAGES lang lang' ->
       files (disk (snd (Split.run tree))) (NsFile lang' ns)
       = files tree (NsFile lang' ns)) /\
    ((forall l, In l (Spec.before Config.LANGUAGES lang) ->
        exists st, fst (Split.splitLanguage l (Spec.initial tree)) = Ok st) ->
     fst (Split.run tree) = Throw (Spec.read_failure tree (Legacy lang)) /\
     forall l ns, In l (Spec.before Config.LANGUAGES lang) ->
       files (disk (snd (Split.run tree))) (NsFile l ns)
       = files (disk (snd (Split.splitLanguage l (Spec.initial tree)))) (NsFile l ns)).
Proof.
  intros tree lang Hin Hbad.
  set (w0 := {| disk := tree; console := [SplitStarted] |}).
  assert (Hrun : forall before after, Config.LANGUAGES = before ++ lang :: after ->
            (exists e, fst (Split.run tree) = Throw e) /\
            (forall lang' ns, In lang' (lang :: after) ->
               files (disk (snd (Split.run tree))) (NsFile lang' ns)
               = files tree (NsFile lang' ns))).
  { intros before after Hdec.
    pose proof LANGUAGES_NoDup as Hnd. rewrite Hdec in Hnd.
    destruct (splitAll_abort before after lang Hnd [] w0 Hbad) as [[e He] Hf].
    rewrite <- Hdec in He, Hf.
    destruct (Split.splitAll Config.LANGUAGES [] w0) as [r w] eqn:E.
    simpl in He. subst r. rewrite (split_run_abort tree e w E).
    split; [now exists e | exact Hf]. }
  split; [|split].
  - destruct (in_split _ _ Hin) as (before & after & Hdec).
    exact (proj1 (Hrun before after Hdec)).
  - intros lang' ns (before & after & Hdec & Hl).
    exact (proj2 (Hrun before after Hdec) lang' ns Hl).
  - intros Hok. destruct (before_split _ _ Hin) as [after Hdec].
    set (before := Spec.before Config.LANGUAGES lang) in *.
    pose proof LANGUAGES_NoDup as Hnd. rewrite Hdec in Hnd.
    apply NoDup_app_remove_r in Hnd.
    destruct (splitAll_prefix (Spec.initial tree) before Hnd Hok [] w0)
      as (all1 & w1 & Hpre & Hdone).
    { intros l _. split; [reflexivity | intros ns; reflexivity]. }
    assert (Hlegacy : files (disk w1) (Legacy lang) = files tree (Legacy lang)).
    { pose proof (preserves_splitAll
                    (fun p => negb (Spec.split_target before p)) before) as Hfr.
      specialize (Hfr (fun l ns Hl => proj2 (negb_false_iff _) (proj2 (mem_In l before) Hl))
                      [] w0 (Legacy lang) eq_refl).
      rewrite Hpre in Hfr. exact Hfr. }
    set (wl := {| disk := disk w1; console := console w1 ++ [LangHeader lang] |}).
    assert (Hall : Split.splitAll Config.LANGUAGES [] w0
                   = (Throw (Spec.read_failure tree (Legacy lang)), wl)).
    { rewrite Hdec, splitAll_app, Hpre. cbn [Split.splitAll].
      erewrite bind_ok by reflexivity.
      erewrite bind_throw; [reflexivity|].
      rewrite splitLanguage_unreadable.
      - unfold Spec.read_failure. cbn [disk]. now rewrite Hlegacy.
      - cbn [disk]. rewrite Hlegacy. exact Hbad. }
    rewrite (split_run_abort tree _ wl Hall). cbn [fst snd].
    split; [reflexivity|]. intros l ns Hl. cbn [disk]. now apply Hdone.
Qed.

Lemma split_failure_aborts_run_witness :
  fst (Split.run Spec.missing_ja_tree) = Throw (ENOENT (Legacy "ja")) /\
  (forall lang' ns, Spec.from_on Config.LANGUAGES "ja" lang' ->
     files (disk (snd (Split.run Spec.missing_ja_tree))) (NsFile lang' ns)
     = files Spec.missing_ja_tree (NsFile lang' ns)) /\
  (forall l ns, In l ["en"; "ko"] ->
     files (disk (snd (Split.run Spec.missing_ja_tree))) (NsFile l ns)
     = files (disk (snd (Split.splitLanguage l (Spec.initial Spec.missing_ja_tree))))
             (NsFile l ns)) /\
  files (disk (snd (Split.splitLanguage "en" (Spec.initial Spec.missing_ja_tree))))
        (NsFile "en" "common")
  = Some (Json [ Spec.str "common.cancel" "Cancel"; Spec.str "common.ok" "OK";
                 Spec.str "status.ready" "Ready" ]).
Proof.
  destruct (split_failure_aborts_run Spec.missing_ja_tree "ja") as (_ & Hlater & Hfirst).
  - simpl. tauto.
  - left. reflexivity.
  - destruct Hfirst as [Hexn Hdone].
    + intros l [<-|[<-|[]]]; eexists; reflexivity.
    + split; [exact Hexn|]. split; [exact Hlater|]. split; [exact Hdone | reflexivity].
Defined.

(** C7 fails as stated: with the legacy file of [en] missing and the one of
    [ko] in order, the run ends at [en] and [ko] is never processed, although
    splitting [ko] alone would have produced its [common.json]. *)
Lemma split_failure_not_isolated :
  files Spec.missing_en_tree (Legacy "en") = None /\
  files (disk (snd (Split.splitLanguage "ko"
                      {| disk := Spec.missing_en_tree; console := [] |})))
        (NsFile "ko" "common")
    = Some (Json [ Spec.str "common.ok" "OK" ]) /\
  fst (Split.run Spec.missing_en_tree) = Throw (ENOENT (Legacy "en")) /\
  (forall ns, files (disk (snd (Split.run Spec.missing_en_tree))) (NsFile "ko" ns) = None).
Proof.
  split; [reflexivity|]. split; [reflexivity|]. split; [reflexivity|].
  intros ns. reflexivity.
Qed.


End SplitAbort.

(** * Further properties of the scripts *)

(** ** The synchronizer *)

Section SyncMore.
Import World.

Lemma reordered_tree_well_formed : Spec.well_formed Spec.reordered_tree.
Proof.
  intros ns en Hn Hbase. cbn in Hn.
  repeat (destruct Hn as [<-|Hn]; [try discriminate Hbase|]); [|contradiction].
  injection Hbase as <-.
  split; [now apply is_table_sound|]. split; [cbn; intuition discriminate|].
  intros lang Hl. cbn in Hl.
  repeat (destruct Hl as [<-|Hl]; [now apply is_table_sound|]).
  contradiction.
Qed.

Lemma reconcile_converges_witness :
  JS.keys (Sync.reconcile Spec.abc_base Spec.ad_target) = JS.keys Spec.abc_base /\
  (forall k, In k (JS.keys Spec.abc_base) -> ~ In k (JS.keys Spec.ad_target) ->
     JS.own (Sync.reconcile Spec.abc_base Spec.ad_target) k = JS.own Spec.abc_base k) /\
  (forall k, In k (JS.keys Spec.abc_base) -> In k (JS.keys Spec.ad_target) ->
     JS.own (Sync.reconcile Spec.abc_base Spec.ad_target) k = JS.own Spec.ad_target k) /\
  (forall k, ~ In k (JS.keys Spec.abc_base) ->
     JS.own (Sync.reconcile Spec.abc_base Spec.ad_target) k = None).
Proof.
  apply (reconcile_converges Spec.abc_base Spec.ad_target).
  - now apply is_table_sound.
  - now apply is_table_sound.
  - cbn. intuition discriminate.
Defined.

Lemma sync_twice_witness :
  exists w1 w2,
    Sync.run Spec.reordered_tree = (Ok tt, w1) /\
    Sync.run (disk w1) = (Ok tt, w2) /\
    (forall p, files (disk w2) p = files (disk w1) p) /\
    Forall (fun e => ~ Spec.edit_line e) (console w2).
Proof.
  apply (sync_twice Spec.reordered_tree).
  - exact reordered_tree_parses.
  - exact reordered_tree_well_formed.
Defined.

Lemma sync_run_converged_witness :
  exists w,
    Sync.run Spec.reordered_tree = (Ok tt, w) /\
    forall lang ns en,
      In lang Sync.TARGET_LANGUAGES -> In ns Config.NAMESPACES ->
      files Spec.reordered_tree (NsFile "en" ns) = Some (Json en) ->
      Spec.table en -> ~ In "__proto__" (JS.keys en) ->
      Spec.table (Spec.table_at Spec.reordered_tree lang ns) ->
      files (disk w) (NsFile lang ns)
        = Some (Json (Spec.converged en (Spec.table_at Spec.reordered_tree lang ns))) /\
      JS.keys (Spec.converged en (Spec.table_at Spec.reordered_tree lang ns)) = JS.keys en.
Proof.
  apply (sync_run_converged Spec.reordered_tree).
  exact reordered_tree_parses.
Defined.

(** X2. A locale without a file for a namespace gets the base table as it
    is, the base values standing in as placeholders, and the run reports all
    base keys as added (or the locale as in sync when the base table is
    empty). *)
Theorem reconcile_new_locale (en : JS.object) (lang : string) :
  Spec.table en -> ~ In "__proto__" (JS.keys en) ->
  Sync.reconcile en JS.empty = en /\
  Spec.sync_events en JS.empty lang
  = if Nat.eqb (List.length (JS.keys en)) 0 then [InSync lang]
    else [Added lang (List.length (JS.keys en))].
Proof.
  intros Hen Hp.
  assert (Hempty : Spec.table JS.empty)
    by (constructor; [constructor | exact I | intros k v []]).
  split.
  - rewrite (reconcile_converged en JS.empty Hen Hempty Hp).
    unfold Spec.converged. cbn [JS.own JS.empty]. unfold JS.keys.
    rewrite map_map. rewrite <- (map_id en) at 2. apply map_ext_in.
    intros [k v] Hin. cbn [fst]. unfold JS.get.
    now rewrite (In_own en k v (Spec.table_nodup en Hen) Hin).
  - unfold Spec.sync_events.
    rewrite (set_of_NoDup _ (Spec.table_nodup en Hen)). cbn [JS.keys JS.empty map JS.set_of].
    unfold Sync.missingKeys, Sync.extraKeys. cbn [filter List.length Nat.ltb Nat.leb Nat.eqb].
    rewrite forallb_filter_id by (apply forallb_forall; intros; reflexivity).
    destruct (JS.keys en) as [|k ks]; reflexivity.
Qed.

Lemma reconcile_new_locale_witness :
  Sync.reconcile Spec.abc_base JS.empty = Spec.abc_base /\
  Spec.sync_events Spec.abc_base JS.empty "ko"
  = if Nat.eqb (List.length (JS.keys Spec.abc_base)) 0 then [InSync "ko"]
    else [Added "ko" (List.length (JS.keys Spec.abc_base))].
Proof.
  apply (reconcile_new_locale Spec.abc_base "ko").
  - now apply is_table_sound.
  - cbn. intuition discriminate.
Defined.

Lemma common_keys_length (a b : list string) :
  NoDup a -> NoDup b ->
  List.length (filter (fun k => JS.mem k b) a) = List.length (filter (fun k => JS.mem k a) b).
Proof.
  intros Ha Hb. apply Permutation_length. apply NoDup_Permutation.
  - now apply NoDup_filter.
  - now apply NoDup_filter.
  - intros k. rewrite !filter_In, !mem_In. tauto.
Qed.

Lemma split_length (f : string -> bool) (l : list string) :
  List.length l
  = List.length (filter (fun k => negb (f k)) l) + List.length (filter f l).
Proof.
  rewrite <- (filter_length (fun k => negb (f k)) l). f_equal.
  f_equal. apply filter_ext. intros k. now rewrite negb_involutive.
Qed.

(** X3. The counts the synchronizer reports add up: the keys of the table
    it writes are the target's keys, plus the keys reported as added, minus
    the keys reported as removed. *)
Theorem reconcile_key_count (en lang : JS.object) :
  Spec.table en -> Spec.table lang -> ~ In "__proto__" (JS.keys en) ->
  List.length (JS.keys (Sync.reconcile en lang)) + List.length (Cover.removed en lang)
  = List.length (JS.keys lang) + List.length (Cover.added en lang).
Proof.
  intros Hen Hlang Hp.
  rewrite (reconcile_converged en lang Hen Hlang Hp), keys_converged.
  unfold Cover.added, Cover.removed.
  rewrite (set_of_NoDup _ (Spec.table_nodup en Hen)).
  rewrite (set_of_NoDup _ (Spec.table_nodup lang Hlang)).
  unfold Sync.missingKeys, Sync.extraKeys.
  rewrite (split_length (fun k => JS.mem k (JS.keys lang)) (JS.keys en)) at 1.
  rewrite (split_length (fun k => JS.mem k (JS.keys en)) (JS.keys lang)) at 1.
  rewrite (common_keys_length (JS.keys en) (JS.keys lang)
             (Spec.table_nodup en Hen) (Spec.table_nodup lang Hlang)).
  lia.
Qed.

Lemma reconcile_key_count_witness :
  List.length (JS.keys (Sync.reconcile Spec.abc_base Spec.ad_target))
  + List.length (Cover.removed Spec.abc_base Spec.ad_target)
  = List.length (JS.keys Spec.ad_target)
    + List.length (Cover.added Spec.abc_base Spec.ad_target).
Proof.
  apply (reconcile_key_count Spec.abc_base Spec.ad_target).
  - now apply is_table_sound.
  - now apply is_table_sound.
  - cbn. intuition discriminate.
Defined.

Lemma for_each_app {A} (body : A -> M unit) (l1 l2 : list A) :
  forall w,
    for_each (l1 ++ l2) body w =
    match for_each l1 body w with
    | (Ok _, w1) => for_each l2 body w1
    | (Throw e, w1) => (Throw e, w1)
    end.
Proof.
  induction l1 as [|x l1 IH]; intros w; cbn [app for_each].
  - reflexivity.
  - unfold bind at 1 2. destruct (body x w) as [[[]|e] w1]; [apply IH | reflexivity].
Qed.

(** The files of one namespace stay as they are while the namespace has no
    base file. *)
Lemma syncNamespaces_skip (ns : string) (nss : list string) :
  forall w,
    files (disk w) (NsFile "en" ns) = None ->
    forall lang,
      files (disk (snd (for_each nss Sync.syncNamespace w))) (NsFile lang ns)
      = files (disk w) (NsFile lang ns).
Proof.
  induction nss as [|n nss IH]; intros w Hbase lang; cbn [for_each]; [reflexivity|].
  assert (Hstep : forall l, files (disk (snd (Sync.syncNamespace n w))) (NsFile l ns)
                            = files (disk w) (NsFile l ns)).
  { intros l. destruct (String.eqb_spec n ns) as [->|Hne].
    - unfold Sync.syncNamespace.
      cbv beta iota zeta delta [bind existsFile]. rewrite Hbase. reflexivity.
    - apply (preserves_syncNamespace (Cover.in_namespace ns)); [|apply String.eqb_refl].
      intros l' _. cbn. now apply String.eqb_neq. }
  unfold bind. destruct (Sync.syncNamespace n w) as [[[]|e] w1]; cbn [snd] in *.
  - rewrite IH by (now rewrite Hstep). apply Hstep.
  - apply Hstep.
Qed.

Lemma namespace_header_inv (tree : fs) (ns ns' : string) (n : nat) :
  In (NamespaceHeader ns n) (Spec.namespace_events tree ns') ->
  ns = ns' /\ exists en, files tree (NsFile "en" ns') = Some (Json en).
Proof.
  unfold Spec.namespace_events.
  destruct (files tree (NsFile "en" ns')) as [[en|]|];
    try (intros [H|[]]; discriminate).
  intros [H|H].
  - injection H as <- _. split; [reflexivity | now exists en].
  - exfalso. apply in_flat_map in H. destruct H as (lang & _ & H).
    unfold Spec.sync_events in H.
    repeat (apply in_app_or in H; destruct H as [H|H]);
      match type of H with In _ (if ?b then _ else _) => destruct b end;
      cbn in H; intuition discriminate.
Qed.

(** X5. A namespace without a base file is skipped: whatever the tree, the
    run leaves every locale's file of that namespace as it is; and on a tree
    that parses the run prints the warning for a declared namespace of this
    kind and no header for it. *)
Theorem sync_skips_namespace_without_base :
  forall (tree : fs) (ns : string),
    files tree (NsFile "en" ns) = None ->
    (forall lang, files (disk (snd (Sync.run tree))) (NsFile lang ns)
                  = files tree (NsFile lang ns)) /\
    (Spec.parses tree -> In ns Config.NAMESPACES ->
     In (WarnNoBase ns) (console (snd (Sync.run tree))) /\
     forall n, ~ In (NamespaceHeader ns n) (console (snd (Sync.run tree)))).
Proof.
  intros tree ns Hbase. split.
  - intros lang. unfold Sync.run, Sync.main.
    set (w0 := {| disk := tree; console := [] |}).
    unfold bind at 1. cbn [log]. unfold bind at 1.
    pose proof (syncNamespaces_skip ns Config.NAMESPACES
                  {| disk := disk w0; console := console w0 ++ [Started] |} Hbase lang) as Hskip.
    destruct (for_each Config.NAMESPACES Sync.syncNamespace _) as [[[]|e] w1];
      cbn [snd disk] in *; [|exact Hskip].
    etransitivity; [|exact Hskip].
    exact (preserves_bind (fun _ => true) (log Finished) (fun _ => Sync.report)
             (preserves_log _ _) (fun _ => preserves_report _)
             w1 (NsFile lang ns) eq_refl).
  - intros Hp Hn.
    destruct (sync_run_spec tree Hp) as (w & Hrun & _ & Hcon).
    rewrite Hrun. cbn [snd]. rewrite Hcon. split.
    + right. apply in_or_app. left. apply in_flat_map. exists ns. split; [exact Hn|].
      unfold Spec.namespace_events. rewrite Hbase. now left.
    + intros n [H|H]; [discriminate|].
      apply in_app_or in H. destruct H as [H|H].
      * apply in_flat_map in H. destruct H as (ns' & _ & H).
        apply namespace_header_inv in H. destruct H as [<- [en Hen]]. congruence.
      * destruct H as [H|H]; [discriminate|].
        unfold Spec.report_events in H. destruct H as [H|H]; [discriminate|].
        apply in_map_iff in H. destruct H as (l & H & _). discriminate.
Qed.

Lemma sync_skips_namespace_without_base_witness :
  (forall lang, files (disk (snd (Sync.run Spec.orphan_common_tree))) (NsFile lang "common")
                = files Spec.orphan_common_tree (NsFile lang "common")) /\
  (Spec.parses Spec.orphan_common_tree -> In "common" Config.NAMESPACES ->
   In (WarnNoBase "common") (console (snd (Sync.run Spec.orphan_common_tree))) /\
   forall n, ~ In (NamespaceHeader "common" n)
                  (console (snd (Sync.run Spec.orphan_common_tree)))).
Proof.
  apply (sync_skips_namespace_without_base Spec.orphan_common_tree "common").
  reflexivity.
Defined.

Lemma syncNamespaces_abort (before after : list string) (ns : string) :
  NoDup (before ++ ns :: after) ->
  forall w,
    files (disk w) (NsFile "en" ns) = Some Malformed ->
    (exists e, fst (for_each (before ++ ns :: after) Sync.syncNamespace w) = Throw e) /\
    (forall lang ns', In ns' (ns :: after) ->
       files (disk (snd (for_each (before ++ ns :: after) Sync.syncNamespace w)))
             (NsFile lang ns')
       = files (disk w) (NsFile lang ns')).
Proof.
  intros Hnd w Hbad. rewrite for_each_app.
  assert (Hkept : forall p, Cover.in_namespaces before p = false ->
            files (disk (snd (for_each before Sync.syncNamespace w))) p = files (disk w) p).
  { intros p Hp.
    apply (preserves_for_each (fun q => negb (Cover.in_namespaces before q))).
    - intros n Hn. apply preserves_syncNamespace. intros l _. cbn.
      apply negb_false_iff. now apply mem_In.
    - now rewrite Hp. }
  assert (Hlater : forall lang ns', In ns' (ns :: after) ->
            Cover.in_namespaces before (NsFile lang ns') = false).
  { intros lang ns' Hl. cbn. apply mem_not_In. intros Hb.
    clear - Hnd Hb Hl. induction before as [|b before IH]; [contradiction|].
    cbn in Hnd. inversion Hnd as [|? ? Hni Hnd']; subst.
    destruct Hb as [->|Hb]; [|auto].
    apply Hni. apply in_or_app. now right. }
  destruct (for_each before Sync.syncNamespace w) as [[[]|e] w1]; cbn [snd] in Hkept.
  - assert (Hbad1 : files (disk w1) (NsFile "en" ns) = Some Malformed).
    { rewrite Hkept; [exact Hbad | apply Hlater; now left]. }
    assert (Hthrow : Sync.syncNamespace ns w1 = (Throw (SyntaxError (NsFile "en" ns)), w1)).
    { unfold Sync.syncNamespace. cbv beta iota zeta delta [bind existsFile readJson].
      rewrite Hbad1. cbv beta iota delta [negb]. now rewrite Hbad1. }
    cbn [for_each]. rewrite (bind_throw _ _ _ _ _ Hthrow). cbn [fst snd].
    split; [now eexists|]. intros lang ns' Hl. apply Hkept. now apply Hlater.
  - cbn [fst snd]. split; [now eexists|].
    intros lang ns' Hl. apply Hkept. now apply Hlater.
Qed.

Lemma sync_run_abort (tree : fs) :
  forall e w,
    for_each Config.NAMESPACES Sync.syncNamespace {| disk := tree; console := [Started] |}
    = (Throw e, w) ->
    Sync.run tree = (Throw e, w).
Proof.
  intros e w H. unfold Sync.run, Sync.main.
  unfold bind at 1. unfold log at 1. cbn [disk console app].
  unfold bind at 1. now rewrite H.
Qed.

(** X6. A malformed base file ends the run: when the base file of a declared
    namespace does not parse, the run throws, and the files of that
    namespace and of every namespace after it in [NAMESPACES] are left as
    they were, for every locale. *)
Theorem sync_malformed_base_aborts :
  forall (tree : fs) (ns : string),
    In ns Config.NAMESPACES ->
    files tree (NsFile "en" ns) = Some Malformed ->
    (exists e, fst (Sync.run tree) = Throw e) /\
    (forall lang ns', Spec.from_on Config.NAMESPACES ns ns' ->
       files (disk (snd (Sync.run tree))) (NsFile lang ns')
       = files tree (NsFile lang ns')).
Proof.
  intros tree ns Hin Hbad.
  set (w0 := {| disk := tree; console := [Started] |}).
  assert (Hrun : forall before after, Config.NAMESPACES = before ++ ns :: after ->
            (exists e, fst (Sync.run tree) = Throw e) /\
            (forall lang ns', In ns' (ns :: after) ->
               files (disk (snd (Sync.run tree))) (NsFile lang ns')
               = files tree (NsFile lang ns'))).
  { intros before after Hdec.
    pose proof NAMESPACES_NoDup as Hnd. rewrite Hdec in Hnd.
    destruct (syncNamespaces_abort before after ns Hnd w0 Hbad) as [[e He] Hf].
    rewrite <- Hdec in He, Hf.
    destruct (for_each Config.NAMESPACES Sync.syncNamespace w0) as [r w1] eqn:E.
    cbn [fst snd] in He, Hf. subst r. rewrite (sync_run_abort tree e w1 E).
    split; [now exists e | exact Hf]. }
  split.
  - destruct (in_split _ _ Hin) as (before & after & Hdec).
    exact (proj1 (Hrun before after Hdec)).
  - intros lang ns' (before & after & Hdec & Hl).
    exact (proj2 (Hrun before after Hdec) lang ns' Hl).
Qed.

Lemma sync_malformed_base_aborts_witness :
  (exists e, fst (Sync.run Cover.malformed_base_tree) = Throw e) /\
  (forall lang ns', Spec.from_on Config.NAMESPACES "error" ns' ->
     files (disk (snd (Sync.run Cover.malformed_base_tree))) (NsFile lang ns')
     = files Cover.malformed_base_tree (NsFile lang ns')).
Proof.
  apply (sync_malformed_base_aborts Cover.malformed_base_tree "error").
  - cbn. tauto.
  - reflexivity.
Defined.

Lemma fold_add_ext (f g : string -> nat) (l : list string) :
  (forall x, In x l -> f x = g x) ->
  forall a, fold_left (fun t x => t + f x) l a = fold_left (fun t x => t + g x) l a.
Proof.
  induction l as [|x l IH]; intros H a; cbn [fold_left]; [reflexivity|].
  rewrite (H x (or_introl eq_refl)). apply IH. intros y Hy. apply H. now right.
Qed.

(** X7. After a run on well-formed tables, with no target file left in a
    namespace that has no base file, every target locale has as many keys as
    the base locale in each declared namespace, and the final report prints
    the base locale's total for every locale. *)
Theorem sync_totals_agree :
  forall tree : fs,
    Spec.parses tree -> Spec.well_formed tree -> Cover.no_orphans tree ->
    exists w,
      Sync.run tree = (Ok tt, w) /\
      forall lang, In lang Sync.TARGET_LANGUAGES ->
        (forall ns, In ns Config.NAMESPACES ->
           Spec.keyCount (disk w) lang ns = Spec.keyCount (disk w) "en" ns) /\
        Spec.totalKeys (disk w) lang = Spec.totalKeys (disk w) "en" /\
        In (Total lang (Spec.totalKeys (disk w) "en")) (console w).
Proof.
  intros tree Hp Hwf Horph.
  destruct (sync_run_spec tree Hp) as (w & Hrun & Hfiles & Hcon).
  exists w. split; [exact Hrun|]. intros lang Hl.
  assert (Hcount : forall ns, In ns Config.NAMESPACES ->
            Spec.keyCount (disk w) lang ns = Spec.keyCount (disk w) "en" ns).
  { intros ns Hn. unfold Spec.keyCount.
    rewrite (Hfiles (NsFile "en" ns)), synced_base, (Hfiles (NsFile lang ns)).
    unfold Spec.synced.
    apply mem_In in Hl as Hl', Hn as Hn'. rewrite Hl', Hn'. cbn [andb].
    destruct (files tree (NsFile "en" ns)) as [[en|]|] eqn:E.
    - destruct (Hwf ns en Hn E) as (Hen & Hproto & Hlangs).
      rewrite (reconcile_converged en _ Hen (Hlangs lang Hl) Hproto).
      rewrite roundtrip_strings
        by (apply converged_strings; [exact Hen | now apply Hlangs]).
      now rewrite keys_converged.
    - exfalso. exact (Hp _ E).
    - now rewrite (Horph ns Hn E lang Hl). }
  assert (Htotal : Spec.totalKeys (disk w) lang = Spec.totalKeys (disk w) "en").
  { unfold Spec.totalKeys. now apply fold_add_ext. }
  split; [exact Hcount|]. split; [exact Htotal|].
  rewrite Hcon. right. apply in_or_app. right. right.
  unfold Spec.report_events. right. rewrite <- Htotal.
  apply in_map_iff. exists lang. split; [reflexivity | now right].
Qed.

Lemma reordered_tree_no_orphans : Cover.no_orphans Spec.reordered_tree.
Proof.
  intros ns Hn Hbase lang Hl. cbn in Hn, Hl.
  repeat (destruct Hl as [<-|Hl]; [|]); try contradiction;
    repeat (destruct Hn as [<-|Hn]; [first [discriminate Hbase | reflexivity]|]);
    contradiction.
Qed.

Lemma sync_totals_agree_witness :
  exists w,
    Sync.run Spec.reordered_tree = (Ok tt, w) /\
    forall lang, In lang Sync.TARGET_LANGUAGES ->
      (forall ns, In ns Config.NAMESPACES ->
         Spec.keyCount (disk w) lang ns = Spec.keyCount (disk w) "en" ns) /\
      Spec.totalKeys (disk w) lang = Spec.totalKeys (disk w) "en" /\
      In (Total lang (Spec.totalKeys (disk w) "en")) (console w).
Proof.
  apply (sync_totals_agree Spec.reordered_tree).
  - exact reordered_tree_parses.
  - exact reordered_tree_well_formed.
  - exact reordered_tree_no_orphans.
Defined.

End SyncMore.

(** ** The classifier and the splitter *)

Section SplitMore.
Import World.

Lemma first_segment_append (prefix rest : string) :
  JS.first_segment prefix = prefix ->
  JS.first_segment (prefix ++ "." ++ rest) = prefix.
Proof.
  induction prefix as [|c prefix IH]; cbn [JS.first_segment append]; [reflexivity|].
  destruct (Ascii.eqb c "."%char); [discriminate|].
  intros H. injection H as H. f_equal. now apply IH.
Qed.

(** X9. The classifier looks at the first segment only: whatever follows the
    first dot, a key whose first segment is a key of the prefix table goes
    to a declared namespace, never to [misc], and a key whose first segment
    is neither in the table nor a name objects inherit goes to [misc]. *)
Theorem getNamespace_by_prefix (prefix rest : string) :
  JS.first_segment prefix = prefix ->
  Split.getNamespace (prefix ++ "." ++ rest) = Split.getNamespace prefix /\
  (JS.hasOwn Split.PREFIX_TO_NAMESPACE prefix = true ->
   exists ns, Split.getNamespace (prefix ++ "." ++ rest) = JS.VString ns /\
              In ns Config.NAMESPACES /\ ns <> "misc") /\
  (JS.hasOwn Split.PREFIX_TO_NAMESPACE prefix = false ->
   JS.mem prefix JS.prototype_names = false ->
   Split.getNamespace (prefix ++ "." ++ rest) = JS.VString "misc").
Proof.
  intros Hp.
  assert (Hsame : Split.getNamespace (prefix ++ "." ++ rest) = Split.getNamespace prefix).
  { unfold Split.getNamespace. now rewrite first_segment_append, Hp. }
  split; [exact Hsame|]. rewrite Hsame. unfold Split.getNamespace. rewrite Hp.
  unfold JS.get, JS.hasOwn.
  destruct (JS.own Split.PREFIX_TO_NAMESPACE prefix) as [v|] eqn:E.
  - split; [|discriminate]. intros _. apply own_Some_In in E.
    pose proof (proj1 (Forall_forall _ _) prefix_table_values _ E)
      as (ns & Hv & Hin & Ht & Hm).
    cbn [snd] in Hv, Ht. rewrite Ht. now exists ns.
  - split; [discriminate|]. intros _ Hplain. unfold JS.inherited. rewrite Hplain.
    destruct (String.eqb_spec prefix "__proto__") as [->|_]; [discriminate | reflexivity].
Qed.

Lemma getNamespace_by_prefix_witness :
  Split.getNamespace ("settingsManager" ++ "." ++ "json.format")
    = Split.getNamespace "settingsManager" /\
  (JS.hasOwn Split.PREFIX_TO_NAMESPACE "settingsManager" = true ->
   exists ns, Split.getNamespace ("settingsManager" ++ "." ++ "json.format") = JS.VString ns /\
              In ns Config.NAMESPACES /\ ns <> "misc") /\
  (JS.hasOwn Split.PREFIX_TO_NAMESPACE "settingsManager" = false ->
   JS.mem "settingsManager" JS.prototype_names = false ->
   Split.getNamespace ("settingsManager" ++ "." ++ "json.format") = JS.VString "misc").
Proof. apply (getNamespace_by_prefix "settingsManager" "json.format"). reflexivity. Defined.

Lemma splitLanguage_partitions_witness :
  exists st w',
    Split.splitLanguage "ko" Cover.legacy_world = (Ok st, w') /\
    (forall k, In k (JS.keys Cover.legacy_table) ->
       exists ns o,
         Split.getNamespace k = JS.VString ns /\
         files (disk w') (NsFile "ko" ns) = Some (Json o) /\
         forall k', In k' (JS.keys o)
                    <-> In k' (JS.keys Cover.legacy_table)
                        /\ Split.getNamespace k' = JS.VString ns) /\
    (forall p, files (disk w') p <> files (disk Cover.legacy_world) p ->
       exists ns k, p = NsFile "ko" ns /\ In k (JS.keys Cover.legacy_table) /\
                    Split.getNamespace k = JS.VString ns).
Proof.
  apply (splitLanguage_partitions "ko" Cover.legacy_world Cover.legacy_table).
  - reflexivity.
  - intros k v Hin. cbn in Hin.
    repeat (destruct Hin as [E|Hin]; [injection E as <- <-; now eexists|]).
    contradiction.
  - intros k Hin. cbn in Hin.
    repeat (destruct Hin as [<-|Hin]; [reflexivity|]). contradiction.
Defined.

Lemma classifyAll_names (entries : JS.object) :
  forall nd nd', Split.classifyAll nd entries = Ok nd' -> map fst nd' = map fst nd.
Proof.
  induction entries as [|kv entries IH]; intros nd nd' H; cbn [Split.classifyAll] in H.
  - now injection H as <-.
  - destruct (Split.classifyEntry nd kv) as [nd1|e] eqn:E1; [|discriminate].
    rewrite (IH nd1 nd' H). unfold Split.classifyEntry in E1.
    destruct (Split.table_own nd _) as [o|] eqn:Eo.
    + injection E1 as <-. now apply (table_set_names nd _ _ o).
    + destruct (JS.defined _); [now injection E1 as <- | discriminate].
Qed.

Lemma preserves_saveTables_names (kept : path -> bool) (lang : string) (nd : Split.tables) :
  (forall ns, In ns (map fst nd) -> kept (NsFile lang ns) = false) ->
  forall st, Spec.preserves kept (Split.saveTables lang nd st).
Proof.
  induction nd as [|[ns nsData] nd IH]; intros Hk st; cbn [Split.saveTables].
  - apply preserves_ret.
  - assert (Hrest : forall n, In n (map fst nd) -> kept (NsFile lang n) = false)
      by (intros n Hn; apply Hk; now right).
    destruct (Nat.eqb (List.length (JS.keys nsData)) 0); [now apply IH|].
    apply preserves_bind; [|intros; now apply IH].
    apply preserves_writeJson. apply Hk. now left.
Qed.

Lemma preserves_splitLanguage_names (kept : path -> bool) (lang : string) :
  (forall ns, In ns Spec.partition_names -> kept (NsFile lang ns) = false) ->
  Spec.preserves kept (Split.splitLanguage lang).
Proof.
  intros Hk. unfold Split.splitLanguage. repeat frame_step.
  destruct (Split.classifyAll Split.emptyTables a) as [nd|e] eqn:E.
  - apply preserves_saveTables_names. intros ns Hn. apply Hk.
    now rewrite (classifyAll_names a _ _ E) in Hn.
  - apply preserves_throw.
Qed.

Lemma preserves_split_main (kept : path -> bool) :
  (forall p, Cover.split_domain p = true -> kept p = false) ->
  Spec.preserves kept Split.main.
Proof.
  intros Hk. unfold Split.main.
  apply preserves_bind; [apply preserves_log|]. intros _.
  apply preserves_bind.
  - assert (Hgen : forall langs all,
              (forall l, In l langs -> In l Config.LANGUAGES) ->
              Spec.preserves kept (Split.splitAll langs all)).
    { induction langs as [|lang langs IH]; intros all Hl; cbn [Split.splitAll].
      - apply preserves_ret.
      - repeat frame_step.
        + apply preserves_splitLanguage_names. intros ns Hn. apply Hk.
          cbn [Cover.split_domain]. apply andb_true_iff.
          split; apply mem_In; [apply Hl; now left | exact Hn].
        + apply preserves_for_each. intros. apply preserves_log.
        + apply IH. intros l Hin. apply Hl. now right. }
    apply Hgen. tauto.
  - intros allStats. repeat frame_step;
      try (apply preserves_for_each; intros; apply preserves_log).
Qed.

(** X13. The splitter's footprint: a run never changes or removes a legacy
    flat file, and a file it changes is a namespace file of a declared
    locale, for a declared namespace or the catch-all. *)
Theorem split_footprint :
  forall tree : fs,
    (forall lang, files (disk (snd (Split.run tree))) (Legacy lang)
                  = files tree (Legacy lang)) /\
    (forall p, files (disk (snd (Split.run tree))) p <> files tree p ->
       exists lang ns, p = NsFile lang ns /\ In lang Config.LANGUAGES /\
                       In ns (Config.NAMESPACES ++ ["misc"])).
Proof.
  intros tree.
  assert (Hkeep : forall p, Cover.split_domain p = false ->
            files (disk (snd (Split.run tree))) p = files tree p).
  { intros p Hp. unfold Split.run.
    apply (preserves_split_main (fun q => negb (Cover.split_domain q))).
    - intros q Hq. now rewrite Hq.
    - now rewrite Hp. }
  split.
  - intros lang. now apply Hkeep.
  - intros p Hp. destruct (Cover.split_domain p) eqn:E.
    + destruct p as [l|lang ns]; [discriminate|]. cbn in E.
      apply andb_true_iff in E. destruct E as [E1 E2].
      exists lang, ns. split; [reflexivity|].
      split; [now apply mem_In | now apply (proj1 (mem_In ns Spec.partition_names))].
    + exfalso. apply Hp. now apply Hkeep.
Qed.

Lemma length_keys_add_own (o : JS.object) (k : string) (v : JS.value) :
  List.length (JS.keys (JS.add_own o k v)) = S (List.length (JS.keys o)).
Proof.
  induction o as [|[k0 v0] o IH]; cbn [JS.add_own JS.keys map List.length]; [reflexivity|].
  destruct (JS.precedes k k0); cbn [JS.keys map List.length]; [reflexivity|].
  unfold JS.keys in IH. now rewrite IH.
Qed.

Lemma set_fresh (o : JS.object) (k : string) (v : JS.value) :
  JS.own o k = None -> k <> "__proto__" -> JS.set o k v = JS.add_own o k v.
Proof.
  intros Ho Hk. unfold JS.set, JS.hasOwn. rewrite Ho.
  apply String.eqb_neq in Hk. now rewrite Hk.
Qed.

Lemma sizes_table_set (nd : Split.tables) (n : string) (o o' : JS.object) :
  Split.table_own nd n = Some o ->
  Cover.sizes (Split.table_set nd n o') + List.length (JS.keys o)
  = Cover.sizes nd + List.length (JS.keys o').
Proof.
  unfold Cover.sizes, list_sum.
  induction nd as [|[n0 o0] nd IH]; cbn [Split.table_own Split.table_set]; [discriminate|].
  destruct (String.eqb n n0); cbn [map fold_right snd].
  - intros [= ->]. lia.
  - intros H. specialize (IH H). lia.
Qed.

Lemma emptyTables_faithful (data : JS.object) : Cover.faithful data Split.emptyTables [].
Proof.
  split; [reflexivity|]. split; [reflexivity|].
  intros ns o Hown. cbn in Hown.
  repeat (destruct (String.eqb ns _);
          [injection Hown as <-; split; [constructor | intros k; reflexivity]|]).
  discriminate.
Qed.

Lemma names_spec (v : JS.value) (ns : string) :
  Cover.names v ns = true <-> v = JS.VString ns.
Proof.
  destruct v; cbn; try (split; [discriminate | discriminate]).
  rewrite String.eqb_eq. split; congruence.
Qed.

(** One entry not seen before goes, with its value, to the table of its
    namespace. *)
Lemma classifyEntry_faithful (data : JS.object) (nd : Split.tables)
      (done : list string) (k : string) (v : JS.value) :
  Cover.faithful data nd done ->
  JS.own data k = Some v -> ~ In k done ->
  JS.mem (JS.first_segment k) JS.prototype_names = false ->
  exists nd', Split.classifyEntry nd (k, v) = Ok nd' /\
              Cover.faithful data nd' (k :: done).
Proof.
  intros (Hnames & Hsize & Htabs) Hdata Hnew Hplain.
  destruct (getNamespace_off_prototype k Hplain) as (ns & Hns & Hin & _).
  destruct (table_own_names nd ns) as [o Ho]; [now rewrite Hnames|].
  destruct (Htabs ns o Ho) as [Hnd Hown].
  assert (Hfresh : JS.own o k = None).
  { rewrite Hown. apply mem_not_In in Hnew. now rewrite Hnew. }
  assert (Hk : k <> "__proto__") by (now apply plain_prefix_not_proto).
  unfold Split.classifyEntry, Split.getKeyWithinNamespace. cbn [fst snd].
  rewrite Hns. cbn [JS.to_property_key]. rewrite Ho, (set_fresh o k v Hfresh Hk).
  eexists. split; [reflexivity|]. split; [|split].
  - now rewrite (table_set_names nd ns _ o Ho).
  - pose proof (sizes_table_set nd ns o (JS.add_own o k v) Ho) as Hs.
    rewrite length_keys_add_own in Hs. cbn [List.length]. lia.
  - intros ns' o' Hown'. rewrite table_own_set in Hown'.
    destruct (String.eqb_spec ns' ns) as [->|Hne].
    + injection Hown' as <-. split.
      * apply add_own_NoDup; [now apply own_None | exact Hnd].
      * intros k'. rewrite own_add_own by (now apply own_None).
        unfold JS.mem. cbn [existsb]. fold (JS.mem k' done).
        destruct (String.eqb_spec k' k) as [->|Hk'].
        -- cbn [orb andb]. rewrite Hns. cbn [Cover.names].
           now rewrite String.eqb_refl.
        -- cbn [orb]. apply Hown.
    + destruct (Htabs ns' o' Hown') as [Hnd' Hown'']. split; [exact Hnd'|].
      intros k'. rewrite Hown''. unfold JS.mem. cbn [existsb]. fold (JS.mem k' done).
      destruct (String.eqb_spec k' k) as [->|Hk']; [|reflexivity].
      cbn [orb andb]. apply mem_not_In in Hnew. rewrite Hnew. cbn [andb].
      rewrite Hns. cbn [Cover.names].
      destruct (String.eqb_spec ns ns'); [congruence | reflexivity].
Qed.

Lemma classifyAll_faithful (data : JS.object) :
  NoDup (JS.keys data) -> Spec.plain_prefixes data ->
  exists nd, Split.classifyAll Split.emptyTables data = Ok nd /\
             Cover.faithful data nd (rev (JS.keys data)).
Proof.
  intros Hnd Hplain.
  assert (Hgen : forall entries nd done,
            Cover.faithful data nd done ->
            NoDup (JS.keys entries) ->
            (forall k v, In (k, v) entries ->
               JS.own data k = Some v /\ ~ In k done /\
               JS.mem (JS.first_segment k) JS.prototype_names = false) ->
            exists nd', Split.classifyAll nd entries = Ok nd' /\
                        Cover.faithful data nd' (rev (JS.keys entries) ++ done)).
  { induction entries as [|[k v] entries IH]; intros nd done Hf Hnde He.
    - exists nd. split; [reflexivity | exact Hf].
    - destruct (He k v (or_introl eq_refl)) as (Hd & Hnew & Hp).
      destruct (classifyEntry_faithful data nd done k v Hf Hd Hnew Hp) as (nd1 & H1 & Hf1).
      cbn [JS.keys map fst] in Hnde. inversion Hnde as [|? ? Hni Hnde']; subst.
      destruct (IH nd1 (k :: done) Hf1 Hnde') as (nd' & H' & Hf').
      { intros k' v' Hin'. destruct (He k' v' (or_intror Hin')) as (Hd' & Hnew' & Hp').
        split; [exact Hd'|]. split; [|exact Hp'].
        intros [<-|H]; [|contradiction].
        apply Hni. change k with (fst (k, v')). now apply in_map. }
      exists nd'. cbn [Split.classifyAll]. rewrite H1. split; [exact H'|].
      cbn [JS.keys map fst rev]. rewrite <- app_assoc. exact Hf'. }
  destruct (Hgen data Split.emptyTables [] (emptyTables_faithful data) Hnd)
    as (nd & H & Hf).
  - intros k v Hin. split; [now apply In_own|]. split; [tauto|].
    apply Hplain. change k with (fst (k, v)). now apply in_map.
  - exists nd. split; [exact H|]. now rewrite app_nil_r in Hf.
Qed.

Lemma digits_no_dot (s : string) :
  forall acc n, JS.digits_value acc s = Some n -> JS.first_segment s = s.
Proof.
  induction s as [|c s IH]; intros acc n; cbn [JS.digits_value JS.first_segment]; [reflexivity|].
  destruct (Ascii.eqb_spec c "."%char) as [->|_]; [discriminate|].
  destruct (JS.digit_of c); [|discriminate].
  intros H. f_equal. exact (IH _ _ H).
Qed.

Lemma array_index_no_dot (k : string) (n : N) :
  JS.array_index k = Some n -> JS.first_segment k = k.
Proof.
  unfold JS.array_index. destruct k as [|c rest]; [discriminate|].
  destruct (Ascii.eqb_spec c "0"%char) as [->|_].
  - destruct rest; [reflexivity | discriminate].
  - destruct (JS.digits_value 0 (String c rest)) as [m|] eqn:E; [|discriminate].
    intros _. exact (digits_no_dot _ _ _ E).
Qed.

Lemma prefix_table_not_index (k : string) (v : JS.value) :
  In (k, v) Split.PREFIX_TO_NAMESPACE -> JS.array_index k = None.
Proof.
  assert (H : forallb (fun p => match JS.array_index (fst p) with
                                | None => true
                                | Some _ => false
                                end) Split.PREFIX_TO_NAMESPACE = true)
    by (vm_compute; reflexivity).
  rewrite forallb_forall in H. intros Hin. specialize (H _ Hin). cbn [fst] in H.
  now destruct (JS.array_index k).
Qed.

(** A key classified into a declared namespace has its first segment in the
    prefix table; it is no array index and not [__proto__]. *)
Lemma declared_key (k ns : string) :
  Split.getNamespace k = JS.VString ns -> In ns Config.NAMESPACES ->
  JS.hasOwn Split.PREFIX_TO_NAMESPACE (JS.first_segment k) = true /\
  JS.array_index k = None /\ k <> "__proto__".
Proof.
  intros Hns Hin.
  assert (Hown : JS.hasOwn Split.PREFIX_TO_NAMESPACE (JS.first_segment k) = true).
  { unfold Split.getNamespace, JS.get, JS.hasOwn in *.
    destruct (JS.own Split.PREFIX_TO_NAMESPACE (JS.first_segment k)); [reflexivity|].
    exfalso. unfold JS.inherited in Hns.
    destruct (String.eqb (JS.first_segment k) "__proto__"); [discriminate|].
    destruct (JS.mem (JS.first_segment k) JS.prototype_names); [discriminate|].
    cbn in Hns. injection Hns as <-. cbn in Hin. intuition discriminate. }
  split; [exact Hown|]. split.
  - destruct (JS.array_index k) as [n|] eqn:E; [|reflexivity]. exfalso.
    rewrite (array_index_no_dot k n E) in Hown. unfold JS.hasOwn in Hown.
    destruct (JS.own Split.PREFIX_TO_NAMESPACE k) as [v|] eqn:Eo; [|discriminate].
    apply own_Some_In, prefix_table_not_index in Eo. congruence.
  - intros ->. discriminate Hown.
Qed.

Lemma key_order_snoc (l : list string) (k : string) :
  Spec.key_order l -> JS.array_index k = None -> Spec.key_order (l ++ [k]).
Proof.
  intros Hl Hk. induction l as [|x l IH]; cbn [app Spec.key_order].
  - split; [intros k' [] | exact I].
  - cbn [Spec.key_order] in Hl. destruct Hl as [H1 H2]. split; [|now apply IH].
    intros k' Hin. apply in_app_or in Hin. destruct Hin as [Hin|[<-|[]]].
    + now apply H1.
    + unfold JS.precedes. now rewrite Hk.
Qed.

(** Assigning names that are new, in a row, appends them in that order. *)
Lemma fold_set_names (g : string -> JS.value) (l : list string) :
  forall acc,
    NoDup l -> (forall k, In k l -> ~ In k (JS.keys acc)) ->
    (forall k, In k l -> JS.array_index k = None /\ k <> "__proto__") ->
    Spec.key_order (JS.keys acc) ->
    fold_left (fun s key => JS.set s key (g key)) l acc
    = acc ++ map (fun k => (k, g k)) l.
Proof.
  induction l as [|k l IH]; intros acc Hnd Hnew Hname Hord; cbn [fold_left map].
  - now rewrite app_nil_r.
  - inversion Hnd as [|? ? Hni Hnd']; subst.
    destruct (Hname k (or_introl eq_refl)) as [Hidx Hproto].
    assert (Hord' : Spec.key_order (JS.keys acc ++ [k])) by (now apply key_order_snoc).
    rewrite (set_last acc k (g k) Hproto (Hnew k (or_introl eq_refl)) Hord').
    rewrite IH.
    + now rewrite <- app_assoc.
    + exact Hnd'.
    + intros k' Hk'. unfold JS.keys. rewrite map_app, in_app_iff. cbn.
      intros [H|[<-|[]]]; [|contradiction].
      apply (Hnew k'); [now right | exact H].
    + intros k' Hk'. apply Hname. now right.
    + unfold JS.keys. rewrite map_app. exact Hord'.
Qed.

(** Without array indices among its keys, the sorted copy of a table lists
    the keys in ascending order, each with its value. *)
Lemma sortTable_sorted (o : JS.object) :
  NoDup (JS.keys o) ->
  (forall k, In k (JS.keys o) -> JS.array_index k = None /\ k <> "__proto__") ->
  Split.sortTable o = map (fun k => (k, JS.get o k)) (JS.sort (JS.keys o)).
Proof.
  intros Hnd Hname. unfold Split.sortTable.
  rewrite fold_set_names; [reflexivity | | | | exact I].
  - exact (Permutation_NoDup (Permutation_sym (sort_perm _)) Hnd).
  - intros k _ [].
  - intros k Hk. apply Hname. now apply sort_In.
Qed.

Lemma set_NoDup (o : JS.object) (k : string) (v : JS.value) :
  NoDup (JS.keys o) -> NoDup (JS.keys (JS.set o k v)).
Proof.
  intros Hnd. unfold JS.set. destruct (JS.hasOwn o k) eqn:E.
  - now rewrite keys_replace_own.
  - destruct (String.eqb k "__proto__"); [exact Hnd|].
    apply add_own_NoDup; [now apply hasOwn_not_In | exact Hnd].
Qed.

Lemma sortTable_NoDup (o : JS.object) : NoDup (JS.keys (Split.sortTable o)).
Proof.
  unfold Split.sortTable.
  assert (Hgen : forall l acc, NoDup (JS.keys acc) ->
            NoDup (JS.keys (fold_left (fun s key => JS.set s key (JS.get o key)) l acc))).
  { induction l as [|k l IH]; intros acc Hacc; cbn [fold_left]; [exact Hacc|].
    apply IH. now apply set_NoDup. }
  apply Hgen. constructor.
Qed.

Lemma stats_set_fresh (st : Split.stats) (k : string) (n : nat) :
  ~ In k (map fst st) -> Split.stats_set st k n = st ++ [(k, n)].
Proof.
  induction st as [|[k' n'] st IH]; cbn [Split.stats_set map fst app In]; intros H.
  - reflexivity.
  - destruct (String.eqb_spec k k') as [->|Hne]; [tauto|].
    rewrite IH by tauto. reflexivity.
Qed.

(** The statistics the saving loop returns. *)
Lemma saveTables_stats (lang : string) (nd : Split.tables) :
  NoDup (map fst nd) ->
  forall st w,
    (forall ns, In ns (map fst nd) -> ~ In ns (map fst st)) ->
    fst (Split.saveTables lang nd st w) = Ok (st ++ Cover.table_stats nd).
Proof.
  unfold Cover.table_stats.
  induction nd as [|[ns o] nd IH]; intros Hnd st w Hfresh; cbn [Split.saveTables filter map snd].
  - now rewrite app_nil_r.
  - cbn [map fst] in Hnd. inversion Hnd as [|? ? Hni Hnd']; subst.
    destruct (Nat.eqb (List.length (JS.keys o)) 0) eqn:E; cbn [negb].
    + apply IH; [exact Hnd'|]. intros n Hn. apply Hfresh. now right.
    + erewrite bind_ok by reflexivity.
      rewrite IH.
      * rewrite stats_set_fresh by (apply Hfresh; now left).
        cbn [map fst]. now rewrite <- app_assoc.
      * exact Hnd'.
      * intros n Hn. rewrite stats_set_fresh by (apply Hfresh; now left).
        rewrite map_app, in_app_iff. cbn. intros [H|[<-|[]]]; [|contradiction].
        apply (Hfresh n); [now right | exact H].
Qed.

Lemma table_stats_sum (nd : Split.tables) :
  list_sum (map snd (Cover.table_stats nd)) = Cover.sizes nd.
Proof.
  unfold Cover.table_stats, Cover.sizes, list_sum.
  induction nd as [|[ns o] nd IH]; cbn [filter map snd fold_right]; [reflexivity|].
  destruct (Nat.eqb (List.length (JS.keys o)) 0) eqn:E; cbn [negb map snd fst fold_right].
  - apply Nat.eqb_eq in E. rewrite E, IH. reflexivity.
  - now rewrite IH.
Qed.

Lemma table_own_In (nd : Split.tables) (ns : string) (o : JS.object) :
  NoDup (map fst nd) -> In (ns, o) nd -> Split.table_own nd ns = Some o.
Proof.
  induction nd as [|[n0 o0] nd IH]; cbn [map fst In Split.table_own]; [tauto|].
  intros Hnd [E|Hin].
  - injection E as -> ->. now rewrite String.eqb_refl.
  - inversion Hnd as [|? ? Hni Hnd']; subst.
    destruct (String.eqb_spec ns n0) as [->|]; [|auto].
    exfalso. apply Hni. change n0 with (fst (n0, o)). now apply in_map.
Qed.

(** Splitting one locale, given the tables the classification yields. *)
Lemma splitLanguage_run (lang : string) (w : world) (data : JS.object) (nd : Split.tables) :
  files (disk w) (Legacy lang) = Some (Json data) ->
  Split.classifyAll Split.emptyTables data = Ok nd ->
  map fst nd = Spec.partition_names ->
  exists w',
    Split.splitLanguage lang w = (Ok (Cover.table_stats nd), w') /\
    (forall ns o, Split.table_own nd ns = Some o -> JS.keys o <> [] ->
       files (disk w') (NsFile lang ns)
       = Some (Json (JS.json_roundtrip (Split.sortTable o)))) /\
    (forall p, (forall ns o, Split.table_own nd ns = Some o -> JS.keys o <> [] ->
                             p <> NsFile lang ns) ->
       files (disk w') p = files (disk w) p).
Proof.
  intros Hfile Hclass Hnames.
  unfold Split.splitLanguage.
  erewrite bind_ok by (unfold readJson; rewrite Hfile; reflexivity).
  erewrite bind_ok by reflexivity.
  set (w1 := snd (when (negb (dirs (disk w) lang)) (mkdir lang) w)).
  assert (Hw1 : when (negb (dirs (disk w) lang)) (mkdir lang) w = (Ok tt, w1))
    by (unfold w1; destruct (dirs (disk w) lang); reflexivity).
  assert (Hf1 : forall p, files (disk w1) p = files (disk w) p)
    by (intros p; unfold w1; destruct (dirs (disk w) lang); reflexivity).
  erewrite bind_ok by exact Hw1. rewrite Hclass.
  pose proof partition_names_NoDup as Hnd. rewrite <- Hnames in Hnd.
  destruct (saveTables_run lang nd Hnd [] w1) as (st & w' & Hrun & _ & Hin & Hout).
  pose proof (saveTables_stats lang nd Hnd [] w1 (fun _ _ H => H)) as Hst.
  rewrite Hrun in Hst. cbn [fst app] in Hst. injection Hst as ->.
  exists w'. split; [exact Hrun|]. split; [exact Hin|].
  intros p Hp. rewrite (Hout p Hp). apply Hf1.
Qed.

(** What a table of the classification holds, in terms of the flat table. *)
Lemma faithful_table (data : JS.object) (nd : Split.tables) (ns : string) (t : JS.object) :
  Spec.table data -> Spec.plain_prefixes data ->
  Cover.faithful data nd (rev (JS.keys data)) ->
  Split.table_own nd ns = Some t ->
  NoDup (JS.keys t) /\ Spec.all_strings t /\ ~ In "__proto__" (JS.keys t) /\
  (forall k, In k (JS.keys t) ->
     In k (JS.keys data) /\ Split.getNamespace k = JS.VString ns /\
     JS.own t k = JS.own data k).
Proof.
  intros Hdata Hplain (_ & _ & Htabs) Hown.
  destruct (Htabs ns t Hown) as [Hnd Hval].
  assert (Hkeys : forall k, In k (JS.keys t) ->
            In k (JS.keys data) /\ Split.getNamespace k = JS.VString ns /\
            JS.own t k = JS.own data k).
  { intros k Hk. apply In_keys_own in Hk. rewrite Hval in Hk |- *.
    destruct (JS.mem k (rev (JS.keys data))) eqn:Em; [|cbn in Hk; congruence].
    destruct (Cover.names (Split.getNamespace k) ns) eqn:En; [|cbn in Hk; congruence].
    cbn [andb]. apply mem_In, in_rev in Em. apply names_spec in En. tauto. }
  split; [exact Hnd|]. split; [|split; [|exact Hkeys]].
  - intros k v Hin.
    assert (Hk : In k (JS.keys t)) by (change k with (fst (k, v)); now apply in_map).
    destruct (Hkeys k Hk) as (_ & _ & Heq).
    rewrite (In_own t k v Hnd Hin) in Heq. symmetry in Heq.
    exact (Spec.table_strings data Hdata k v (own_Some_In _ _ _ Heq)).
  - intros Hp. destruct (Hkeys _ Hp) as (Hd & _ & _).
    exact (plain_prefix_not_proto _ (Hplain _ Hd) eq_refl).
Qed.

(** X11. Away from the names every object inherits, the file the splitter
    writes for a declared namespace lists its keys in ascending order,
    without repetition, and each key of the flat table is there with the
    value it had. *)
Theorem split_declared_files_sorted (lang : string) (w : world) (data : JS.object) :
  files (disk w) (Legacy lang) = Some (Json data) ->
  Spec.table data -> Spec.plain_prefixes data ->
  exists st w',
    Split.splitLanguage lang w = (Ok st, w') /\
    forall k ns,
      In k (JS.keys data) -> Split.getNamespace k = JS.VString ns ->
      In ns Config.NAMESPACES ->
      exists o,
        files (disk w') (NsFile lang ns) = Some (Json o) /\
        Spec.ascending (JS.keys o) /\ NoDup (JS.keys o) /\
        JS.own o k = JS.own data k.
Proof.
  intros Hfile Hdata Hplain.
  destruct (classifyAll_faithful data (Spec.table_nodup data Hdata) Hplain)
    as (nd & Hclass & Hfaith).
  destruct (splitLanguage_run lang w data nd Hfile Hclass (proj1 Hfaith))
    as (w' & Hrun & Hin & _).
  exists (Cover.table_stats nd), w'. split; [exact Hrun|].
  intros k ns Hk Hns Hdecl.
  destruct (table_own_names nd ns) as [t Ht].
  { rewrite (proj1 Hfaith). apply in_or_app. now left. }
  destruct (faithful_table data nd ns t Hdata Hplain Hfaith Ht)
    as (Hnd & Hstr & Hproto & Hkeys).
  assert (Hkt : In k (JS.keys t)).
  { apply In_keys_own. destruct Hfaith as (_ & _ & Htabs).
    rewrite (proj2 (Htabs ns t Ht) k).
    replace (JS.mem k (rev (JS.keys data))) with true
      by (symmetry; apply mem_In; now apply in_rev in Hk).
    replace (Cover.names (Split.getNamespace k) ns) with true
      by (symmetry; now apply names_spec).
    cbn [andb]. apply In_keys_own. exact Hk. }
  assert (Hsorted : Split.sortTable t
                    = map (fun k' => (k', JS.get t k')) (JS.sort (JS.keys t))).
  { apply sortTable_sorted; [exact Hnd|]. intros k' Hk'.
    destruct (Hkeys k' Hk') as (_ & Hns' & _).
    destruct (declared_key k' ns Hns' Hdecl) as (_ & H1 & H2). now split. }
  exists (Split.sortTable t). split; [|split; [|split]].
  - rewrite (Hin ns t Ht) by (intros Hnil; rewrite Hnil in Hkt; contradiction).
    rewrite roundtrip_strings; [reflexivity|].
    exact (proj1 (sortTable_spec t Hstr Hproto)).
  - rewrite Hsorted. unfold JS.keys. rewrite map_map. cbn [fst]. rewrite map_id.
    apply sort_ascending.
  - apply sortTable_NoDup.
  - rewrite Hsorted, own_tabulate.
    replace (JS.mem k (JS.sort (JS.keys t))) with true
      by (symmetry; apply mem_In; now apply sort_In).
    destruct (Hkeys k Hkt) as (_ & _ & Heq). rewrite <- Heq.
    unfold JS.get. apply In_keys_own in Hkt.
    destruct (JS.own t k); [reflexivity | congruence].
Qed.

Lemma legacy_table_plain : Spec.plain_prefixes Cover.legacy_table.
Proof.
  intros k Hin. cbn in Hin.
  repeat (destruct Hin as [<-|Hin]; [reflexivity|]). contradiction.
Qed.

Lemma split_declared_files_sorted_witness :
  exists st w',
    Split.splitLanguage "ko" Cover.legacy_world = (Ok st, w') /\
    forall k ns,
      In k (JS.keys Cover.legacy_table) -> Split.getNamespace k = JS.VString ns ->
      In ns Config.NAMESPACES ->
      exists o,
        files (disk w') (NsFile "ko" ns) = Some (Json o) /\
        Spec.ascending (JS.keys o) /\ NoDup (JS.keys o) /\
        JS.own o k = JS.own Cover.legacy_table k.
Proof.
  apply (split_declared_files_sorted "ko" Cover.legacy_world Cover.legacy_table).
  - reflexivity.
  - now apply is_table_sound.
  - exact legacy_table_plain.
Defined.

(** X12. Away from the names every object inherits, the statistics the
    splitter returns for a locale count every key of the flat table once:
    the counts add up to the number of keys, and each entry is a non-empty
    namespace with the number of keys of the file written for it. *)
Theorem split_stats_count (lang : string) (w : world) (data : JS.object) :
  files (disk w) (Legacy lang) = Some (Json data) ->
  Spec.table data -> Spec.plain_prefixes data ->
  exists st w',
    Split.splitLanguage lang w = (Ok st, w') /\
    list_sum (map snd st) = List.length (JS.keys data) /\
    forall ns n, In (ns, n) st ->
      0 < n /\ In ns (Config.NAMESPACES ++ ["misc"]) /\
      exists o, files (disk w') (NsFile lang ns) = Some (Json o) /\
                List.length (JS.keys o) = n.
Proof.
  intros Hfile Hdata Hplain.
  destruct (classifyAll_faithful data (Spec.table_nodup data Hdata) Hplain)
    as (nd & Hclass & Hfaith).
  destruct (splitLanguage_run lang w data nd Hfile Hclass (proj1 Hfaith))
    as (w' & Hrun & Hin & _).
  exists (Cover.table_stats nd), w'. split; [exact Hrun|]. split.
  - rewrite table_stats_sum. destruct Hfaith as (_ & Hsize & _).
    now rewrite Hsize, length_rev.
  - intros ns n Hst. unfold Cover.table_stats in Hst.
    apply in_map_iff in Hst. destruct Hst as ([ns' t] & Heq & Hfil).
    cbn [fst snd] in Heq. injection Heq as -> <-.
    apply filter_In in Hfil. destruct Hfil as [Hnd_in Hne]. cbn [snd] in Hne.
    apply negb_true_iff, Nat.eqb_neq in Hne.
    pose proof partition_names_NoDup as Hnames. rewrite <- (proj1 Hfaith) in Hnames.
    pose proof (table_own_In nd ns t Hnames Hnd_in) as Ht.
    destruct (faithful_table data nd ns t Hdata Hplain Hfaith Ht)
      as (Hnd & Hstr & Hproto & _).
    split; [lia|]. split.
    + fold Spec.partition_names. rewrite <- (proj1 Hfaith).
      change ns with (fst (ns, t)). now apply in_map.
    + exists (Split.sortTable t). split.
      * rewrite (Hin ns t Ht) by (intros Hnil; rewrite Hnil in Hne; now apply Hne).
        rewrite roundtrip_strings; [reflexivity|].
        exact (proj1 (sortTable_spec t Hstr Hproto)).
      * apply Permutation_length. apply NoDup_Permutation.
        -- apply sortTable_NoDup.
        -- exact Hnd.
        -- exact (proj2 (sortTable_spec t Hstr Hproto)).
Qed.

Lemma split_stats_count_witness :
  exists st w',
    Split.splitLanguage "ko" Cover.legacy_world = (Ok st, w') /\
    list_sum (map snd st) = List.length (JS.keys Cover.legacy_table) /\
    forall ns n, In (ns, n) st ->
      0 < n /\ In ns (Config.NAMESPACES ++ ["misc"]) /\
      exists o, files (disk w') (NsFile "ko" ns) = Some (Json o) /\
                List.length (JS.keys o) = n.
Proof.
  apply (split_stats_count "ko" Cover.legacy_world Cover.legacy_table).
  - reflexivity.
  - now apply is_table_sound.
  - exact legacy_table_plain.
Defined.

End SplitMore.

(** ** The type generator *)

Section TypeGenMore.
Import World.

Lemma upper_no_separator (c : ascii) :
  Ascii.eqb c "-"%char || Ascii.eqb c "_"%char = false ->
  Ascii.eqb (TypeGen.upper c) "-"%char || Ascii.eqb (TypeGen.upper c) "_"%char = false.
Proof. destruct c as [[] [] [] [] [] [] [] []]; intros H; (exact H || reflexivity). Qed.

Lemma upper_upper (c : ascii) : TypeGen.upper (TypeGen.upper c) = TypeGen.upper c.
Proof. destruct c as [[] [] [] [] [] [] [] []]; reflexivity. Qed.

Lemma pascal_no_separator (s : string) :
  forall start, Cover.has_separator (TypeGen.pascal start s) = false.
Proof.
  induction s as [|c s IH]; intros start; cbn [TypeGen.pascal]; [reflexivity|].
  destruct (Ascii.eqb c "-"%char || Ascii.eqb c "_"%char) eqn:E; [apply IH|].
  cbn [Cover.has_separator]. rewrite IH, orb_false_r.
  destruct start; [now apply upper_no_separator | exact E].
Qed.

Lemma pascal_plain (s : string) :
  Cover.has_separator s = false -> TypeGen.pascal false s = s.
Proof.
  induction s as [|c s IH]; cbn [TypeGen.pascal Cover.has_separator]; [reflexivity|].
  intros H. apply orb_false_iff in H. destruct H as [H1 H2].
  rewrite H1. now rewrite IH.
Qed.

Lemma upper_ascii (c : ascii) :
  (N_of_ascii c <? 128)%N = true -> (N_of_ascii (TypeGen.upper c) <? 128)%N = true.
Proof. destruct c as [[] [] [] [] [] [] [] []]; intros H; (exact H || reflexivity). Qed.

Lemma pascal_ascii (s : string) :
  forall start, TypeGen.ascii_only s = true ->
                TypeGen.ascii_only (TypeGen.pascal start s) = true.
Proof.
  induction s as [|c s IH]; intros start; cbn [TypeGen.pascal TypeGen.ascii_only];
    [reflexivity|].
  intros H. apply andb_true_iff in H. destruct H as [Hc Hs].
  destruct (Ascii.eqb c "-"%char || Ascii.eqb c "_"%char); [now apply IH|].
  cbn [TypeGen.ascii_only]. rewrite (IH false Hs), andb_true_r.
  destruct start; [now apply upper_ascii | exact Hc].
Qed.

(** The names the generator turns into type names are written in ASCII. *)
Lemma NAMESPACES_ascii : forallb TypeGen.ascii_only Config.NAMESPACES = true.
Proof. reflexivity. Qed.

(** X14. The type name the generator derives from a name written in ASCII
    is written in ASCII, contains no separator, and deriving it again
    changes nothing. *)
Theorem toPascalCase_clean (s : string) :
  TypeGen.ascii_only s = true ->
  TypeGen.ascii_only (TypeGen.toPascalCase s) = true /\
  Cover.has_separator (TypeGen.toPascalCase s) = false /\
  TypeGen.toPascalCase (TypeGen.toPascalCase s) = TypeGen.toPascalCase s.
Proof.
  intros Hs. unfold TypeGen.toPascalCase.
  split; [now apply pascal_ascii|]. split; [apply pascal_no_separator|].
  clear Hs.
  induction s as [|c s IH]; cbn [TypeGen.pascal]; [reflexivity|].
  destruct (Ascii.eqb c "-"%char || Ascii.eqb c "_"%char) eqn:E; [exact IH|].
  cbn [TypeGen.pascal]. rewrite (upper_no_separator c E), upper_upper.
  now rewrite (pascal_plain _ (pascal_no_separator s false)).
Qed.

Lemma toPascalCase_clean_witness :
  (TypeGen.ascii_only (TypeGen.toPascalCase "recent-edits_list") = true /\
   Cover.has_separator (TypeGen.toPascalCase "recent-edits_list") = false /\
   TypeGen.toPascalCase (TypeGen.toPascalCase "recent-edits_list")
   = TypeGen.toPascalCase "recent-edits_list") /\
  TypeGen.toPascalCase "recent-edits_list" = "RecentEditsList".
Proof.
  split; [|reflexivity].
  apply (toPascalCase_clean "recent-edits_list"). reflexivity.
Defined.

Lemma map_has_In {A} (m : list (string * A)) (k : string) :
  TypeGen.map_has m k = true <-> In k (map fst m).
Proof.
  induction m as [|[k' a] m IH]; cbn [TypeGen.map_has map fst In].
  - split; [discriminate | tauto].
  - rewrite orb_true_iff, IH, String.eqb_eq. intuition.
Qed.

Lemma map_push_names (m : list (string * list string)) (k x : string) :
  map fst (TypeGen.map_push m k x) = map fst m.
Proof.
  induction m as [|[k' g] m IH]; cbn [TypeGen.map_push map fst]; [reflexivity|].
  destruct (String.eqb k k'); cbn [map fst]; [reflexivity | now rewrite IH].
Qed.

Lemma In_map_push (m : list (string * list string)) (q x p : string) (g : list string) :
  NoDup (map fst m) ->
  In (p, g) (TypeGen.map_push m q x) ->
  (p <> q /\ In (p, g) m) \/ (p = q /\ exists g0, In (q, g0) m /\ g = g0 ++ [x]).
Proof.
  induction m as [|[k' g'] m IH]; cbn [TypeGen.map_push map fst In]; [tauto|].
  intros Hnd. inversion Hnd as [|? ? Hni Hnd']; subst.
  destruct (String.eqb_spec q k') as [->|Hne].
  - intros [E|Hin].
    + injection E as <- <-. right. split; [reflexivity|]. exists g'. split; [now left | reflexivity].
    + left. split; [|now right]. intros ->. apply Hni.
      change k' with (fst (k', g)). now apply in_map.
  - intros [E|Hin].
    + injection E as <- <-. left. split; [congruence | now left].
    + destruct (IH Hnd' Hin) as [[H1 H2]|[H1 (g0 & H2 & H3)]].
      * left. split; [exact H1 | now right].
      * right. split; [exact H1|]. exists g0. split; [now right | exact H3].
Qed.

Lemma with_prefix_snoc (p x : string) (done : list string) :
  Cover.with_prefix p (done ++ [x])
  = Cover.with_prefix p done
    ++ (if String.eqb (JS.first_segment x) p then [x] else []).
Proof. unfold Cover.with_prefix. rewrite filter_app. reflexivity. Qed.

Lemma group_step (groups : list (string * list string)) (done : list string) (x : string) :
  Cover.grouped groups done ->
  Cover.grouped
    (let prefix := JS.first_segment x in
     let groups' := if negb (TypeGen.map_has groups prefix)
                    then TypeGen.map_set groups prefix [] else groups in
     TypeGen.map_push groups' prefix x)
    (done ++ [x]).
Proof.
  intros (Hnd & Hmem & Hcon). cbv zeta.
  set (q := JS.first_segment x).
  set (groups1 := if negb (TypeGen.map_has groups q)
                  then TypeGen.map_set groups q [] else groups).
  assert (H1 : NoDup (map fst groups1) /\
               (forall p, In p (map fst groups1)
                          <-> (exists k, In k done /\ JS.first_segment k = p) \/ p = q) /\
               (forall p g, In (p, g) groups1 -> g = Cover.with_prefix p done)).
  { unfold groups1. destruct (TypeGen.map_has groups q) eqn:E; cbn [negb].
    - apply map_has_In in E. split; [exact Hnd|]. split; [|exact Hcon].
      intros p. rewrite Hmem. split; [tauto|]. intros [H| ->]; [exact H|].
      now apply Hmem.
    - assert (Hq : ~ In q (map fst groups)).
      { intros H. apply map_has_In in H. congruence. }
      rewrite (map_set_fresh groups q [] Hq). rewrite map_app. cbn [map fst].
      split; [|split].
      + apply NoDup_app_remove_l with (l := []). cbn [app].
        apply Permutation_NoDup with (l := q :: map fst groups).
        * apply Permutation_cons_append.
        * now constructor.
      + intros p. rewrite in_app_iff, Hmem. cbn [In]. intuition.
      + intros p g Hin. apply in_app_or in Hin. destruct Hin as [Hin|[E'|[]]].
        * now apply Hcon.
        * injection E' as <- <-. unfold Cover.with_prefix. symmetry.
          apply filter_none. intros k Hk.
          destruct (String.eqb_spec (JS.first_segment k) q) as [Heq|]; [|reflexivity].
          exfalso. apply Hq, Hmem. now exists k. }
  destruct H1 as (Hnd1 & Hmem1 & Hcon1).
  split; [|split].
  - now rewrite map_push_names.
  - intros p. rewrite map_push_names, Hmem1. split.
    + intros [(k & Hk & Hp)| ->].
      * exists k. split; [apply in_or_app; now left | exact Hp].
      * exists x. split; [apply in_or_app; right; now left | reflexivity].
    + intros (k & Hk & Hp). apply in_app_or in Hk. destruct Hk as [Hk|[<-|[]]].
      * left. now exists k.
      * right. now symmetry.
  - intros p g Hin. rewrite with_prefix_snoc. fold q.
    destruct (In_map_push groups1 q x p g Hnd1 Hin) as [[Hne Hg]|[-> (g0 & Hg & ->)]].
    + apply String.eqb_neq in Hne. rewrite String.eqb_sym in Hne. rewrite Hne.
      rewrite app_nil_r. now apply Hcon1.
    + rewrite String.eqb_refl. f_equal. now apply Hcon1.
Qed.

Lemma group_fold (ks : list string) :
  forall groups done,
    Cover.grouped groups done ->
    Cover.grouped
      (fold_left (fun groups key =>
                    let prefix := JS.first_segment key in
                    let groups' := if negb (TypeGen.map_has groups prefix)
                                   then TypeGen.map_set groups prefix []
                                   else groups in
                    TypeGen.map_push groups' prefix key) ks groups)
      (done ++ ks).
Proof.
  induction ks as [|x ks IH]; intros groups done Hg; cbn [fold_left].
  - now rewrite app_nil_r.
  - replace (done ++ x :: ks) with ((done ++ [x]) ++ ks)
      by (now rewrite <- app_assoc).
    apply IH. now apply group_step.
Qed.

Lemma grouped_nil : Cover.grouped [] [].
Proof.
  split; [constructor|]. split; [|intros p g []].
  intros p. cbn. split; [tauto | intros (k & [] & _)].
Qed.

(** X15. The grouping by prefix makes one group per first segment that
    occurs among the keys, without repetition, and a group holds exactly the
    keys with that first segment, in the order they came in. *)
Theorem groupKeysByPrefix_groups (keys : list string) :
  NoDup (map fst (TypeGen.groupKeysByPrefix keys)) /\
  (forall p, In p (map fst (TypeGen.groupKeysByPrefix keys))
             <-> exists k, In k keys /\ JS.first_segment k = p) /\
  (forall p g, In (p, g) (TypeGen.groupKeysByPrefix keys) ->
     g = filter (fun k => String.eqb (JS.first_segment k) p) keys).
Proof.
  unfold TypeGen.groupKeysByPrefix.
  pose proof (group_fold keys [] [] grouped_nil) as H.
  cbn [app] in H. exact H.
Qed.

Lemma length_flat_map {A} (f : A -> list string) (l : list A) :
  List.length (flat_map f l) = list_sum (map (fun a => List.length (f a)) l).
Proof.
  unfold list_sum. induction l as [|a l IH]; cbn [flat_map map fold_right]; [reflexivity|].
  now rewrite length_app, IH.
Qed.

Lemma base_keys_sum (tree : fs) (nss : list string) :
  list_sum (map (fun ns => List.length (Spec.base_keys tree ns))
                (filter (Spec.has_base tree) nss))
  = list_sum (map (fun ns => List.length (Spec.base_keys tree ns)) nss).
Proof.
  unfold list_sum. induction nss as [|ns nss IH]; cbn [filter map fold_right]; [reflexivity|].
  destruct (Spec.has_base tree ns) eqn:E; cbn [map fold_right]; [now rewrite IH|].
  rewrite IH. unfold Spec.has_base, Spec.base_keys in *.
  destruct (files tree (NsFile "en" ns)); [discriminate | reflexivity].
Qed.

(** X16. When every base file of a declared namespace parses, the numbers
    and the prefix list of the generated file agree with its key lists: the
    total in the header is the length of the global union and the sum of the
    lengths of the per-namespace enumerations, and the prefix enumeration is
    in ascending order, without repetition, and consists of the first
    segments of the listed keys. *)
Theorem typegen_totals_and_prefixes :
  forall tree : fs,
    (forall ns, In ns Config.NAMESPACES ->
                files tree (NsFile "en" ns) <> Some Malformed) ->
    exists art w,
      TypeGen.run tree = (Ok art, w) /\
      TypeGen.totalKeys art = List.length (TypeGen.TranslationKey art) /\
      TypeGen.totalKeys art
        = list_sum (map (fun e => List.length (snd (snd e))) (TypeGen.namespaceTypes art)) /\
      Spec.ascending (TypeGen.TranslationPrefix art) /\
      NoDup (TypeGen.TranslationPrefix art) /\
      (forall p, In p (TypeGen.TranslationPrefix art)
                 <-> exists k, In k (TypeGen.TranslationKey art) /\ JS.first_segment k = p).
Proof.
  intros tree Hok. unfold TypeGen.run, TypeGen.generateTypes.
  erewrite bind_ok.
  2:{ apply (collect_run Config.NAMESPACES NAMESPACES_NoDup [] []); [exact Hok|].
      intros ns _ []. }
  cbn [disk console app fst snd]. unfold ret.
  eexists. eexists. split; [reflexivity|].
  cbn [TypeGen.totalKeys TypeGen.namespaceTypes TypeGen.TranslationKey
       TypeGen.TranslationPrefix].
  set (allKeys := flat_map (Spec.base_keys tree) Config.NAMESPACES).
  destruct (group_fold allKeys [] [] grouped_nil) as (Hnd & Hmem & _).
  cbn [app] in Hnd, Hmem. fold (TypeGen.groupKeysByPrefix allKeys) in Hnd, Hmem.
  split; [|split; [|split; [|split]]].
  - symmetry. apply Permutation_length, sort_perm.
  - rewrite !map_map. cbn [snd].
    rewrite (map_ext _ (fun ns => List.length (Spec.base_keys tree ns)))
      by (intros ns; apply Permutation_length, sort_perm).
    rewrite base_keys_sum. apply length_flat_map.
  - apply sort_ascending.
  - exact (Permutation_NoDup (Permutation_sym (sort_perm _)) Hnd).
  - intros p. rewrite sort_In, Hmem. split; intros (k & Hk & Hp); exists k;
      (split; [|exact Hp]); [rewrite sort_In | rewrite sort_In in Hk]; exact Hk.
Qed.

Lemma typegen_totals_and_prefixes_witness :
  exists art w,
    TypeGen.run Spec.shared_key_tree = (Ok art, w) /\
    TypeGen.totalKeys art = List.length (TypeGen.TranslationKey art) /\
    TypeGen.totalKeys art
      = list_sum (map (fun e => List.length (snd (snd e))) (TypeGen.namespaceTypes art)) /\
    Spec.ascending (TypeGen.TranslationPrefix art) /\
    NoDup (TypeGen.TranslationPrefix art) /\
    (forall p, In p (TypeGen.TranslationPrefix art)
               <-> exists k, In k (TypeGen.TranslationKey art) /\ JS.first_segment k = p).
Proof.
  apply (typegen_totals_and_prefixes Spec.shared_key_tree).
  intros ns _. apply parses_tree_of.
  repeat (apply Forall_cons; [discriminate|]). apply Forall_nil.
Defined.

(** The key collection reads only: it leaves every file as it is, and it
    either completes, no base file of its namespaces being malformed, or
    stops with the syntax error of a malformed base file. *)
Lemma collect_outcome (nss : list string) :
  forall nk ak w,
    (forall p, files (disk (snd (TypeGen.collect nss nk ak w))) p = files (disk w) p) /\
    (((exists x, fst (TypeGen.collect nss nk ak w) = Ok x) /\
      forall ns, In ns nss -> files (disk w) (NsFile "en" ns) <> Some Malformed)
     \/ exists ns, In ns nss /\ files (disk w) (NsFile "en" ns) = Some Malformed /\
                   fst (TypeGen.collect nss nk ak w) = Throw (SyntaxError (NsFile "en" ns))).
Proof.
  induction nss as [|ns nss IH]; intros nk ak w; cbn [TypeGen.collect].
  - split; [reflexivity|]. left. split; [now eexists | intros ns []].
  - destruct (files (disk w) (NsFile "en" ns)) as [[o|]|] eqn:E.
    + erewrite bind_ok by (unfold existsFile; rewrite E; reflexivity). cbn [negb].
      erewrite bind_ok by (unfold readJson; rewrite E; reflexivity).
      destruct (IH (TypeGen.map_set nk ns (JS.keys o)) (ak ++ JS.keys o) w) as [Hf Hr].
      split; [exact Hf|]. destruct Hr as [[Hok Hall]|(ns' & Hin & Hbad & Hthrow)].
      * left. split; [exact Hok|]. intros n [<-|Hn]; [congruence | now apply Hall].
      * right. exists ns'. split; [now right | now split].
    + erewrite bind_ok by (unfold existsFile; rewrite E; reflexivity). cbn [negb].
      erewrite bind_throw by (unfold readJson; rewrite E; reflexivity).
      split; [reflexivity|]. right. exists ns. split; [now left | now split].
    + erewrite bind_ok by (unfold existsFile; rewrite E; reflexivity). cbn [negb].
      erewrite bind_ok by reflexivity.
      destruct (IH nk ak {| disk := disk w; console := console w ++ [WarnNoFile ns] |})
        as [Hf Hr].
      cbn [disk] in Hf, Hr.
      split; [exact Hf|]. destruct Hr as [[Hok Hall]|(ns' & Hin & Hbad & Hthrow)].
      * left. split; [exact Hok|]. intros n [<-|Hn]; [congruence | now apply Hall].
      * right. exists ns'. split; [now right | now split].
Qed.

(** X17. The type generator only reads the translation tree: whatever the
    tree, a run leaves every file as it is; it completes when no base file
    of a declared namespace is malformed, and otherwise stops with the
    syntax error of such a file, producing nothing. *)
Theorem typegen_reads_only :
  forall tree : fs,
    (forall p, files (disk (snd (TypeGen.run tree))) p = files tree p) /\
    (((exists art, fst (TypeGen.run tree) = Ok art) /\
      forall ns, In ns Config.NAMESPACES -> files tree (NsFile "en" ns) <> Some Malformed)
     \/ exists ns, In ns Config.NAMESPACES /\
                   files tree (NsFile "en" ns) = Some Malformed /\
                   fst (TypeGen.run tree) = Throw (SyntaxError (NsFile "en" ns))).
Proof.
  intros tree. unfold TypeGen.run, TypeGen.generateTypes.
  set (w0 := {| disk := tree; console := [] |}).
  destruct (collect_outcome Config.NAMESPACES [] [] w0) as [Hf Hr].
  unfold bind. destruct (TypeGen.collect Config.NAMESPACES [] [] w0) as [[x|e] w1];
    cbn [fst snd ret] in *.
  - split; [exact Hf|]. destruct Hr as [[_ Hall]|(ns & _ & _ & H)]; [|discriminate].
    left. split; [now eexists | exact Hall].
  - split; [exact Hf|].
    destruct Hr as [[[y Hy] _]|(ns & H1 & H2 & H3)]; [discriminate|].
    injection H3 as ->. right. exists ns. split; [exact H1|]. split; [exact H2 | reflexivity].
Qed.

End TypeGenMore.

(** ** The platform switch of the build script *)

Section BuildScript.

Lemma buildCommand_none (platform : string) :
  BuildAuto.buildCommand platform = None <-> ~ In platform ["darwin"; "linux"; "win32"].
Proof.
  unfold BuildAuto.buildCommand.
  destruct (String.eqb_spec platform "darwin") as [->|H1];
    [split; [discriminate | intros H; exfalso; apply H; cbn; tauto]|].
  destruct (String.eqb_spec platform "linux") as [->|H2];
    [split; [discriminate | intros H; exfalso; apply H; cbn; tauto]|].
  destruct (String.eqb_spec platform "win32") as [->|H3];
    [split; [discriminate | intros H; exfalso; apply H; cbn; tauto]|].
  split; [|reflexivity]. intros _ [H|[H|[H|[]]]]; congruence.
Qed.

(** X18. The build script runs at most one command, and none on a platform
    other than [darwin], [linux] and [win32]; it exits with status 0 exactly
    when the platform is one of these and its command succeeded, and only
    then prints the completion line. *)
Theorem build_exit_status (execSync : string -> bool) (platform : string) :
  let r := BuildAuto.run execSync platform in
  (BuildAuto.exit_code r = 0 <->
   exists building command,
     BuildAuto.buildCommand platform = Some (building, command) /\
     execSync command = true) /\
  (BuildAuto.executed r = [] <-> ~ In platform ["darwin"; "linux"; "win32"]) /\
  List.length (BuildAuto.executed r) <= 1 /\
  (In BuildAuto.Completed (BuildAuto.printed r) <-> BuildAuto.exit_code r = 0) /\
  (BuildAuto.exit_code r = 0 \/ BuildAuto.exit_code r = 1).
Proof.
  cbv zeta. unfold BuildAuto.run.
  pose proof (buildCommand_none platform) as Hnone.
  destruct (BuildAuto.buildCommand platform) as [[building command]|] eqn:E.
  - assert (Hsup : ~ ~ In platform ["darwin"; "linux"; "win32"]).
    { intros H. apply Hnone in H. discriminate. }
    assert (Hb : building <> BuildAuto.Completed).
    { unfold BuildAuto.buildCommand in E.
      repeat (destruct (String.eqb platform _); [injection E as <- _; discriminate|]).
      discriminate. }
    destruct (execSync command) eqn:Ex;
      cbn [BuildAuto.exit_code BuildAuto.executed BuildAuto.printed List.length In].
    + split; [split; [intros _; now exists building, command | reflexivity]|].
      split; [split; [discriminate | tauto]|].
      split; [lia|]. split; [|now left]. split; [reflexivity | tauto].
    + split; [split; [discriminate | intros (b & c & Hc & He); congruence]|].
      split; [split; [discriminate | tauto]|].
      split; [lia|]. split; [|now right]. split; [|discriminate].
      intros [H|[H|[H|[]]]]; try discriminate. congruence.
  - cbn [BuildAuto.exit_code BuildAuto.executed BuildAuto.printed List.length In].
    split; [split; [discriminate | intros (b & c & Hc & _); discriminate]|].
    split; [split; [intros _; now apply Hnone | reflexivity]|].
    split; [lia|]. split; [|now right]. split; [|discriminate].
    intros [H|[H|[]]]; discriminate.
Qed.

End BuildScript.

(** ** The permission list editor *)

Section PermissionList.

Lemma removeAt_spec (l : list string) :
  forall i index,
    Settings.removeAt l i index
    = if Nat.leb i index
      then firstn (index - i) l ++ skipn (S (index - i)) l
      else l.
Proof.
  induction l as [|x l IH]; intros i index; cbn [Settings.removeAt].
  - destruct (Nat.leb i index); [now rewrite firstn_nil, skipn_nil | reflexivity].
  - rewrite IH. destruct (Nat.eqb_spec i index) as [->|Hne].
    + rewrite Nat.leb_refl, Nat.sub_diag. cbn [firstn skipn app].
      replace (Nat.leb (S index) index) with false
        by (symmetry; apply Nat.leb_gt; lia).
      reflexivity.
    + destruct (Nat.leb i index) eqn:E.
      * apply Nat.leb_le in E.
        replace (Nat.leb (S i) index) with true by (symmetry; apply Nat.leb_le; lia).
        replace (index - i) with (S (index - S i)) by lia.
        reflexivity.
      * apply Nat.leb_gt in E.
        replace (Nat.leb (S i) index) with false by (symmetry; apply Nat.leb_gt; lia).
        reflexivity.
Qed.

(** X19. Removing a permission by its index drops exactly the item at that
    position and keeps the others in their order; an index past the end
    changes nothing; the input field is left alone. *)
Theorem removeItem_at (e : Settings.editor) (index : nat) :
  Settings.items (Settings.removeItem e index)
    = firstn index (Settings.items e) ++ skipn (S index) (Settings.items e) /\
  (index < List.length (Settings.items e) ->
   S (List.length (Settings.items (Settings.removeItem e index)))
   = List.length (Settings.items e)) /\
  (List.length (Settings.items e) <= index ->
   Settings.items (Settings.removeItem e index) = Settings.items e) /\
  Settings.newItem (Settings.removeItem e index) = Settings.newItem e.
Proof.
  unfold Settings.removeItem. cbn [Settings.items Settings.newItem].
  rewrite removeAt_spec. cbn [Nat.leb]. rewrite Nat.sub_0_r.
  split; [reflexivity|]. split; [|split; [|reflexivity]].
  - intros Hlt. rewrite length_app, length_firstn, length_skipn. lia.
  - intros Hle. rewrite firstn_all2 by exact Hle.
    rewrite skipn_all2 by lia. apply app_nil_r.
Qed.

Lemma trimEnd_head (c : ascii) (s : string) :
  Settings.is_space c = false ->
  Settings.trimEnd (String c s) = String c (Settings.trimEnd s).
Proof.
  intros Hc. cbn [Settings.trimEnd]. rewrite Hc.
  now destruct (Settings.trimEnd s).
Qed.

Lemma trimStart_head (s : string) :
  Settings.trimStart s = EmptyString \/
  exists c s', Settings.trimStart s = String c s' /\ Settings.is_space c = false.
Proof.
  induction s as [|c s IH]; cbn [Settings.trimStart]; [now left|].
  destruct (Settings.is_space c) eqn:E; [exact IH|].
  right. now exists c, s.
Qed.

Lemma trimEnd_trimEnd (s : string) :
  Settings.trimEnd (Settings.trimEnd s) = Settings.trimEnd s.
Proof.
  induction s as [|c s IH]; [reflexivity|]. cbn [Settings.trimEnd].
  destruct (Settings.trimEnd s) as [|d r] eqn:E.
  - destruct (Settings.is_space c) eqn:Ec; [reflexivity|].
    cbn [Settings.trimEnd]. now rewrite Ec.
  - cbn [Settings.trimEnd]. cbn [Settings.trimEnd] in IH. rewrite IH. reflexivity.
Qed.

Lemma trim_trim (s : string) : Settings.trim (Settings.trim s) = Settings.trim s.
Proof.
  unfold Settings.trim.
  destruct (trimStart_head s) as [H|(c & s' & H & Hc)]; rewrite H.
  - reflexivity.
  - rewrite (trimEnd_head c s' Hc). cbn [Settings.trimStart]. rewrite Hc.
    rewrite <- (trimEnd_head c s' Hc). apply trimEnd_trimEnd.
Qed.

Lemma removeAt_clean (l : list string) :
  forall i index, Settings.clean l -> Settings.clean (Settings.removeAt l i index).
Proof.
  unfold Settings.clean.
  induction l as [|x l IH]; intros i index Hl; cbn [Settings.removeAt]; [constructor|].
  inversion Hl as [|? ? Hx Hl']; subst.
  destruct (Nat.eqb i index); [now apply IH | constructor; [exact Hx | now apply IH]].
Qed.

(** X20. The permission list keeps its items trimmed and non-empty: if they
    are so before, they are so after adding the input field's content and
    after removing any index.  Input made of white space only adds nothing,
    and removing the item just added gives back the list as it was. *)
Theorem permission_list_clean (e : Settings.editor) (index : nat) :
  Settings.clean (Settings.items e) ->
  Settings.clean (Settings.items (Settings.addItem e)) /\
  Settings.clean (Settings.items (Settings.removeItem e index)) /\
  (Settings.trim (Settings.newItem e) = "" -> Settings.addItem e = e) /\
  Settings.items (Settings.removeItem (Settings.addItem e)
                                      (List.length (Settings.items e)))
    = Settings.items e.
Proof.
  intros Hclean. split; [|split; [|split]].
  - unfold Settings.addItem.
    destruct (String.eqb_spec (Settings.trim (Settings.newItem e)) "") as [Heq|Hne];
      cbn [negb Settings.items]; [exact Hclean|].
    apply Forall_app. split; [exact Hclean|].
    constructor; [|constructor]. split; [apply trim_trim | exact Hne].
  - now apply removeAt_clean.
  - intros Heq. unfold Settings.addItem. now rewrite Heq.
  - unfold Settings.removeItem. cbn [Settings.items]. rewrite removeAt_spec.
    cbn [Nat.leb]. rewrite Nat.sub_0_r. unfold Settings.addItem.
    destruct (String.eqb (Settings.trim (Settings.newItem e)) ""); cbn [negb Settings.items].
    + rewrite firstn_all, skipn_all2 by lia. apply app_nil_r.
    + rewrite firstn_app, Nat.sub_diag, firstn_all. cbn [firstn].
      rewrite skipn_all2 by (rewrite length_app; cbn; lia).
      now rewrite !app_nil_r.
Qed.

Lemma permission_list_clean_witness :
  Settings.clean (Settings.items (Settings.addItem Settings.example_editor)) /\
  Settings.clean (Settings.items (Settings.removeItem Settings.example_editor 0)) /\
  (Settings.trim (Settings.newItem Settings.example_editor) = "" ->
   Settings.addItem Settings.example_editor = Settings.example_editor) /\
  Settings.items (Settings.removeItem (Settings.addItem Settings.example_editor)
                    (List.length (Settings.items Settings.example_editor)))
    = Settings.items Settings.example_editor.
Proof.
  apply (permission_list_clean Settings.example_editor 0).
  repeat (apply Forall_cons; [split; [reflexivity | discriminate]|]). apply Forall_nil.
Defined.

End PermissionList.

(** ** The export filter for sensitive settings *)

Section ExportFilter.

Variables toLowerCase toUpperCase : string -> string.

Let sensitive := Settings.sensitive toLowerCase.
Let maskEntry := Settings.maskEntry toLowerCase toUpperCase.
Let sanitizeEnv := Settings.sanitizeEnv toLowerCase toUpperCase.

Lemma define_entries (entries : list (string * JS.value)) :
  forall acc,
    NoDup (JS.keys acc ++ map fst entries) ->
    Spec.key_order (JS.keys acc ++ map fst entries) ->
    fold_left (fun o kv => JS.define_own o (fst kv) (snd kv)) entries acc
    = acc ++ entries.
Proof.
  induction entries as [|[k v] entries IH]; intros acc Hnd Hord; cbn [fold_left].
  - now rewrite app_nil_r.
  - cbn [map fst] in Hnd, Hord.
    assert (Hassoc : JS.keys acc ++ k :: map fst entries
                     = (JS.keys acc ++ [k]) ++ map fst entries)
      by (now rewrite <- app_assoc).
    assert (Hni : ~ In k (JS.keys acc)).
    { apply NoDup_remove_2 in Hnd. intros H. apply Hnd. apply in_or_app. now left. }
    cbn [fst snd]. unfold JS.define_own.
    apply hasOwn_not_In in Hni. rewrite Hni.
    rewrite add_own_last
      by (apply key_order_prefix with (l2 := map fst entries); now rewrite <- Hassoc).
    rewrite IH.
    + now rewrite <- app_assoc.
    + unfold JS.keys. rewrite map_app. cbn [map fst]. fold (JS.keys acc).
      now rewrite <- Hassoc.
    + unfold JS.keys. rewrite map_app. cbn [map fst]. fold (JS.keys acc).
      now rewrite <- Hassoc.
Qed.

Lemma keys_masked (env : JS.object) : map fst (map maskEntry env) = JS.keys env.
Proof.
  unfold JS.keys. rewrite map_map. apply map_ext. intros [k v].
  unfold maskEntry, Settings.maskEntry. cbn [fst].
  now destruct (Settings.sensitive toLowerCase k).
Qed.

(** On an environment as the runtime holds it, the filter maps the entries
    one by one. *)
Lemma sanitizeEnv_map (env : JS.object) :
  NoDup (JS.keys env) -> Spec.key_order (JS.keys env) ->
  sanitizeEnv env = map maskEntry env.
Proof.
  intros Hnd Hord. unfold sanitizeEnv, Settings.sanitizeEnv, Settings.fromEntries.
  fold maskEntry. rewrite define_entries; [reflexivity | |];
    cbn [JS.keys JS.empty map app]; now rewrite keys_masked.
Qed.

(** X21. The export filter keeps the names of an environment and their
    order; a value whose name contains "key", "token" or "secret" in any
    letter case is replaced by a placeholder made from the name alone, every
    other value is exported as it is. *)
Theorem sanitizeEnv_entries (env : JS.object) :
  Spec.table env ->
  JS.keys (sanitizeEnv env) = JS.keys env /\
  forall k v, In (k, v) env ->
    JS.own (sanitizeEnv env) k
    = Some (if sensitive k
            then JS.VString ("YOUR_" ++ toUpperCase k ++ "_HERE")
            else v).
Proof.
  intros [Hnd Hord Hstr].
  rewrite (sanitizeEnv_map env Hnd Hord).
  split; [apply keys_masked|].
  intros k v Hin. apply In_own.
  - fold (JS.keys (map maskEntry env)). unfold JS.keys at 1.
    now rewrite keys_masked.
  - apply in_map_iff. exists (k, v). split; [|exact Hin].
    unfold maskEntry, Settings.maskEntry, sensitive. cbn [fst].
    now destruct (Settings.sensitive toLowerCase k).
Qed.

Lemma masked_agree (env1 : JS.object) :
  forall env2,
    NoDup (JS.keys env1) -> JS.keys env1 = JS.keys env2 ->
    (forall k, sensitive k = false -> JS.own env1 k = JS.own env2 k) ->
    map maskEntry env1 = map maskEntry env2.
Proof.
  induction env1 as [|[k v1] env1 IH]; intros [|[k2 v2] env2] Hnd Hkeys Hagree;
    try discriminate; [reflexivity|].
  cbn [JS.keys map fst] in Hnd, Hkeys. injection Hkeys as <- Hkeys.
  inversion Hnd as [|? ? Hni Hnd']; subst. cbn [map]. f_equal.
  - unfold maskEntry, Settings.maskEntry. cbn [fst].
    destruct (Settings.sensitive toLowerCase k) eqn:E; [reflexivity|].
    specialize (Hagree k E). cbn [JS.own] in Hagree.
    rewrite String.eqb_refl in Hagree. now injection Hagree as ->.
  - apply IH; [exact Hnd' | exact Hkeys|].
    intros k' Hk'. specialize (Hagree k' Hk'). cbn [JS.own] in Hagree.
    destruct (String.eqb k' k) eqn:E; [|exact Hagree].
    apply String.eqb_eq in E. subst k'.
    assert (H1 : JS.own env1 k = None) by now apply own_None.
    assert (H2 : JS.own env2 k = None)
      by (apply own_None; unfold JS.keys in *; now rewrite <- Hkeys).
    now rewrite H1, H2.
Qed.

(** X22. The export filter does not let a sensitive value through: two
    environments with the same names that differ only in values under
    sensitive names are exported alike.  Filtering an exported environment
    again changes nothing. *)
Theorem sanitizeEnv_hides_values (env1 env2 : JS.object) :
  Spec.table env1 -> Spec.table env2 ->
  JS.keys env1 = JS.keys env2 ->
  (forall k, sensitive k = false -> JS.own env1 k = JS.own env2 k) ->
  sanitizeEnv env1 = sanitizeEnv env2 /\
  sanitizeEnv (sanitizeEnv env1) = sanitizeEnv env1.
Proof.
  intros [Hnd1 Hord1 _] [Hnd2 Hord2 _] Hkeys Hagree.
  rewrite (sanitizeEnv_map env1 Hnd1 Hord1), (sanitizeEnv_map env2 Hnd2 Hord2).
  split; [now apply masked_agree|].
  rewrite sanitizeEnv_map.
  - rewrite map_map. apply map_ext. intros [k v].
    unfold maskEntry, Settings.maskEntry. cbn [fst].
    destruct (Settings.sensitive toLowerCase k) eqn:E; cbn [fst]; now rewrite E.
  - unfold JS.keys. now rewrite keys_masked.
  - unfold JS.keys. now rewrite keys_masked.
Qed.

End ExportFilter.

Lemma sanitizeEnv_entries_witness :
  JS.keys (Settings.sanitizeEnv (Settings.map_string Settings.lower_ascii)
                                (Settings.map_string TypeGen.upper) Settings.example_env)
    = JS.keys Settings.example_env /\
  forall k v, In (k, v) Settings.example_env ->
    JS.own (Settings.sanitizeEnv (Settings.map_string Settings.lower_ascii)
                                 (Settings.map_string TypeGen.upper) Settings.example_env) k
    = Some (if Settings.sensitive (Settings.map_string Settings.lower_ascii) k
            then JS.VString ("YOUR_" ++ Settings.map_string TypeGen.upper k ++ "_HERE")
            else v).
Proof.
  apply (sanitizeEnv_entries (Settings.map_string Settings.lower_ascii)
           (Settings.map_string TypeGen.upper) Settings.example_env).
  now apply is_table_sound.
Defined.

Lemma sanitizeEnv_hides_values_witness :
  Settings.sanitizeEnv (Settings.map_string Settings.lower_ascii)
                       (Settings.map_string TypeGen.upper) Settings.example_env
  = Settings.sanitizeEnv (Settings.map_string Settings.lower_ascii)
                         (Settings.map_string TypeGen.upper) Settings.example_env' /\
  Settings.sanitizeEnv (Settings.map_string Settings.lower_ascii)
    (Settings.map_string TypeGen.upper)
    (Settings.sanitizeEnv (Settings.map_string Settings.lower_ascii)
       (Settings.map_string TypeGen.upper) Settings.example_env)
  = Settings.sanitizeEnv (Settings.map_string Settings.lower_ascii)
      (Settings.map_string TypeGen.upper) Settings.example_env.
Proof.
  apply (sanitizeEnv_hides_values (Settings.map_string Settings.lower_ascii)
           (Settings.map_string TypeGen.upper) Settings.example_env Settings.example_env').
  - now apply is_table_sound.
  - now apply is_table_sound.
  - reflexivity.
  - intros k Hk. cbn [JS.own Settings.example_env Settings.example_env' Spec.str].
    destruct (String.eqb_spec k "API_KEY") as [->|_]; [discriminate Hk|].
    destruct (String.eqb_spec k "HOME") as [->|_]; [reflexivity|].
    destruct (String.eqb_spec k "GH_TOKEN") as [->|_]; [discriminate Hk | reflexivity].
Defined.

(** ** The activity timeline's date filter *)

Section DateFilter.

Import Timeline.

Lemma length_append (s t : string) :
  String.length (s ++ t)%string = String.length s + String.length t.
Proof. induction s as [|c s IH]; cbn; [reflexivity | now rewrite IH]. Qed.

Lemma append_inj (s1 : string) :
  forall s2 t1 t2,
    String.length t1 = String.length t2 -> (s1 ++ t1 = s2 ++ t2)%string ->
    s1 = s2 /\ t1 = t2.
Proof.
  induction s1 as [|c s1 IH]; intros [|c2 s2] t1 t2 Hlen H; cbn in H.
  - now split.
  - subst t1. cbn in Hlen. rewrite length_append in Hlen. lia.
  - subst t2. cbn in Hlen. rewrite length_append in Hlen. lia.
  - injection H as -> H. destruct (IH _ _ _ Hlen H) as [-> ->]. now split.
Qed.

Lemma field_length (n : nat) : n <= 31 -> String.length (field n) = 2.
Proof.
  intros Hn.
  assert (H : fields_short = true) by (vm_compute; reflexivity).
  unfold fields_short in H. rewrite forallb_forall in H.
  apply Nat.eqb_eq, H, in_seq. lia.
Qed.

Lemma field_inj (a b : nat) : a <= 31 -> b <= 31 -> field a = field b -> a = b.
Proof.
  intros Ha Hb Heq.
  assert (H : fields_distinct = true) by (vm_compute; reflexivity).
  unfold fields_distinct in H. rewrite forallb_forall in H.
  specialize (H a). rewrite forallb_forall in H.
  assert (Hab : implb (String.eqb (field a) (field b)) (Nat.eqb a b) = true)
    by (apply H; apply in_seq; lia).
  rewrite Heq, String.eqb_refl in Hab. now apply Nat.eqb_eq.
Qed.

Lemma String_of_Z_inj (y y' : Z) : String_of_Z y = String_of_Z y' -> y = y'.
Proof.
  unfold String_of_Z. intros H. apply DecimalZ.to_int_inj.
  assert (Hp : forall z, NilZero.int_of_string (NilZero.string_of_int (Z.to_int z))
                         = Some (Z.to_int z)).
  { intros [|p|p]; apply NilZero.isi; cbn; try discriminate;
      intros [= E]; now apply DecimalPos.Unsigned.to_uint_nonnil in E. }
  apply (f_equal NilZero.int_of_string) in H. rewrite !Hp in H. now injection H.
Qed.

Lemma String_of_Z_head (y : Z) :
  exists c rest, String_of_Z y = String c rest /\ c <> "N"%char.
Proof.
  unfold String_of_Z.
  assert (Hu : forall d, d <> Decimal.Nil ->
            exists c rest, NilZero.string_of_uint d = String c rest /\ c <> "N"%char).
  { intros d Hd. destruct d; try (now destruct Hd);
      cbn; eexists _, _; (split; [reflexivity | discriminate]). }
  destruct y as [|p|p]; cbn.
  - eexists _, _. split; [reflexivity | discriminate].
  - apply Hu, DecimalPos.Unsigned.to_uint_nonnil.
  - eexists _, _. split; [reflexivity | discriminate].
Qed.

Lemma toLocalDateString_inj (a b : date) :
  calendar a -> calendar b ->
  toLocalDateString a = toLocalDateString b -> a = b.
Proof.
  destruct a as [y m d|], b as [y' m' d'|]; cbn [calendar toLocalDateString];
    intros Ha Hb H.
  - fold (field (m + 1)) (field d) (field (m' + 1)) (field d') in H.
    apply append_inj in H.
    + destruct H as [Hy H]. apply String_of_Z_inj in Hy. subst y'.
      injection H as H.
      apply append_inj in H.
      * destruct H as [Hm H]. injection H as H.
        apply field_inj in Hm; [|lia|lia]. apply field_inj in H; [|lia|lia].
        f_equal; lia.
      * cbn [String.length append]. rewrite !field_length by lia. reflexivity.
    + cbn [String.length append]. rewrite !length_append.
      cbn [String.length append]. rewrite !field_length by lia. reflexivity.
  - exfalso. destruct (String_of_Z_head y) as (c & rest & E & Hc).
    rewrite E in H. cbn in H. now injection H as -> _.
  - exfalso. destruct (String_of_Z_head y') as (c & rest & E & Hc).
    rewrite E in H. cbn in H. now injection H as <- _.
  - reflexivity.
Qed.

(** X23. With both bounds set, the timeline reports a selected day exactly
    when the two bounds fall on the same local calendar day, and then it is
    that day's string; a filter whose two bounds are both invalid dates
    counts as one selected day. *)
Theorem selectedDate_same_day (f : DateFilter) (s e : date) :
  start f = Some s -> end_ f = Some e -> calendar s -> calendar e ->
  (s = e -> selectedDate f = Some (toLocalDateString s)) /\
  (s <> e -> selectedDate f = None).
Proof.
  intros Hs He Cs Ce. unfold selectedDate. rewrite Hs, He. cbv zeta. split.
  - intros <-. now rewrite String.eqb_refl.
  - intros Hne. destruct (String.eqb_spec (toLocalDateString s) (toLocalDateString e))
      as [E|]; [|reflexivity].
    now apply toLocalDateString_inj in E.
Qed.

Lemma selectedDate_same_day_witness :
  (Valid 2025 0 5 = Valid 2025 0 5 ->
   selectedDate single_day = Some (toLocalDateString (Valid 2025 0 5))) /\
  (Valid 2025 0 5 <> Valid 2025 0 5 -> selectedDate single_day = None).
Proof.
  apply (selectedDate_same_day single_day (Valid 2025 0 5) (Valid 2025 0 5));
    try reflexivity; cbn; lia.
Defined.

End DateFilter.
